(** * Govee MCP gateway: a shallow embedding of the dispatch layer

    The development follows the TypeScript sources file by file:
    [util/types.ts], [util/limiter.ts], [adapters/cloud.ts],
    [adapters/lan.ts] and the two server front ends (the low-level
    [Server] with a [tools/call] switch, and the [McpServer] with
    [registerTool] and zod input schemas).

    Conventions of the embedding:
    - a JavaScript [number] that the code computes with is a rational
      ([Q]); the double-precision rounding of the host is not modelled,
      and [NaN] appears only where [Number(...)] can produce it;
    - 32-bit integer operators ([<<], [>>], [|], [&]) act on [Z] with the
      [ToInt32] wrap-around written out;
    - an [async] function is a state transformer over a [World] that
      records every observable effect in a chronological trace;
    - the wall clock and the vendor's HTTP responses are inputs of the
      world, so every statement holds for all clocks and all responses;
    - the polling loop of [take] runs for a budget of passes ([fuel]) and
      is shown to return once the budget is large enough; the device
      tasks of a batch interleave along an arbitrary schedule;
    - the character class [\s] of the allowlist's regular expression
      (which is also what [trim] strips) is a parameter of the functions
      that read [GOVEE_ALLOWLIST]. *)

From Stdlib Require Import ZArith QArith Qminmax Qround Lqa Lia Ascii String.
From stdpp Require Import base strings gmap list pretty.

Local Open Scope string_scope.
Local Open Scope list_scope.
Local Open Scope Z_scope.

(** ** util/types.ts *)

Record DeviceRef := mkDeviceRef { deviceId : string; model : string }.

Record DeviceInfo := mkDeviceInfo {
  info_deviceId : string;
  info_model : string;
  name : option string;
  capabilities : list string
}.

Inductive Power := on | off.

Record Rgb := mkRgb { r : Q; g : Q; b : Q }.

(** [Number(x)] may be [NaN]; every other number is a rational. *)
Inductive Num := Fin (q : Q) | NaN.

Record State := mkState {
  power : option Power;
  st_brightness : option Num;
  st_color : option Rgb;
  st_colorTem : option Num;
  st_scene : option string
}.

Inductive ControlCmd :=
| turn (value : Power)
| brightness (value : Q)
| color (value : Rgb)
| colorTem (value : Q)
| scene (value : string).

(** [cmd.name], the discriminant of the union. *)
Definition cmd_name (cmd : ControlCmd) : string :=
  match cmd with
  | turn _ => "turn"
  | brightness _ => "brightness"
  | color _ => "color"
  | colorTem _ => "colorTem"
  | scene _ => "scene"
  end.

Record BatchItem := mkBatchItem {
  item_deviceId : string;
  item_model : string;
  cmd : ControlCmd
}.

(** ** JavaScript values and operators used by the sources *)

(** A JSON leaf as it appears in a capability [value]. *)
Inductive JsVal := JUndefined | JNumber (q : Q) | JString (s : string).

(** The runtime under the program.  [Date_now n] is what the [n]-th call
    of [Date.now()] returns (milliseconds); the decimal form of a
    non-integral double and the numeric value of a string are inputs of
    the model too. *)
Record Host := mkHost {
  Date_now : nat -> Z;
  FracToString : Q -> string;
  StringToNumber : string -> Num
}.

Definition is_integer (q : Q) : bool := Qeq_bool (inject_Z (Qfloor q)) q.

(** [`${x}`] for a number [x]: an integer prints in decimal (as doubles
    below 10^21 do), anything else as the host prints it. *)
Definition ToString (host : Host) (q : Q) : string :=
  if is_integer q then pretty (Qfloor q) else FracToString host q.

(** [Number(v)]. *)
Definition Number (host : Host) (v : JsVal) : Num :=
  match v with
  | JUndefined => NaN
  | JNumber q => Fin q
  | JString s => StringToNumber host s
  end.

(** [v === 1]. *)
Definition strict_eq_1 (v : JsVal) : bool :=
  match v with
  | JNumber q => Qeq_bool q 1
  | _ => false
  end.

(** Rounding toward zero, the first step of [ToInt32]. *)
Definition Qtrunc (q : Q) : Z :=
  if Qle_bool 0 q then Qfloor q else Qceiling q.

Definition wrap32 (z : Z) : Z := (z + 2 ^ 31) mod 2 ^ 32 - 2 ^ 31.

Definition ToInt32 (x : Num) : Z :=
  match x with
  | Fin q => wrap32 (Qtrunc q)
  | NaN => 0
  end.

(** [a << n], [a >> n], [a | b], [a & b] on numbers. *)
Definition js_shl (a : Num) (n : Z) : Z := wrap32 (Z.shiftl (ToInt32 a) n).
Definition js_shr (a : Num) (n : Z) : Z := Z.shiftr (ToInt32 a) n.
Definition js_or (a b : Z) : Z := Z.lor a b.
Definition js_and (a b : Z) : Z := Z.land a b.

(** [Math.round]: the nearest integer, ties toward positive infinity. *)
Definition Math_round (x : Q) : Z := Qfloor (x + (1 # 2))%Q.

(** ** The capability envelope of [CloudAdapter.control] *)

Record Capability := mkCapability {
  type : string;
  instance : string;
  value : JsVal
}.

(** The [switch (cmd.name)] of [control]. *)
Definition capability_of (c : ControlCmd) : Capability :=
  match c with
  | turn v =>
      mkCapability "devices.capabilities.on_off" "powerSwitch"
        (JNumber (match v with on => 1 | off => 0 end))
  | brightness v =>
      mkCapability "devices.capabilities.range" "brightness" (JNumber v)
  | color v =>
      let rgb := js_or (js_or (js_shl (Fin (r v)) 16) (js_shl (Fin (g v)) 8))
                       (ToInt32 (Fin (b v))) in
      mkCapability "devices.capabilities.color_setting" "colorRgb"
        (JNumber (inject_Z rgb))
  | colorTem v =>
      mkCapability "devices.capabilities.color_setting" "colorTemperatureK"
        (JNumber v)
  | scene v =>
      mkCapability "devices.capabilities.dynamic_scene" "lightScene" (JString v)
  end.

(** ** The capability-state entries read by [CloudAdapter.getState] *)

(** One element of [data.capabilities]; [state_value] is [c.state?.value]. *)
Record CapabilityState := mkCapabilityState {
  cs_type : string;
  cs_instance : string;
  state_value : JsVal
}.

Definition empty_State : State := mkState None None None None None.

(** The body of the [for (const c of caps)] loop: four independent [if]s. *)
Definition decode_capability (host : Host) (st : State) (c : CapabilityState) : State :=
  let st :=
    if String.eqb (cs_type c) "devices.capabilities.on_off"
    then mkState (Some (if strict_eq_1 (state_value c) then on else off))
                 (st_brightness st) (st_color st) (st_colorTem st) (st_scene st)
    else st in
  let st :=
    if String.eqb (cs_type c) "devices.capabilities.range"
       && String.eqb (cs_instance c) "brightness"
    then mkState (power st) (Some (Number host (state_value c)))
                 (st_color st) (st_colorTem st) (st_scene st)
    else st in
  let st :=
    if String.eqb (cs_type c) "devices.capabilities.color_setting"
       && String.eqb (cs_instance c) "colorRgb"
    then
      let rgb := Number host (state_value c) in
      mkState (power st) (st_brightness st)
              (Some (mkRgb (inject_Z (js_and (js_shr rgb 16) 255))
                           (inject_Z (js_and (js_shr rgb 8) 255))
                           (inject_Z (js_and (ToInt32 rgb) 255))))
              (st_colorTem st) (st_scene st)
    else st in
  if String.eqb (cs_type c) "devices.capabilities.color_setting"
     && String.eqb (cs_instance c) "colorTemperatureK"
  then mkState (power st) (st_brightness st) (st_color st)
               (Some (Number host (state_value c))) (st_scene st)
  else st.

(** [getState] after the response has arrived: scan the array in order. *)
Definition decode_state (host : Host) (caps : list CapabilityState) : State :=
  fold_left (decode_capability host) caps empty_State.

(** The control envelope [{type, instance, value}] as the vendor reports
    it back in a state response, [{type, instance, state: {value}}]. *)
Definition reported (c : Capability) : CapabilityState :=
  mkCapabilityState (type c) (instance c) (value c).

(** The [State] field that a command writes. *)
Definition State_of_cmd (c : ControlCmd) : State :=
  match c with
  | turn v => mkState (Some v) None None None None
  | brightness v => mkState None (Some (Fin v)) None None None
  | color v => mkState None None (Some v) None None
  | colorTem v => mkState None None None (Some (Fin v)) None
  | scene v => mkState None None None None (Some v)
  end.

(** ** util/limiter.ts *)

Record TokenBucketLimiter := mkLimiter {
  capacity : Q;
  tokens : Q;
  refillRatePerSec : Q;
  last : Z
}.

(** [constructor(rps)], with [now] the value of [Date.now()]. *)
Definition new_TokenBucketLimiter (rps : Q) (now : Z) : TokenBucketLimiter :=
  mkLimiter (Qmax 1 rps) (Qmax 1 rps) rps now.

(** One pass through the body of [while (true)] in [take]: the refilled
    limiter, and whether the pass returned.  The arithmetic is exact: the
    rounding of each operation to a double is not modelled, so a refill
    that reaches 1 only up to that rounding is decided here by its exact
    value. *)
Definition take_iter (now : Z) (l : TokenBucketLimiter) : TokenBucketLimiter * bool :=
  let elapsed := (inject_Z (now - last l) / 1000)%Q in
  let refilled := Qmin (capacity l) (tokens l + elapsed * refillRatePerSec l)%Q in
  if Qle_bool 1 refilled
  then (mkLimiter (capacity l) (refilled - 1)%Q (refillRatePerSec l) now, true)
  else (mkLimiter (capacity l) refilled (refillRatePerSec l) now, false).

(** ** Process configuration and the world *)

Record Config := mkConfig {
  API_BASE : string;
  API_KEY : string;
  DRY_RUN : bool;
  ALLOWLIST : gset string;
  GOVEE_RATE_RPS : Q;
  BATCH_WINDOW_MS : Q;
  lanEnabled : bool
}.

Inductive Method := GET | POST.

Inductive Payload :=
| NoPayload
| StateQuery (requestId sku device : string)
| ControlWrite (requestId sku device : string) (capability : Capability).

Record HttpRequest := mkRequest {
  url : string;
  method : Method;
  headers : list (string * string);
  body : Payload
}.

Record RawDevice := mkRawDevice {
  device : string;
  sku : string;
  deviceName : option string;
  raw_capabilities : option (list string)
}.

(** The parsed response body [{data}]: the device array of
    [GET /user/devices] and [data.capabilities] of [POST /device/state],
    each possibly absent.  A body of another shape (a [data] that is not
    an array of objects, a null entry among the capabilities), on which
    the adapter throws a [TypeError], is outside this type. *)
Record Json := mkJson {
  data_devices : option (list RawDevice);
  data_capabilities : option (list CapabilityState)
}.

(** A response: the status line, the raw body, and what [res.json()]
    gives (the parsed body, or the parser's message when it rejects). *)
Record HttpResponse := mkResponse {
  status : Z;
  text : string;
  json : Json + string
}.

(** [res.ok]. *)
Definition ok (res : HttpResponse) : bool :=
  (200 <=? status res) && (status res <=? 299).

Inductive Event :=
| EvTake
| EvToken
| EvTimeout (ms : Q)
| EvFetch (req : HttpRequest)
| EvLogControl (ref : DeviceRef) (c : ControlCmd)
| EvLogBatch (items : list BatchItem).

(** The mutable process state and its environment: the limiter singleton,
    how many times [Date.now()] was read, the responses the vendor will
    give to the coming requests (in order), and what happened so far. *)
Record World := mkWorld {
  limiter : TokenBucketLimiter;
  ticks : nat;
  inbox : list HttpResponse;
  trace : list Event
}.

Inductive Exn :=
| Error (message : string)
| TypeError (message : string)
| SyntaxError (message : string)
| McpError (message : string).

Definition message_of (e : Exn) : string :=
  match e with
  | Error m | TypeError m | SyntaxError m | McpError m => m
  end.

(** How a promise settles; [Pending] when the polling budget of [take]
    ran out before it did. *)
Inductive Outcome (A : Type) :=
| Done (a : A)
| Throw (e : Exn)
| Pending.
Arguments Done {A} a.
Arguments Throw {A} e.
Arguments Pending {A}.

Definition M (A : Type) : Type := World -> World * Outcome A.

Definition ret {A} (a : A) : M A := fun w => (w, Done a).
Definition throw {A} (e : Exn) : M A := fun w => (w, Throw e).
Definition bind {A B} (m : M A) (k : A -> M B) : M B :=
  fun w =>
    match m w with
    | (w', Done a) => k a w'
    | (w', Throw e) => (w', Throw e)
    | (w', Pending) => (w', Pending)
    end.

Notation "'do' x <- m ; k" := (bind m (fun x => k))
  (at level 10, x name, m at level 100, k at level 200).
Notation "'run' m ; k" := (bind m (fun _ => k))
  (at level 10, m at level 100, k at level 200).

Definition emit (e : Event) : M unit :=
  fun w => (mkWorld (limiter w) (ticks w) (inbox w) (trace w ++ [e]), Done tt).

(** [await new Promise((r) => setTimeout(r, ms))]. *)
Definition sleep (ms : Q) : M unit := emit (EvTimeout ms).

Fixpoint for_each {A} (f : A -> M unit) (l : list A) : M unit :=
  match l with
  | [] => ret tt
  | x :: l' => run f x; for_each f l'
  end.

(** The events that are transport calls. *)
Definition fetches (tr : list Event) : list HttpRequest :=
  omap (fun e => match e with EvFetch req => Some req | _ => None end) tr.

(** How many events of a trace are entries of [take] / consumed tokens. *)
Definition is_take (e : Event) : bool :=
  match e with EvTake => true | _ => false end.
Definition is_token (e : Event) : bool :=
  match e with EvToken => true | _ => false end.
Definition takes (tr : list Event) : nat := length (List.filter is_take tr).
Definition tokens_consumed (tr : list Event) : nat :=
  length (List.filter is_token tr).

Section Gateway.

Variable cfg : Config.
Variable host : Host.

(** [Date.now()]: the next reading of the wall clock. *)
Definition now : M Z :=
  fun w =>
    (mkWorld (limiter w) (S (ticks w)) (inbox w) (trace w),
     Done (Date_now host (ticks w))).

(** *** util/limiter.ts: [take] *)

(** The [while (true)] loop of [take], for at most [fuel] passes. *)
Fixpoint take_loop (fuel : nat) : M unit :=
  match fuel with
  | O => fun w => (w, Pending)
  | S fuel' =>
      do t <- now;
      fun w =>
        let '(l, granted) := take_iter t (limiter w) in
        let w' := mkWorld l (ticks w) (inbox w) (trace w) in
        if granted then emit EvToken w'
        else (run sleep 50; take_loop fuel') w'
  end.

Definition take (fuel : nat) : M unit :=
  run emit EvTake; take_loop fuel.

(** *** adapters/cloud.ts *)

Definition fetch (req : HttpRequest) : M HttpResponse :=
  run emit (EvFetch req);
  fun w =>
    match inbox w with
    | [] => (w, Throw (TypeError "fetch failed"))
    | res :: rest => (mkWorld (limiter w) (ticks w) rest (trace w), Done res)
    end.

Definition api_error (res : HttpResponse) : Exn :=
  Error ("Govee API error " +:+ ToString host (inject_Z (status res))
         +:+ ": Request failed").

(** [return res.json()]. *)
Definition res_json (res : HttpResponse) : M Json :=
  match json res with
  | inl j => ret j
  | inr m => throw (SyntaxError m)
  end.

(** [post] and [get].  On a refusal [post] first awaits [res.text()] and
    drops it; the error is built from [res.status] in both. *)
Definition post (path : string) (payload : Payload) : M Json :=
  do res <- fetch (mkRequest (API_BASE cfg +:+ path) POST
                     [("Content-Type", "application/json");
                      ("Govee-API-Key", API_KEY cfg)]
                     payload);
  if negb (ok res) then throw (api_error res) else res_json res.

Definition get (path : string) : M Json :=
  do res <- fetch (mkRequest (API_BASE cfg +:+ path) GET
                     [("Govee-API-Key", API_KEY cfg)] NoPayload);
  if negb (ok res) then throw (api_error res) else res_json res.

Definition Cloud_listDevices : M (list DeviceInfo) :=
  do out <- get "/user/devices";
  let devices := default [] (data_devices out) in
  ret (map (fun d => mkDeviceInfo (device d) (sku d) (deviceName d)
                       (default [] (raw_capabilities d)))
           devices).

Definition Cloud_getState (ref : DeviceRef) : M State :=
  do out <- post "/device/state"
              (StateQuery "mcp-state" (model ref) (deviceId ref));
  let caps := default [] (data_capabilities out) in
  ret (decode_state host caps).

Definition Cloud_control (ref : DeviceRef) (c : ControlCmd) : M unit :=
  if DRY_RUN cfg then emit (EvLogControl ref c)
  else
    let capability := capability_of c in
    do t <- now;
    run post "/device/control"
          (ControlWrite ("mcp-" +:+ ToString host (inject_Z t))
             (model ref) (deviceId ref) capability);
    ret tt.

Definition Cloud_batch (items : list BatchItem) : M unit :=
  if DRY_RUN cfg then emit (EvLogBatch items)
  else
    for_each (fun it =>
                run Cloud_control (mkDeviceRef (item_deviceId it) (item_model it))
                      (cmd it);
                sleep 60)
             items.

(** *** adapters/lan.ts *)

Definition Lan_listDevices : M (list DeviceInfo) := ret [].

Definition Lan_getState (_ref : DeviceRef) : M State :=
  throw (Error "LAN getState not implemented").

Definition Lan_control (_ref : DeviceRef) (_cmd : ControlCmd) : M unit :=
  if negb (lanEnabled cfg) then throw (Error "LAN disabled")
  else throw (Error "LAN control not implemented").

Definition Lan_batch (items : list BatchItem) : M unit :=
  for_each (fun it =>
              Lan_control (mkDeviceRef (item_deviceId it) (item_model it)) (cmd it))
           items.

(** The two backends share one shape; the server holds one of each. *)
Inductive Adapter := cloud | lan.

Definition getState (ad : Adapter) : DeviceRef -> M State :=
  match ad with cloud => Cloud_getState | lan => Lan_getState end.

Definition control (ad : Adapter) : DeviceRef -> ControlCmd -> M unit :=
  match ad with cloud => Cloud_control | lan => Lan_control end.

(** *** The server: module-level helpers *)

Definition isAllowed (id : string) : bool :=
  bool_decide (size (ALLOWLIST cfg) = 0%nat) || bool_decide (id ∈ ALLOWLIST cfg).

Definition pickAdapter (_deviceId : string) : Adapter :=
  if lanEnabled cfg then lan else cloud.

(** A JavaScript [Map] keyed by strings: the entries in insertion order,
    keys pairwise distinct.  [set] on a present key replaces the value
    where the key already stands; on a new key it appends. *)
Fixpoint Map_set {V} (k : string) (v : V) (m : list (string * V)) : list (string * V) :=
  match m with
  | [] => [(k, v)]
  | (k', v') :: m' =>
      if String.eqb k k' then (k, v) :: m' else (k', v') :: Map_set k v m'
  end.

Fixpoint Map_get {V} (k : string) (m : list (string * V)) : option V :=
  match m with
  | [] => None
  | (k', v') :: m' => if String.eqb k k' then Some v' else Map_get k m'
  end.

(** [`${it.deviceId}:${it.model}:${it.cmd.name}`]. *)
Definition key (it : BatchItem) : string :=
  item_deviceId it +:+ ":" +:+ item_model it +:+ ":" +:+ cmd_name (cmd it).

(** [for (const it of allowed) map.set(key(it), it)] and then
    [Array.from(map.values())]. *)
Definition coalesce (allowed : list BatchItem) : list BatchItem :=
  map snd (fold_left (fun m it => Map_set (key it) it m) allowed []).

(** [byDevice]: the deduplicated items grouped under their [deviceId]. *)
Definition group_by_device (deduped : list BatchItem) : list (string * list BatchItem) :=
  fold_left (fun m it =>
               let arr := default [] (Map_get (item_deviceId it) m) in
               Map_set (item_deviceId it) (arr ++ [it]) m)
            deduped [].

(** *** The concurrent part of [batch]

    Every device group is an [async] closure; the closures interleave at
    their [await]s.  A task is the adapter it picked and the commands it
    has still to send; a schedule names, step by step, the task whose next
    [control] call runs.  After the schedule, whatever is left runs to its
    end, so every schedule describes a complete execution. *)
Definition Task : Type := Adapter * list BatchItem.

Definition control_item (ad : Adapter) (it : BatchItem) : M unit :=
  control ad (mkDeviceRef (item_deviceId it) (item_model it)) (cmd it).

(** The next [await ad.control(...)] of a task; a rejection ends the task. *)
Definition step_task (t : Task) (w : World) : World * Task * option Exn :=
  match snd t with
  | [] => (w, t, None)
  | it :: rest =>
      match control_item (fst t) it w with
      | (w', Done _) => (w', (fst t, rest), None)
      | (w', Throw e) => (w', (fst t, []), Some e)
      | (w', Pending) => (w', (fst t, []), None)
      end
  end.

(** [Promise.all] rejects with the rejection that comes first. *)
Definition first_of (a b : option Exn) : option Exn :=
  match a with Some _ => a | None => b end.

Fixpoint interleave (sched : list nat) (tasks : list Task) (rejected : option Exn)
    (w : World) : World * list Task * option Exn :=
  match sched with
  | [] => (w, tasks, rejected)
  | i :: sched' =>
      match tasks !! i with
      | None => interleave sched' tasks rejected w
      | Some t =>
          let '(w', t', e) := step_task t w in
          interleave sched' (<[i := t']> tasks) (first_of rejected e) w'
      end
  end.

Fixpoint drain (tasks : list Task) (rejected : option Exn) (w : World)
    : World * option Exn :=
  match tasks with
  | [] => (w, rejected)
  | t :: tasks' =>
      match for_each (control_item (fst t)) (snd t) w with
      | (w', Throw e) => drain tasks' (first_of rejected (Some e)) w'
      | (w', _) => drain tasks' rejected w'
      end
  end.

(** [await Promise.all(promises)], in the world where all tasks have ended. *)
Definition Promise_all (sched : list nat) (tasks : list Task) : M unit :=
  fun w =>
    let '(w1, tasks1, rejected1) := interleave sched tasks None w in
    let '(w2, rejected2) := drain tasks1 rejected1 w1 in
    (w2, match rejected2 with Some e => Throw e | None => Done tt end).

(** *** The tool handlers (the same bodies in both servers) *)

(** The [text] of a result: a template string, or the [JSON.stringify] of
    a value, kept as the value. *)
Inductive Content :=
| Text (s : string)
| JsonDevices (l : list DeviceInfo)
| JsonState (st : State).

Definition nat_ToString (n : nat) : string := ToString host (inject_Z (Z.of_nat n)).

Definition govee_list_devices (fuel : nat) : M Content :=
  run take fuel;
  do list <- Cloud_listDevices;
  let filtered := List.filter (fun d => isAllowed (info_deviceId d)) list in
  ret (JsonDevices filtered).

Definition govee_get_state (fuel : nat) (deviceId model : string) : M Content :=
  if negb (isAllowed deviceId) then throw (Error "Device not allowed")
  else
    run take fuel;
    let ad := pickAdapter deviceId in
    do state <- getState ad (mkDeviceRef deviceId model);
    ret (JsonState state).

Definition govee_set_power (fuel : nat) (deviceId model : string) (on_ : bool)
    : M Content :=
  if negb (isAllowed deviceId) then throw (Error "Device not allowed")
  else
    run take fuel;
    let ad := pickAdapter deviceId in
    run control ad (mkDeviceRef deviceId model) (turn (if on_ then on else off));
    ret (Text ("Power " +:+ (if on_ then "on" else "off") +:+ " sent.")).

Definition govee_set_brightness (fuel : nat) (deviceId model : string) (percent : Q)
    : M Content :=
  if negb (isAllowed deviceId) then throw (Error "Device not allowed")
  else
    run take fuel;
    let ad := pickAdapter deviceId in
    run control ad (mkDeviceRef deviceId model)
          (brightness (inject_Z (Math_round percent)));
    ret (Text ("Brightness set to "
               +:+ ToString host (inject_Z (Math_round percent)) +:+ "%.")).

Definition govee_set_color (fuel : nat) (deviceId model : string) (r g b : Q)
    : M Content :=
  if negb (isAllowed deviceId) then throw (Error "Device not allowed")
  else
    run take fuel;
    let ad := pickAdapter deviceId in
    run control ad (mkDeviceRef deviceId model) (color (mkRgb r g b));
    ret (Text ("Color set to rgb(" +:+ ToString host r +:+ ","
               +:+ ToString host g +:+ "," +:+ ToString host b +:+ ").")).

Definition govee_set_color_temp (fuel : nat) (deviceId model : string) (kelvin : Q)
    : M Content :=
  if negb (isAllowed deviceId) then throw (Error "Device not allowed")
  else
    run take fuel;
    let ad := pickAdapter deviceId in
    run control ad (mkDeviceRef deviceId model)
          (colorTem (inject_Z (Math_round kelvin)));
    ret (Text ("Color temp set to "
               +:+ ToString host (inject_Z (Math_round kelvin)) +:+ "K.")).

Definition govee_set_scene (fuel : nat) (deviceId model : string) (scene_ : string)
    : M Content :=
  if negb (isAllowed deviceId) then throw (Error "Device not allowed")
  else
    run take fuel;
    let ad := pickAdapter deviceId in
    run control ad (mkDeviceRef deviceId model) (scene scene_);
    ret (Text ("Scene set to " +:+ scene_ +:+ ".")).

Definition govee_batch (fuel : nat) (sched : list nat) (items : list BatchItem)
    : M Content :=
  let allowed := List.filter (fun i => isAllowed (item_deviceId i)) items in
  if (length allowed =? 0)%nat then throw (Error "No allowed items")
  else
    let deduped := coalesce allowed in
    run take fuel;
    let byDevice := group_by_device deduped in
    let tasks := map (fun g => (pickAdapter (fst g), snd g)) byDevice in
    run for_each (fun _ => sleep (BATCH_WINDOW_MS cfg)) tasks;
    run Promise_all sched tasks;
    ret (Text ("Applied " +:+ nat_ToString (length deduped)
               +:+ " command(s) across " +:+ nat_ToString (length byDevice)
               +:+ " device(s).")).

(** *** The two front ends *)

Inductive ToolCall :=
| list_devices
| get_state (deviceId model : string)
| set_power (deviceId model : string) (on_ : bool)
| set_brightness (deviceId model : string) (percent : Q)
| set_color (deviceId model : string) (r g b : Q)
| set_color_temp (deviceId model : string) (kelvin : Q)
| set_scene (deviceId model : string) (scene_ : string)
| batch (items : list BatchItem)
| unknown_tool (name : string).

Definition handler (fuel : nat) (sched : list nat) (call : ToolCall) : M Content :=
  match call with
  | list_devices => govee_list_devices fuel
  | get_state d m => govee_get_state fuel d m
  | set_power d m o => govee_set_power fuel d m o
  | set_brightness d m p => govee_set_brightness fuel d m p
  | set_color d m r g b => govee_set_color fuel d m r g b
  | set_color_temp d m k => govee_set_color_temp fuel d m k
  | set_scene d m s => govee_set_scene fuel d m s
  | batch items => govee_batch fuel sched items
  | unknown_tool name => throw (Error ("Unknown tool: " +:+ name))
  end.

Record ToolResult := mkToolResult { content : Content; isError : bool }.

(** The body of the [tools/call] handler of the low-level server once a
    tool name and its arguments are in hand: the [switch] inside [try],
    and the [catch] that turns a thrown error into a result.  The
    arguments reach the [case] bodies as they came.  How a request gets
    here is [Server_tools_call] below. *)
Definition tools_call (fuel : nat) (sched : list nat) (call : ToolCall) : M ToolResult :=
  fun w =>
    match handler fuel sched call w with
    | (w', Done c) => (w', Done (mkToolResult c false))
    | (w', Throw e) =>
        (w', Done (mkToolResult (Text ("Error: " +:+ message_of e)) true))
    | (w', Pending) => (w', Pending)
    end.





(** [z.number().min(lo).max(hi)]. *)
Definition z_number_min_max (lo hi x : Q) : bool := Qle_bool lo x && Qle_bool x hi.

(** The [cmd] union of the batch schema. *)
Definition cmd_schema (c : ControlCmd) : bool :=
  match c with
  | turn _ => true
  | brightness v => z_number_min_max 0 100 v
  | color v =>
      z_number_min_max 0 255 (r v) && z_number_min_max 0 255 (g v)
      && z_number_min_max 0 255 (b v)
  | colorTem v => z_number_min_max 1000 10000 v
  | scene _ => true
  end.

(** The [inputSchema] of each registered tool. *)
Definition inputSchema (call : ToolCall) : bool :=
  match call with
  | set_brightness _ _ percent => z_number_min_max 0 100 percent
  | set_color _ _ r g b =>
      z_number_min_max 0 255 r && z_number_min_max 0 255 g
      && z_number_min_max 0 255 b
  | set_color_temp _ _ kelvin => z_number_min_max 1000 10000 kelvin
  | batch items => (1 <=? length items)%nat && forallb (fun it => cmd_schema (cmd it)) items
  | _ => true
  end.

(** A tool registered with [registerTool]: the SDK parses the arguments
    with the tool's [inputSchema] and calls the callback only when they
    pass; a name that was not registered is refused. *)
Definition registered_call (fuel : nat) (sched : list nat) (call : ToolCall) : M Content :=
  match call with
  | unknown_tool name => throw (McpError ("Tool " +:+ name +:+ " not found"))
  | _ =>
      if inputSchema call then handler fuel sched call
      else throw (McpError "Invalid arguments")
  end.

(** The process right after module initialisation: the limiter was built
    with the first clock reading. *)
Definition boot (responses : list HttpResponse) : World :=
  mkWorld (new_TokenBucketLimiter (GOVEE_RATE_RPS cfg) (Date_now host 0%nat))
          1%nat responses [].

End Gateway.

(** ** Deduplication in the specification's words

    "Keep only the last occurrence of each key, in the order of first
    appearance among distinct keys", for an arbitrary key function. *)
Section Dedup_spec.
Context {K : Type} `{EqDecision K}.
Variable kf : BatchItem -> K.

(** The items that are the first of their key, in their order. *)
Fixpoint first_of_key (l : list BatchItem) : list BatchItem :=
  match l with
  | [] => []
  | x :: l' => x :: filter (fun y => kf y <> kf x) (first_of_key l')
  end.

(** The last item of [l] that has the key of [x]. *)
Definition last_of_key (x : BatchItem) (l : list BatchItem) : BatchItem :=
  default x (list.last (filter (fun y => kf y = kf x) l)).

Definition dedup_by (l : list BatchItem) : list BatchItem :=
  map (fun x => last_of_key x l) (first_of_key l).
End Dedup_spec.

(** The composite key [(deviceId, model, cmd.kind)]. *)
Definition composite_key (it : BatchItem) : string * string * string :=
  (item_deviceId it, item_model it, cmd_name (cmd it)).

(** Whether the separator of [key] occurs in a string. *)
Fixpoint has_colon (s : string) : bool :=
  match s with
  | EmptyString => false
  | String c s' => Ascii.eqb c ":"%char || has_colon s'
  end.

(** ** Vocabulary of the statements *)

(** The bounds of the token bucket. *)
Definition LimiterInv (l : TokenBucketLimiter) : Prop :=
  (0 <= tokens l)%Q /\ (tokens l <= capacity l)%Q /\ (1 <= capacity l)%Q.

(** Successive readings of the wall clock never go back: the elapsed time
    that [take] computes is not negative. *)
Definition monotone_clock (host : Host) : Prop :=
  forall n, Date_now host n <= Date_now host (S n).

(** The bounds, a refill rate that is not negative, and a [last] that no
    coming clock reading precedes. *)
Definition WInv (host : Host) (w : World) : Prop :=
  LimiterInv (limiter w) /\ (0 <= refillRatePerSec (limiter w))%Q
  /\ forall n, (ticks w <= n)%nat -> last (limiter w) <= Date_now host n.

Definition keeps (host : Host) {A} (m : M A) : Prop :=
  forall w, WInv host w -> WInv host (fst (m w)).

(** The clock will show enough elapsed time for one token: some coming
    reading [n] refills the bucket to at least 1. *)
Definition ready (host : Host) (w : World) : Prop :=
  (1 <= capacity (limiter w))%Q
  /\ exists n, (ticks w <= n)%nat
       /\ (1 <= tokens (limiter w)
                + inject_Z (Date_now host n - last (limiter w)) / 1000
                  * refillRatePerSec (limiter w))%Q.

(** An event that is not the limiter's. *)
Definition quiet (e : Event) : bool := negb (is_take e) && negb (is_token e).

(** [w'] comes after [w] with the limiter untouched. *)
Definition follows (w w' : World) : Prop :=
  limiter w' = limiter w /\ (ticks w <= ticks w')%nat
  /\ exists evs, trace w' = trace w ++ evs /\ forallb quiet evs = true.

(** Code that leaves the limiter alone and always settles. *)
Definition backend_only {A} (m : M A) : Prop :=
  forall w, follows w (fst (m w)) /\ snd (m w) <> Pending.

(** The states of the process: after start-up, after any tool call through
    either front end, and after any number of passes of [take]. *)
Inductive reachable (cfg : Config) (host : Host) : World -> Prop :=
| reach_boot responses : reachable cfg host (boot cfg host responses)
| reach_take fuel w :
    reachable cfg host w -> reachable cfg host (fst (take host fuel w))
| reach_tools_call fuel sched call w :
    reachable cfg host w ->
    reachable cfg host (fst (tools_call cfg host fuel sched call w))
| reach_registered_call fuel sched call w :
    reachable cfg host w ->
    reachable cfg host (fst (registered_call cfg host fuel sched call w)).

(** The device a single-device tool call names. *)
Definition single_device (call : ToolCall) : option string :=
  match call with
  | get_state d _ | set_power d _ _ | set_brightness d _ _ | set_color d _ _ _ _
  | set_color_temp d _ _ | set_scene d _ _ => Some d
  | _ => None
  end.


(** The same configuration with another [GOVEE_LAN_ENABLED]. *)
Definition with_lanEnabled (flag : bool) (cfg : Config) : Config :=
  mkConfig (API_BASE cfg) (API_KEY cfg) (DRY_RUN cfg) (ALLOWLIST cfg)
    (GOVEE_RATE_RPS cfg) (BATCH_WINDOW_MS cfg) flag.

(** The request that [control] posts for a capability. *)
Definition control_request (cfg : Config) (requestId : string) (id model_ : string)
    (c : Capability) : HttpRequest :=
  mkRequest (API_BASE cfg +:+ "/device/control") POST
    [("Content-Type", "application/json"); ("Govee-API-Key", API_KEY cfg)]
    (ControlWrite requestId model_ id c).

(** The request that [listDevices] sends. *)
Definition devices_request (cfg : Config) : HttpRequest :=
  mkRequest (API_BASE cfg +:+ "/user/devices") GET
    [("Govee-API-Key", API_KEY cfg)] NoPayload.

Definition LanError : Exn := Error "LAN control not implemented".

(** The error a single-device tool reports when the LAN backend serves it. *)
Definition lan_failure (call : ToolCall) : Exn :=
  match call with
  | get_state _ _ => Error "LAN getState not implemented"
  | _ => LanError
  end.

(** What [Promise.all] over LAN tasks is bound to report: a rejection was
    seen, or a task still has a command to send. *)
Definition doomed (tasks : list Task) (rejected : option Exn) : Prop :=
  rejected = Some LanError
  \/ (rejected = None /\ Exists (fun t : Task => snd t <> []) tasks).

(** ** Sample configurations and responses *)

Definition demo_host : Host :=
  mkHost (fun n => 1000 * Z.of_nat n) (fun _ => "") (fun _ => NaN).

Definition demo_cfg : Config :=
  mkConfig "https://openapi.api.govee.com/router/api/v1" "key" false ∅ 5 120 false.

Definition only_A : Config :=
  mkConfig "https://openapi.api.govee.com/router/api/v1" "key" false {["A"]} 5 120 false.

Definition dry_cfg : Config :=
  mkConfig "https://openapi.api.govee.com/router/api/v1" "key" true ∅ 5 120 false.

Definition lan_cfg : Config := with_lanEnabled true demo_cfg.

Definition ok_response : HttpResponse := mkResponse 200 "{}" (inl (mkJson None None)).

Definition teapot (txt : string) : HttpResponse :=
  mkResponse 418 txt (inr "Unexpected token").

Definition devices_response : HttpResponse :=
  mkResponse 200 "{...}"
    (inl (mkJson (Some [mkRawDevice "A" "H6104" (Some "Lamp")
                          (Some ["devices.capabilities.on_off"]);
                        mkRawDevice "B" "H6159" None None])
                 None)).
(** ** More vocabulary: the state decoder *)

(** The later of two optional readings. *)
Definition or_later {A} (earlier later : option A) : option A :=
  match later with Some _ => later | None => earlier end.

(** Field by field, what [later] reports overrides [earlier]. *)
Definition merge_State (earlier later : State) : State :=
  mkState (or_later (power earlier) (power later))
          (or_later (st_brightness earlier) (st_brightness later))
          (or_later (st_color earlier) (st_color later))
          (or_later (st_colorTem earlier) (st_colorTem later))
          (or_later (st_scene earlier) (st_scene later)).

(** The four conditions of the loop of [getState]: whether an entry is one
    the decoder reads. *)
Definition recognized (c : CapabilityState) : bool :=
  String.eqb (cs_type c) "devices.capabilities.on_off"
  || (String.eqb (cs_type c) "devices.capabilities.range"
      && String.eqb (cs_instance c) "brightness")
  || (String.eqb (cs_type c) "devices.capabilities.color_setting"
      && String.eqb (cs_instance c) "colorRgb")
  || (String.eqb (cs_type c) "devices.capabilities.color_setting"
      && String.eqb (cs_instance c) "colorTemperatureK").

(** A colour whose components are integers of a byte. *)
Definition byte_Rgb (v : Rgb) : Prop :=
  exists zr zg zb, v = mkRgb (inject_Z zr) (inject_Z zg) (inject_Z zb)
    /\ 0 <= zr <= 255 /\ 0 <= zg <= 255 /\ 0 <= zb <= 255.

(** The request that [getState] posts. *)
Definition state_request (cfg : Config) (id model_ : string) : HttpRequest :=
  mkRequest (API_BASE cfg +:+ "/device/state") POST
    [("Content-Type", "application/json"); ("Govee-API-Key", API_KEY cfg)]
    (StateQuery "mcp-state" model_ id).

(** ** More vocabulary: the write tools *)

(** The command a single-device write tool hands to [control], and the
    model it names. *)
Definition command_of (call : ToolCall) : option ControlCmd :=
  match call with
  | set_power _ _ on_ => Some (turn (if on_ then on else off))
  | set_brightness _ _ percent => Some (brightness (inject_Z (Math_round percent)))
  | set_color _ _ r g b => Some (color (mkRgb r g b))
  | set_color_temp _ _ kelvin => Some (colorTem (inject_Z (Math_round kelvin)))
  | set_scene _ _ scene_ => Some (scene scene_)
  | _ => None
  end.

Definition model_of (call : ToolCall) : string :=
  match call with
  | get_state _ m | set_power _ m _ | set_brightness _ m _ | set_color _ m _ _ _
  | set_color_temp _ m _ | set_scene _ m _ => m
  | _ => ""
  end.

(** ** More vocabulary: the limiter *)

(** What the bucket would hold at the clock reading [n] if it were only
    refilled from now on (before the cap). *)
Definition refill_at (host : Host) (w : World) (n : nat) : Q :=
  (tokens (limiter w)
   + inject_Z (Date_now host n - last (limiter w)) / 1000
     * refillRatePerSec (limiter w))%Q.

(** [k] calls of [take] in a row. *)
Fixpoint take_times (host : Host) (fuel : nat) (k : nat) (w : World) : World :=
  match k with
  | O => w
  | S k' => fst (take host fuel (take_times host fuel k' w))
  end.

(** A host whose clock stands still. *)
Definition frozen_host : Host := mkHost (fun _ => 0) (fun _ => "") (fun _ => NaN).

(** ** More vocabulary: what a computation may send and throw *)

(** Every event that [m] adds to the trace satisfies [R], and every error
    it throws satisfies [E]. *)
Definition confined (R : Event -> Prop) (E : Exn -> Prop) {A} (m : M A) : Prop :=
  forall w,
    (exists evs, trace (fst (m w)) = trace w ++ evs /\ Forall R evs)
    /\ (forall e, snd (m w) = Throw e -> E e).

(** The three request shapes of the cloud adapter, for devices that pass
    the allowlist; a control request only when dry-run is off. *)
Definition lawful_request (cfg : Config) (req : HttpRequest) : Prop :=
  req = devices_request cfg
  \/ (exists id model_, isAllowed cfg id = true /\ req = state_request cfg id model_)
  \/ (exists rid id model_ c,
        isAllowed cfg id = true /\ DRY_RUN cfg = false
        /\ req = control_request cfg rid id model_ (capability_of c)).

Definition lawful_event (cfg : Config) (e : Event) : Prop :=
  match e with EvFetch req => lawful_request cfg req | _ => True end.

(** The errors that the adapters and the tool bodies throw on the paths
    embedded here (a response body of the shape of [Json], a command of
    one of the five kinds). *)
Definition known_error (cfg : Config) (host : Host) (e : Exn) : Prop :=
  e = Error "Device not allowed"
  \/ e = Error "No allowed items"
  \/ (exists name, e = Error ("Unknown tool: " +:+ name))
  \/ (exists res, ok res = false /\ e = api_error host res)
  \/ (exists m, e = SyntaxError m)
  \/ e = TypeError "fetch failed"
  \/ (lanEnabled cfg = true
      /\ (e = LanError \/ e = Error "LAN getState not implemented")).

Definition lawful (cfg : Config) (host : Host) {A} (m : M A) : Prop :=
  confined (lawful_event cfg) (known_error cfg host) m.

(** The device a request names in its payload, and whether the request is
    a control write. *)
Definition named_device (req : HttpRequest) : option string :=
  match body req with
  | NoPayload => None
  | StateQuery _ _ d => Some d
  | ControlWrite _ _ d _ => Some d
  end.

Definition is_write (req : HttpRequest) : bool :=
  match body req with ControlWrite _ _ _ _ => true | _ => false end.

(** A task of [batch] as the handler builds it: the adapter is the one
    [pickAdapter] gives, the items passed the allowlist. *)
Definition task_ok (cfg : Config) (t : Task) : Prop :=
  fst t = pickAdapter cfg ""
  /\ Forall (fun it => isAllowed cfg (item_deviceId it) = true) (snd t).

(** The same configuration with another [GOVEE_DRY_RUN]. *)
Definition with_DRY_RUN (flag : bool) (cfg : Config) : Config :=
  mkConfig (API_BASE cfg) (API_KEY cfg) flag (ALLOWLIST cfg)
    (GOVEE_RATE_RPS cfg) (BATCH_WINDOW_MS cfg) (lanEnabled cfg).

(** ** More vocabulary: the batch on the wire *)

(** What a control request writes (device, model and capability), and the
    write a batch item asks for. *)
Definition written (req : HttpRequest) : option (string * string * Capability) :=
  match body req with
  | ControlWrite _ sku_ d cap => Some (d, sku_, cap)
  | _ => None
  end.

Definition write_of (it : BatchItem) : option (string * string * Capability) :=
  Some (item_deviceId it, item_model it, capability_of (cmd it)).

(** A response that [post] returns from. *)
Definition accepted (res : HttpResponse) : Prop :=
  ok res = true /\ exists j, json res = inl j.

(** The commands the tasks have still to send. *)
Definition pending (tasks : list Task) : list BatchItem := concat (map snd tasks).

(** ** The server: the allowlist read from the environment

    [(process.env.GOVEE_ALLOWLIST || "").split(/[,\s]+/).map((s) => s.trim())
    .filter(Boolean)], and the [Set] built from it.  The class [\s] of the
    regular expression, which is also the set of characters that [trim]
    strips, is a parameter. *)
Section Allowlist_env.
Variable is_space : ascii -> bool.

(** The class [[,\s]]. *)
Definition is_sep (c : ascii) : bool := Ascii.eqb c "," || is_space c.

(** [s.split(/[,\s]+/)]: the pieces between the maximal runs of
    separators; a run at the start or at the end of the string leaves an
    empty piece there, and the empty string gives one empty piece. *)
Fixpoint split_sep (s : string) : list string :=
  match s with
  | EmptyString => [""]
  | String c s' =>
      let pieces := split_sep s' in
      if is_sep c then
        match s' with
        | String c' _ => if is_sep c' then pieces else "" :: pieces
        | EmptyString => "" :: pieces
        end
      else
        match pieces with
        | t :: ts => String c t :: ts
        | [] => [String c ""]
        end
  end.

Fixpoint trim_start (s : string) : string :=
  match s with
  | EmptyString => ""
  | String c s' => if is_space c then trim_start s' else s
  end.

Fixpoint trim_end (s : string) : string :=
  match s with
  | EmptyString => ""
  | String c s' =>
      match trim_end s' with
      | EmptyString => if is_space c then "" else String c ""
      | t => String c t
      end
  end.

(** [s.trim()]. *)
Definition trim (s : string) : string := trim_end (trim_start s).

(** [Boolean(s)] for a string: only the empty string is falsy. *)
Definition Boolean (s : string) : bool := negb (String.eqb s "").

Definition allowlistEnv (env : option string) : list string :=
  List.filter Boolean (map trim (split_sep (default "" env))).

(** [new Set<string>(allowlistEnv)]. *)
Definition ALLOWLIST_of_env (env : option string) : gset string :=
  list_to_set (allowlistEnv env).

End Allowlist_env.

(** Every character of [s] satisfies [p]. *)
Fixpoint all_chars (p : ascii -> bool) (s : string) : bool :=
  match s with
  | EmptyString => true
  | String c s' => p c && all_chars p s'
  end.

(** No comma and no white space in [s]. *)
Definition sep_free (is_space : ascii -> bool) (s : string) : bool :=
  all_chars (fun c => negb (is_sep is_space c)) s.

(** White space among the ASCII characters: tab, line feed, vertical tab,
    form feed, carriage return and space. *)
Definition ascii_space (c : ascii) : bool :=
  let n := nat_of_ascii c in ((9 <=? n) && (n <=? 13))%nat || (n =? 32)%nat.

(** * Properties *)

(** ** Numbers *)

Lemma Qtrunc_inject_Z (z : Z) : Qtrunc (inject_Z z) = z.
Proof.
  unfold Qtrunc. destruct (Qle_bool 0 (inject_Z z)).
  - apply Qfloor_Z.
  - apply Qceiling_Z.
Qed.

Lemma wrap32_small (z : Z) : - 2 ^ 31 <= z < 2 ^ 31 -> wrap32 z = z.
Proof. intros Hz. unfold wrap32. rewrite Z.mod_small; lia. Qed.

Lemma ToInt32_int (z : Z) : - 2 ^ 31 <= z < 2 ^ 31 -> ToInt32 (Fin (inject_Z z)) = z.
Proof. intros Hz. simpl. rewrite Qtrunc_inject_Z. now apply wrap32_small. Qed.

Lemma is_integer_inject_Z (z : Z) : is_integer (inject_Z z) = true.
Proof. unfold is_integer. rewrite Qfloor_Z. apply Qeq_bool_refl. Qed.

Lemma ToString_int (host : Host) (z : Z) : ToString host (inject_Z z) = pretty z.
Proof. unfold ToString. now rewrite is_integer_inject_Z, Qfloor_Z. Qed.

(** Bits that do not overlap: [|] is [+]. *)
Lemma lor_shifted (a c n : Z) :
  0 <= n -> 0 <= c < 2 ^ n -> Z.lor (a * 2 ^ n) c = a * 2 ^ n + c.
Proof.
  intros Hn Hc.
  assert (Hdisj : Z.land (a * 2 ^ n) c = 0).
  { apply Z.bits_inj'. intros m Hm. rewrite Z.land_spec, Z.bits_0.
    destruct (Z.lt_ge_cases m n) as [Hlt | Hge].
    - now rewrite Z.mul_pow2_bits_low.
    - destruct (Z.eq_dec c 0) as [-> | Hc0].
      + rewrite Z.bits_0. apply andb_false_r.
      + assert (Hlog : Z.log2 c < n) by (apply Z.log2_lt_pow2; lia).
        rewrite (Z.bits_above_log2 c m), andb_false_r; lia. }
  now rewrite <- Z.lxor_lor, <- Z.add_nocarry_lxor.
Qed.

(** ** The translator: [control]'s encoding against [getState]'s decoding *)

Section Translator.

Variable host : Host.

(** The packed value of a colour whose components are integers of a byte. *)
Lemma encode_color (zr zg zb : Z) :
  0 <= zr <= 255 -> 0 <= zg <= 255 -> 0 <= zb <= 255 ->
  capability_of (color (mkRgb (inject_Z zr) (inject_Z zg) (inject_Z zb)))
  = mkCapability "devices.capabilities.color_setting" "colorRgb"
      (JNumber (inject_Z (zr * 65536 + zg * 256 + zb))).
Proof.
  intros Hr Hg Hb. unfold capability_of, js_shl, js_or. cbn [r g b].
  rewrite !ToInt32_int by lia.
  rewrite !Z.shiftl_mul_pow2 by lia.
  rewrite !wrap32_small by lia.
  rewrite (lor_shifted zr (zg * 2 ^ 8) 16) by lia.
  replace (zr * 2 ^ 16 + zg * 2 ^ 8) with ((zr * 2 ^ 8 + zg) * 2 ^ 8) by lia.
  rewrite lor_shifted by lia.
  do 3 f_equal. lia.
Qed.

Lemma decode_packed (v : Z) :
  0 <= v < 2 ^ 24 ->
  decode_state host
    [mkCapabilityState "devices.capabilities.color_setting" "colorRgb"
       (JNumber (inject_Z v))]
  = mkState None None
      (Some (mkRgb (inject_Z (v / 65536 mod 256)) (inject_Z (v / 256 mod 256))
                   (inject_Z (v mod 256))))
      None None.
Proof.
  intros Hv. unfold decode_state, decode_capability, js_shr, js_and.
  cbn [fold_left cs_type cs_instance state_value Number].
  rewrite !ToInt32_int by lia.
  change 255 with (Z.ones 8).
  rewrite !Z.land_ones, !Z.shiftr_div_pow2 by lia.
  reflexivity.
Qed.

Lemma roundtrip_turn (v : Power) :
  decode_state host [reported (capability_of (turn v))] = State_of_cmd (turn v).
Proof. now destruct v. Qed.

Lemma roundtrip_brightness (v : Q) :
  decode_state host [reported (capability_of (brightness v))]
  = State_of_cmd (brightness v).
Proof. reflexivity. Qed.

Lemma roundtrip_colorTem (v : Q) :
  decode_state host [reported (capability_of (colorTem v))]
  = State_of_cmd (colorTem v).
Proof. reflexivity. Qed.

Lemma roundtrip_color (zr zg zb : Z) :
  0 <= zr <= 255 -> 0 <= zg <= 255 -> 0 <= zb <= 255 ->
  let c := color (mkRgb (inject_Z zr) (inject_Z zg) (inject_Z zb)) in
  decode_state host [reported (capability_of c)] = State_of_cmd c.
Proof.
  intros Hr Hg Hb c. subst c. rewrite encode_color by assumption.
  unfold reported. cbn [type instance value].
  rewrite decode_packed by lia. unfold State_of_cmd.
  do 3 f_equal; f_equal; f_equal.
  all: pose proof (Z.div_mod (zr * 65536 + zg * 256 + zb) 65536 ltac:(lia)).
  all: Z.div_mod_to_equations; lia.
Qed.

Example color_10_20_30 :
  value (capability_of (color (mkRgb 10 20 30))) = JNumber 660510
  /\ st_color (decode_state host
                 [mkCapabilityState "devices.capabilities.color_setting"
                    "colorRgb" (JNumber 660510)])
     = Some (mkRgb 10 20 30).
Proof. split; reflexivity. Qed.

(** C2 (the claim fails for [scene]): [control] encodes a scene as the
    [dynamic_scene]/[lightScene] capability, but the loop of [getState] has
    no branch for it, so decoding the encoded scene leaves every field of
    the state absent, [scene] included. *)
Theorem scene_roundtrip_lost (s : string) :
  capability_of (scene s)
  = mkCapability "devices.capabilities.dynamic_scene" "lightScene" (JString s)
  /\ decode_state host [reported (capability_of (scene s))] = empty_State
  /\ st_scene (decode_state host [reported (capability_of (scene s))])
     <> st_scene (State_of_cmd (scene s)).
Proof. repeat split. discriminate. Qed.

End Translator.

(** ** Coalescing: the [Map] of [batch] against the specification's wording *)

Section Dedup_facts.
Context {K : Type} `{EqDecision K}.
Variable kf : BatchItem -> K.

Lemma first_of_key_elem x l : x ∈ first_of_key kf l -> x ∈ l.
Proof.
  revert x. induction l as [|a l IH]; intros x; simpl; [easy|].
  rewrite !elem_of_cons, list_elem_of_filter. intros [->|[_ Hx]]; auto.
Qed.

Lemma first_of_key_keys k l :
  k ∈ map kf (first_of_key kf l) <-> k ∈ map kf l.
Proof.
  induction l as [|a l IH]; simpl; [easy|].
  rewrite !elem_of_cons, <- IH.
  change (map kf ?l) with (kf <$> l).
  rewrite !list_elem_of_fmap. split.
  - intros [->|(y & -> & Hy)]; auto.
    apply list_elem_of_filter in Hy as [_ Hy]. right. eauto.
  - intros [->|(y & -> & Hy)]; auto.
    destruct (decide (kf y = kf a)) as [->|Hne]; auto.
    right. exists y. split; auto. apply list_elem_of_filter. auto.
Qed.

Lemma first_of_key_NoDup l : NoDup (map kf (first_of_key kf l)).
Proof.
  induction l as [|a l IH]; simpl; [constructor|].
  apply NoDup_cons. split.
  - change (map kf ?l) with (kf <$> l). rewrite list_elem_of_fmap.
    intros (y & Hy & Hin). apply list_elem_of_filter in Hin as [Hne _]. congruence.
  - change (map kf ?l) with (kf <$> l) in *.
    eapply sublist_NoDup; [exact IH|].
    apply fmap_sublist, sublist_filter.
Qed.

Lemma first_of_key_snoc l x :
  first_of_key kf (l ++ [x])
  = first_of_key kf l ++ (if decide (kf x ∈ map kf l) then [] else [x]).
Proof.
  induction l as [|a l IH]; cbn [first_of_key app map].
  - rewrite decide_False; [done | apply not_elem_of_nil].
  - rewrite IH, filter_app. rewrite app_comm_cons. f_equal.
    destruct (decide (kf x ∈ map kf l)) as [Hin|Hout].
    + rewrite decide_True by (apply elem_of_cons; auto). done.
    + destruct (decide (kf x = kf a)) as [Heq|Hne].
      * rewrite decide_True by (apply elem_of_cons; auto).
        rewrite filter_cons_False; [done | tauto].
      * rewrite decide_False by (rewrite elem_of_cons; tauto).
        rewrite filter_cons_True; done.
Qed.

Lemma last_of_key_snoc z l x :
  last_of_key kf z (l ++ [x])
  = if decide (kf x = kf z) then x else last_of_key kf z l.
Proof.
  unfold last_of_key. rewrite filter_app. destruct (decide (kf x = kf z)).
  - rewrite filter_cons_True, filter_nil by done. now rewrite last_snoc.
  - rewrite filter_cons_False, filter_nil by done. now rewrite app_nil_r.
Qed.

End Dedup_facts.

Lemma Map_set_present {V} (k : string) (v : V) (m : list (string * V)) :
  NoDup (map fst m) -> k ∈ map fst m ->
  Map_set k v m = map (fun e => if decide (fst e = k) then (k, v) else e) m.
Proof.
  induction m as [|[k' v'] m IH]; simpl; intros Hnd Hin.
  - now apply elem_of_nil in Hin.
  - apply NoDup_cons in Hnd as [Hk' Hnd].
    destruct (String.eqb_spec k k') as [->|Hne].
    + rewrite decide_True by done. f_equal.
      clear IH Hin. induction m as [|[k2 v2] m IHm]; simpl; [done|].
      simpl in Hk'. rewrite not_elem_of_cons in Hk'. destruct Hk' as [? ?].
      apply NoDup_cons in Hnd as [? ?].
      rewrite decide_False by (simpl; congruence). f_equal. now apply IHm.
    + rewrite decide_False by (simpl; congruence). f_equal.
      apply IH; [done|]. apply elem_of_cons in Hin as [?|?]; [congruence|done].
Qed.

Lemma Map_set_absent {V} (k : string) (v : V) (m : list (string * V)) :
  k ∉ map fst m -> Map_set k v m = m ++ [(k, v)].
Proof.
  induction m as [|[k' v'] m IH]; simpl; intros Hout; [done|].
  rewrite not_elem_of_cons in Hout. destruct Hout as [Hne Hout].
  destruct (String.eqb_spec k k'); [congruence|]. now rewrite IH.
Qed.

Lemma coalesce_fold (p : list BatchItem) :
  fold_left (fun m it => Map_set (key it) it m) p []
  = map (fun z => (key z, last_of_key key z p)) (first_of_key key p).
Proof.
  induction p as [|x p IH] using rev_ind; [done|].
  rewrite fold_left_app. simpl. rewrite IH. clear IH.
  rewrite first_of_key_snoc.
  assert (Hkeys : map fst (map (fun z => (key z, last_of_key key z p)) (first_of_key key p))
                  = map key (first_of_key key p)).
  { rewrite map_map. done. }
  destruct (decide (key x ∈ map key p)) as [Hin|Hout].
  - rewrite Map_set_present.
    + rewrite app_nil_r, map_map. apply map_ext. intros z. simpl.
      rewrite last_of_key_snoc.
      destruct (decide (key z = key x)) as [Heq|Hne].
      * rewrite decide_True by done. now rewrite Heq.
      * rewrite decide_False by done. done.
    + rewrite Hkeys. apply first_of_key_NoDup.
    + rewrite Hkeys. now apply first_of_key_keys.
  - rewrite Map_set_absent.
    + rewrite map_app. simpl. f_equal.
      * apply map_ext_in. intros z Hz. rewrite last_of_key_snoc.
        rewrite decide_False; [done|]. intros Heq. apply Hout. rewrite Heq.
        apply list_elem_of_In in Hz. apply first_of_key_elem in Hz.
        change (map key p) with (key <$> p). apply list_elem_of_fmap. eauto.
      * rewrite last_of_key_snoc, decide_True; done.
    + rewrite Hkeys. now rewrite first_of_key_keys.
Qed.

(** The [Map] loop keeps, for each key string, the last item that has it,
    in the order in which the key strings first appear. *)
Theorem coalesce_dedup_by_key (l : list BatchItem) : coalesce l = dedup_by key l.
Proof. unfold coalesce, dedup_by. rewrite coalesce_fold, map_map. done. Qed.

Lemma filter_ext_in {A} (P Q : A -> Prop) `{!forall x, Decision (P x)} `{!forall x, Decision (Q x)}
    (l : list A) :
  (forall x, x ∈ l -> P x <-> Q x) -> filter P l = filter Q l.
Proof.
  induction l as [|a l IH]; intros Hext; [done|].
  rewrite !filter_cons.
  rewrite IH by (intros x Hx; apply Hext; now right).
  destruct (decide (P a)) as [Hp|Hp], (decide (Q a)) as [Hq|Hq]; try done.
  - apply Hext in Hp; [done | now left].
  - apply Hext in Hq; [done | now left].
Qed.

Section Dedup_ext.
Context {K1 K2 : Type} `{EqDecision K1} `{EqDecision K2}.
Variables (kf1 : BatchItem -> K1) (kf2 : BatchItem -> K2).

Lemma first_of_key_ext l :
  (forall x y, x ∈ l -> y ∈ l -> kf1 x = kf1 y <-> kf2 x = kf2 y) ->
  first_of_key kf1 l = first_of_key kf2 l.
Proof.
  induction l as [|a l IH]; intros Hext; [done|]. simpl.
  rewrite IH by (intros x y Hx Hy; apply Hext; now right).
  f_equal. apply filter_ext_in. intros y Hy.
  apply first_of_key_elem in Hy.
  rewrite (Hext y a); [done | now right | now left].
Qed.

Lemma dedup_by_ext l :
  (forall x y, x ∈ l -> y ∈ l -> kf1 x = kf1 y <-> kf2 x = kf2 y) ->
  dedup_by kf1 l = dedup_by kf2 l.
Proof.
  intros Hext. unfold dedup_by. rewrite first_of_key_ext by done.
  apply map_ext_in. intros z Hz. apply list_elem_of_In, first_of_key_elem in Hz.
  unfold last_of_key. do 2 f_equal. apply filter_ext_in. intros y Hy. now apply Hext.
Qed.
End Dedup_ext.

Lemma append_nil (t : string) : "" +:+ t = t.
Proof. reflexivity. Qed.

Lemma append_cons (c : ascii) (s t : string) : String c s +:+ t = String c (s +:+ t).
Proof. reflexivity. Qed.

Lemma has_colon_app (s t : string) :
  has_colon (s +:+ t) = has_colon s || has_colon t.
Proof.
  induction s as [|c s IH]; [done|].
  rewrite append_cons. simpl. now rewrite IH, orb_assoc.
Qed.

Lemma append_colon_inj (s s' t t' : string) :
  has_colon t = false -> has_colon t' = false ->
  s +:+ ":" +:+ t = s' +:+ ":" +:+ t' -> s = s' /\ t = t'.
Proof.
  intros Ht Ht'. revert s'. induction s as [|c s IH]; intros [|c' s'] Heq;
    rewrite ?append_cons, ?append_nil in Heq.
  - now injection Heq.
  - injection Heq as <- ->. rewrite has_colon_app in Ht. simpl in Ht.
    now rewrite orb_true_r in Ht.
  - injection Heq as -> <-. rewrite has_colon_app in Ht'. simpl in Ht'.
    now rewrite orb_true_r in Ht'.
  - injection Heq as -> Heq. apply IH in Heq as [-> ->]. done.
Qed.

Lemma cmd_name_no_colon (c : ControlCmd) : has_colon (cmd_name c) = false.
Proof. now destruct c. Qed.

Lemma String_app_assoc (a b c : string) : (a +:+ b) +:+ c = a +:+ (b +:+ c).
Proof. induction a as [|x a IH]; [done|]. now rewrite !append_cons, IH. Qed.

Lemma key_injective (x y : BatchItem) :
  has_colon (item_model x) = false -> has_colon (item_model y) = false ->
  key x = key y <-> composite_key x = composite_key y.
Proof.
  intros Hx Hy. unfold key, composite_key. split.
  - intros Heq.
    rewrite <- !(String_app_assoc _ ":" (item_model _ +:+ _)) in Heq.
    rewrite <- !(String_app_assoc _ (item_model _) (":" +:+ _)) in Heq.
    apply append_colon_inj in Heq as [Heq ->]; try apply cmd_name_no_colon.
    rewrite !String_app_assoc in Heq.
    apply append_colon_inj in Heq as [-> ->]; done.
  - now intros [= -> -> ->].
Qed.

(** When no model contains the separator, the key string determines the
    composite key, and the loop is last-write-wins per composite key. *)
Theorem coalesce_by_composite_key (l : list BatchItem) :
  (forall it, it ∈ l -> has_colon (item_model it) = false) ->
  coalesce l = dedup_by composite_key l.
Proof.
  intros Hl. rewrite coalesce_dedup_by_key. apply dedup_by_ext.
  intros x y Hx Hy. apply key_injective; auto.
Qed.

(** The documented example: two brightness writes and a colour for one
    device coalesce to the later brightness, then the colour. *)
Example coalesce_documented_batch :
  let A := fun c => mkBatchItem "A" "H6104" c in
  coalesce [A (brightness 10); A (brightness 90); A (color (mkRgb 255 0 0))]
  = [A (brightness 90); A (color (mkRgb 255 0 0))].
Proof. reflexivity. Qed.

(** C1 (the claim fails where two composite keys print to one string):
    [key] joins the three components with [":"], so the items
    ("AA:BB", "CC", brightness) and ("AA", "BB:CC", brightness) get the
    same [Map] key although their composite keys differ; the code keeps
    only the second, where keeping the last occurrence of each composite
    key keeps both. *)
Theorem coalesce_key_collision :
  let i1 := mkBatchItem "AA:BB" "CC" (brightness 10) in
  let i2 := mkBatchItem "AA" "BB:CC" (brightness 90) in
  composite_key i1 <> composite_key i2
  /\ key i1 = key i2
  /\ coalesce [i1; i2] = [i2]
  /\ dedup_by composite_key [i1; i2] = [i1; i2].
Proof. repeat split. discriminate. Qed.

(** ** The token bucket *)

Lemma new_TokenBucketLimiter_inv (rps : Q) (t : Z) :
  LimiterInv (new_TokenBucketLimiter rps t).
Proof.
  unfold LimiterInv, new_TokenBucketLimiter. simpl.
  pose proof (Q.le_max_l 1 rps). repeat split; try lra.
Qed.

Lemma take_iter_inv (t : Z) (l : TokenBucketLimiter) :
  LimiterInv l -> (0 <= refillRatePerSec l)%Q -> last l <= t ->
  LimiterInv (fst (take_iter t l)).
Proof.
  intros (H0 & Hcap & H1) Hrate Ht. unfold take_iter.
  set (elapsed := (inject_Z (t - last l) / 1000)%Q).
  assert (He : (0 <= elapsed)%Q).
  { unfold elapsed. apply Qle_shift_div_l; [lra|].
    rewrite Qmult_0_l. change 0%Q with (inject_Z 0). rewrite <- Zle_Qle. lia. }
  assert (Hadd : (0 <= elapsed * refillRatePerSec l)%Q) by (apply Qmult_le_0_compat; assumption).
  set (refilled := Qmin _ _).
  assert (Hlo : (0 <= refilled)%Q).
  { unfold refilled. apply Q.min_glb; lra. }
  assert (Hhi : (refilled <= capacity l)%Q) by apply Q.le_min_l.
  destruct (Qle_bool 1 refilled) eqn:Hge; unfold LimiterInv; simpl.
  - apply Qle_bool_iff in Hge. repeat split; lra.
  - repeat split; lra.
Qed.

Lemma take_iter_rate t l : refillRatePerSec (fst (take_iter t l)) = refillRatePerSec l.
Proof. unfold take_iter. now destruct (Qle_bool _ _). Qed.

Lemma take_iter_last t l : last (fst (take_iter t l)) = t.
Proof. unfold take_iter. now destruct (Qle_bool _ _). Qed.

Lemma take_iter_capacity t l : capacity (fst (take_iter t l)) = capacity l.
Proof. unfold take_iter. now destruct (Qle_bool _ _). Qed.

Lemma inject_Z_sub (a c : Z) : (inject_Z (a - c) == inject_Z a - inject_Z c)%Q.
Proof. unfold Z.sub. now rewrite inject_Z_plus, inject_Z_opp. Qed.

Lemma take_iter_granted (t : Z) (l : TokenBucketLimiter) :
  (1 <= capacity l)%Q ->
  (1 <= tokens l + inject_Z (t - last l) / 1000 * refillRatePerSec l)%Q ->
  snd (take_iter t l) = true.
Proof.
  intros Hcap Hsum. unfold take_iter.
  destruct (Qle_bool 1 _) eqn:Hb; [reflexivity|].
  assert (Hmin : (1 <= Qmin (capacity l)
                        (tokens l + inject_Z (t - last l) / 1000 * refillRatePerSec l))%Q)
    by (apply Q.min_glb; assumption).
  apply Qle_bool_iff in Hmin. congruence.
Qed.

Lemma take_iter_refused (t : Z) (l : TokenBucketLimiter) :
  (1 <= capacity l)%Q -> snd (take_iter t l) = false ->
  (tokens (fst (take_iter t l))
   == tokens l + inject_Z (t - last l) / 1000 * refillRatePerSec l)%Q.
Proof.
  intros Hcap. unfold take_iter.
  destruct (Qle_bool 1 _) eqn:Hb; [discriminate|]. intros _. simpl.
  apply Q.min_r.
  destruct (Qlt_le_dec (capacity l)
              (tokens l + inject_Z (t - last l) / 1000 * refillRatePerSec l)) as [Hlt|Hle];
    [|exact Hle].
  exfalso. rewrite Q.min_l in Hb by lra.
  apply Qle_bool_iff in Hcap. congruence.
Qed.

(** ** Traces *)

Lemma takes_app (a c : list Event) : takes (a ++ c) = (takes a + takes c)%nat.
Proof. unfold takes. now rewrite List.filter_app, length_app. Qed.

Lemma tokens_consumed_app (a c : list Event) :
  tokens_consumed (a ++ c) = (tokens_consumed a + tokens_consumed c)%nat.
Proof. unfold tokens_consumed. now rewrite List.filter_app, length_app. Qed.

Lemma fetches_app (a c : list Event) : fetches (a ++ c) = fetches a ++ fetches c.
Proof. unfold fetches. apply omap_app. Qed.

Lemma fetches_timeouts (ms : Q) (n : nat) : fetches (repeat (EvTimeout ms) n) = [].
Proof. induction n as [|n IH]; [reflexivity | exact IH]. Qed.

Lemma quiet_counts (evs : list Event) :
  forallb quiet evs = true -> takes evs = 0%nat /\ tokens_consumed evs = 0%nat.
Proof.
  induction evs as [|e evs IH]; simpl; [done|].
  intros [He Hrest]%andb_prop.
  apply andb_prop in He as [Ht Hk].
  destruct (IH Hrest) as [IH1 IH2].
  unfold takes, tokens_consumed in *. simpl.
  destruct (is_take e), (is_token e); simpl in *; try discriminate. auto.
Qed.

Lemma follows_refl w : follows w w.
Proof. repeat split; [lia|]. exists []. now rewrite app_nil_r. Qed.

Lemma follows_trans w1 w2 w3 : follows w1 w2 -> follows w2 w3 -> follows w1 w3.
Proof.
  intros (Hl1 & Ht1 & evs1 & He1 & Hq1) (Hl2 & Ht2 & evs2 & He2 & Hq2).
  repeat split; [congruence | lia |].
  exists (evs1 ++ evs2). rewrite He2, He1, <- app_assoc. split; [done|].
  now rewrite forallb_app, Hq1, Hq2.
Qed.

Lemma follows_counts w w' :
  follows w w' ->
  takes (trace w') = takes (trace w)
  /\ tokens_consumed (trace w') = tokens_consumed (trace w).
Proof.
  intros (_ & _ & evs & -> & Hq). rewrite takes_app, tokens_consumed_app.
  destruct (quiet_counts _ Hq) as [-> ->]. lia.
Qed.

(** ** Sequencing *)

Lemma bind_Done {A B} (m : M A) (k : A -> M B) w w1 a :
  m w = (w1, Done a) -> bind m k w = k a w1.
Proof. intros H. unfold bind. now rewrite H. Qed.

Lemma for_each_sleep {A} (ms : Q) (l : list A) (w : World) :
  for_each (fun _ => sleep ms) l w
  = (mkWorld (limiter w) (ticks w) (inbox w)
       (trace w ++ repeat (EvTimeout ms) (length l)), Done tt).
Proof.
  revert w. induction l as [|a l IH]; intros w; simpl.
  - unfold ret. rewrite app_nil_r. now destruct w.
  - unfold bind, sleep, emit. rewrite IH. cbn [limiter ticks inbox trace].
    now rewrite <- app_assoc.
Qed.

(** ** Code that leaves the limiter alone *)

Section Backend.
Variable cfg : Config.
Variable host : Host.

Lemma backend_ret {A} (a : A) : backend_only (ret a).
Proof. intros w. split; [apply follows_refl | discriminate]. Qed.

Lemma backend_throw {A} (e : Exn) : backend_only (@throw A e).
Proof. intros w. split; [apply follows_refl | discriminate]. Qed.

Lemma backend_bind {A B} (m : M A) (k : A -> M B) :
  backend_only m -> (forall a, backend_only (k a)) -> backend_only (bind m k).
Proof.
  intros Hm Hk w. unfold bind. specialize (Hm w).
  destruct (m w) as [w1 [a|e|]]; simpl in Hm.
  - destruct (Hk a w1) as [Hf Hp]. split; [|done].
    eapply follows_trans; [apply Hm | apply Hf].
  - split; [apply Hm | discriminate].
  - now destruct Hm.
Qed.

Lemma backend_emit (e : Event) : quiet e = true -> backend_only (emit e).
Proof.
  intros He w. split; [|discriminate]. repeat split; [simpl; lia|].
  exists [e]. simpl. now rewrite He.
Qed.

Lemma backend_now : backend_only (now host).
Proof.
  intros w. split; [|discriminate]. repeat split; [simpl; lia|].
  exists []. simpl. now rewrite app_nil_r.
Qed.

Lemma backend_fetch req : backend_only (fetch req).
Proof.
  unfold fetch. apply backend_bind; [now apply backend_emit|]. intros _ w.
  destruct (inbox w); simpl; (split; [|discriminate]).
  - apply follows_refl.
  - repeat split; [simpl; lia|]. exists []. simpl. now rewrite app_nil_r.
Qed.

Lemma backend_res_json res : backend_only (res_json res).
Proof. unfold res_json. destruct (json res); [apply backend_ret | apply backend_throw]. Qed.

Lemma backend_post path payload : backend_only (post cfg host path payload).
Proof.
  unfold post. apply backend_bind; [apply backend_fetch|]. intros res.
  destruct (negb (ok res)); [apply backend_throw | apply backend_res_json].
Qed.

Lemma backend_get path : backend_only (get cfg host path).
Proof.
  unfold get. apply backend_bind; [apply backend_fetch|]. intros res.
  destruct (negb (ok res)); [apply backend_throw | apply backend_res_json].
Qed.

Lemma backend_for_each {A} (f : A -> M unit) (l : list A) :
  (forall a, backend_only (f a)) -> backend_only (for_each f l).
Proof.
  intros Hf. induction l as [|a l IH]; simpl; [apply backend_ret|].
  apply backend_bind; [apply Hf | intros _; apply IH].
Qed.

Lemma backend_Cloud_control ref c : backend_only (Cloud_control cfg host ref c).
Proof.
  unfold Cloud_control. destruct (DRY_RUN cfg); [now apply backend_emit|].
  apply backend_bind; [apply backend_now|]. intros t.
  apply backend_bind; [apply backend_post|]. intros _. apply backend_ret.
Qed.

Lemma backend_Lan_control ref c : backend_only (Lan_control cfg ref c).
Proof. unfold Lan_control. destruct (negb (lanEnabled cfg)); apply backend_throw. Qed.

Lemma backend_control ad ref c : backend_only (control cfg host ad ref c).
Proof. destruct ad; [apply backend_Cloud_control | apply backend_Lan_control]. Qed.

Lemma backend_getState ad ref : backend_only (getState cfg host ad ref).
Proof.
  destruct ad; simpl.
  - unfold Cloud_getState. apply backend_bind; [apply backend_post|].
    intros out. apply backend_ret.
  - apply backend_throw.
Qed.

Lemma backend_Cloud_listDevices : backend_only (Cloud_listDevices cfg host).
Proof.
  unfold Cloud_listDevices. apply backend_bind; [apply backend_get|].
  intros out. apply backend_ret.
Qed.

Lemma backend_sleep ms : backend_only (sleep ms).
Proof. now apply backend_emit. Qed.

Lemma step_task_follows (t : Task) (w : World) :
  follows w (fst (fst (step_task cfg host t w))).
Proof.
  unfold step_task. destruct (snd t) as [|it rest]; [apply follows_refl|].
  pose proof (backend_control (fst t) (mkDeviceRef (item_deviceId it) (item_model it))
                (cmd it) w) as [Hf _].
  unfold control_item.
  destruct (control cfg host (fst t) _ _ w) as [w' [a|e|]]; exact Hf.
Qed.

Lemma interleave_follows sched tasks rejected w :
  follows w (fst (fst (interleave cfg host sched tasks rejected w))).
Proof.
  revert tasks rejected w. induction sched as [|i sched IH]; intros tasks rejected w; simpl.
  - apply follows_refl.
  - destruct (tasks !! i) as [t|]; [|apply IH].
    pose proof (step_task_follows t w) as Hs.
    destruct (step_task cfg host t w) as [[w' t'] e]. simpl in Hs.
    eapply follows_trans; [exact Hs | apply IH].
Qed.

Lemma drain_follows tasks rejected w :
  follows w (fst (drain cfg host tasks rejected w)).
Proof.
  revert rejected w. induction tasks as [|t tasks IH]; intros rejected w; simpl.
  - apply follows_refl.
  - pose proof (backend_for_each (control_item cfg host (fst t)) (snd t)
                  (fun it => backend_control _ _ _) w) as [Hf _].
    destruct (for_each _ (snd t) w) as [w' [a|e|]]; simpl in Hf;
      (eapply follows_trans; [exact Hf | apply IH]).
Qed.

Lemma backend_Promise_all sched tasks : backend_only (Promise_all cfg host sched tasks).
Proof.
  intros w. unfold Promise_all.
  pose proof (interleave_follows sched tasks None w) as H1.
  destruct (interleave cfg host sched tasks None w) as [[w1 tasks1] rejected1].
  pose proof (drain_follows tasks1 rejected1 w1) as H2.
  destruct (drain cfg host tasks1 rejected1 w1) as [w2 rejected2]. simpl in *.
  split; [eapply follows_trans; eassumption|]. now destruct rejected2.
Qed.

End Backend.

Create HintDb backend.
#[local] Hint Resolve backend_ret backend_throw backend_bind backend_now backend_fetch
  backend_post backend_get backend_for_each backend_control backend_getState
  backend_Cloud_listDevices backend_sleep backend_Promise_all
  backend_Cloud_control backend_Lan_control : backend.

(** ** [take]: what it does to the world, and that it returns *)

Section Take_facts.
Variable host : Host.

Lemma take_loop_S (fuel : nat) (w : World) :
  take_loop host (S fuel) w
  = let lg := take_iter (Date_now host (ticks w)) (limiter w) in
    if snd lg
    then (mkWorld (fst lg) (S (ticks w)) (inbox w) (trace w ++ [EvToken]), Done tt)
    else take_loop host fuel
           (mkWorld (fst lg) (S (ticks w)) (inbox w) (trace w ++ [EvTimeout 50])).
Proof.
  cbn [take_loop]. unfold bind, now. cbn [limiter ticks inbox trace].
  destruct (take_iter _ _) as [l [|]]; reflexivity.
Qed.

Lemma take_loop_returns (k : nat) : forall w,
  (1 <= capacity (limiter w))%Q ->
  (1 <= tokens (limiter w)
        + inject_Z (Date_now host (ticks w + k) - last (limiter w)) / 1000
          * refillRatePerSec (limiter w))%Q ->
  exists w1, forall fuel, (k < fuel)%nat -> take_loop host fuel w = (w1, Done tt).
Proof.
  induction k as [|k IH]; intros w Hcap Hsum.
  - rewrite Nat.add_0_r in Hsum.
    pose proof (take_iter_granted _ _ Hcap Hsum) as Hg.
    eexists. intros [|fuel] Hf; [lia|]. rewrite take_loop_S. cbv zeta.
    rewrite Hg. reflexivity.
  - destruct (snd (take_iter (Date_now host (ticks w)) (limiter w))) eqn:Hg.
    + eexists. intros [|fuel] Hf; [lia|]. rewrite take_loop_S. cbv zeta.
      rewrite Hg. reflexivity.
    + set (w' := mkWorld (fst (take_iter (Date_now host (ticks w)) (limiter w)))
                   (S (ticks w)) (inbox w) (trace w ++ [EvTimeout 50])).
      destruct (IH w') as [w1 Hw1].
      * unfold w'. cbn [limiter]. now rewrite take_iter_capacity.
      * unfold w'. cbn [limiter ticks].
        rewrite take_iter_rate, take_iter_last.
        rewrite (take_iter_refused _ _ Hcap Hg).
        replace (S (ticks w) + k)%nat with (ticks w + S k)%nat by lia.
        rewrite !inject_Z_sub in *.
        eapply Qle_trans; [exact Hsum|]. apply Qle_lteq. right. field.
      * exists w1. intros [|fuel] Hf; [lia|]. rewrite take_loop_S. cbv zeta.
        rewrite Hg. apply Hw1. lia.
Qed.

Lemma take_returns (w : World) :
  ready host w ->
  exists fuel0 w1, forall fuel, (fuel0 <= fuel)%nat -> take host fuel w = (w1, Done tt).
Proof.
  intros (Hcap & n & Hn & Hsum).
  destruct (take_loop_returns (n - ticks w)
              (mkWorld (limiter w) (ticks w) (inbox w) (trace w ++ [EvTake])))
    as [w1 Hw1]; cbn [limiter ticks]; [done | |].
  - now replace (ticks w + (n - ticks w))%nat with n by lia.
  - exists (S (n - ticks w)), w1. intros fuel Hf. unfold take, bind, emit.
    apply Hw1. lia.
Qed.

Lemma take_loop_effect (fuel : nat) : forall w,
  inbox (fst (take_loop host fuel w)) = inbox w
  /\ exists evs, trace (fst (take_loop host fuel w)) = trace w ++ evs
       /\ fetches evs = [] /\ takes evs = 0%nat
       /\ (snd (take_loop host fuel w) = Done tt /\ tokens_consumed evs = 1%nat
           \/ snd (take_loop host fuel w) = Pending /\ tokens_consumed evs = 0%nat).
Proof.
  induction fuel as [|fuel IH]; intros w.
  - simpl. split; [done|]. exists []. rewrite app_nil_r. auto 10.
  - rewrite take_loop_S. cbv zeta.
    destruct (snd (take_iter _ _)).
    + simpl. split; [done|]. exists [EvToken]. auto 10.
    + specialize (IH (mkWorld (fst (take_iter (Date_now host (ticks w)) (limiter w)))
                        (S (ticks w)) (inbox w) (trace w ++ [EvTimeout 50]))).
      cbn [inbox trace] in IH. destruct IH as (Hin & evs & Htr & Hf & Ht & Hk).
      split; [done|]. exists (EvTimeout 50 :: evs).
      rewrite Htr, <- app_assoc. repeat split; auto.
Qed.

Lemma take_effect (fuel : nat) (w : World) :
  inbox (fst (take host fuel w)) = inbox w
  /\ exists evs, trace (fst (take host fuel w)) = trace w ++ evs
       /\ fetches evs = [] /\ takes evs = 1%nat
       /\ (snd (take host fuel w) = Done tt /\ tokens_consumed evs = 1%nat
           \/ snd (take host fuel w) = Pending /\ tokens_consumed evs = 0%nat).
Proof.
  unfold take, bind, emit.
  destruct (take_loop_effect fuel
              (mkWorld (limiter w) (ticks w) (inbox w) (trace w ++ [EvTake])))
    as (Hin & evs & Htr & Hf & Ht & Hk).
  cbn [inbox trace] in *. split; [done|]. exists (EvTake :: evs).
  rewrite Htr, <- app_assoc. repeat split; auto.
  - unfold takes in *. simpl. now rewrite Ht.
Qed.

Lemma after_take {A} (k : M A) (w : World) :
  ready host w ->
  exists fuel0 w1,
    (forall fuel, (fuel0 <= fuel)%nat -> bind (take host fuel) (fun _ => k) w = k w1)
    /\ inbox w1 = inbox w
    /\ exists evs, trace w1 = trace w ++ evs /\ fetches evs = []
         /\ takes evs = 1%nat /\ tokens_consumed evs = 1%nat.
Proof.
  intros Hready. destruct (take_returns w Hready) as (fuel0 & w1 & Hret).
  exists fuel0, w1. split.
  - intros fuel Hf. now rewrite (bind_Done _ _ _ _ _ (Hret fuel Hf)).
  - pose proof (take_effect fuel0 w) as (Hin & evs & Htr & Hfe & Hta & Hk).
    rewrite (Hret fuel0 (Nat.le_refl _)) in Hin, Htr, Hk. cbn [fst snd] in *.
    split; [done|]. exists evs. repeat split; auto.
    destruct Hk as [[_ Hk]|[Hk _]]; [done | discriminate].
Qed.

End Take_facts.

(** ** The bounds are an invariant of the process *)

Section Invariant.
Variable cfg : Config.
Variable host : Host.
Hypothesis Hmono : monotone_clock host.

Lemma monotone_clock_le (n m : nat) :
  (n <= m)%nat -> Date_now host n <= Date_now host m.
Proof.
  intros Hle. induction Hle as [|m Hle IH]; [lia|].
  pose proof (Hmono m). lia.
Qed.

Lemma keeps_take_loop (fuel : nat) : keeps host (take_loop host fuel).
Proof.
  induction fuel as [|fuel IH]; intros w Hw; [exact Hw|].
  rewrite take_loop_S. cbv zeta.
  assert (Hstep : forall tr,
    WInv host (mkWorld (fst (take_iter (Date_now host (ticks w)) (limiter w)))
                 (S (ticks w)) (inbox w) tr)).
  { intros tr. destruct Hw as (Hinv & Hrate & Hlast).
    repeat split; cbn [limiter ticks].
    1-3: apply take_iter_inv; auto.
    - now rewrite take_iter_rate.
    - intros n Hn. rewrite take_iter_last. apply monotone_clock_le. lia. }
  destruct (snd (take_iter _ _)); [apply Hstep | apply IH, Hstep].
Qed.

Lemma keeps_emit e : keeps host (emit e).
Proof. intros w Hw. exact Hw. Qed.

Lemma keeps_throw {A} (e : Exn) : keeps host (@throw A e).
Proof. intros w Hw. exact Hw. Qed.

Lemma keeps_bind {A B} (m : M A) (k : A -> M B) :
  keeps host m -> (forall a, keeps host (k a)) -> keeps host (bind m k).
Proof.
  intros Hm Hk w Hw. unfold bind. specialize (Hm w Hw).
  destruct (m w) as [w1 [a|e|]]; simpl in *; [now apply Hk | done | done].
Qed.

Lemma keeps_take (fuel : nat) : keeps host (take host fuel).
Proof.
  unfold take. apply keeps_bind; [apply keeps_emit|].
  intros _. apply keeps_take_loop.
Qed.

Lemma follows_WInv w w' : follows w w' -> WInv host w -> WInv host w'.
Proof.
  intros (Hl & Ht & _) (Hinv & Hrate & Hlast). unfold WInv. rewrite Hl.
  repeat split; try apply Hinv; auto. intros n Hn. apply Hlast. lia.
Qed.

Lemma keeps_backend {A} (m : M A) : backend_only m -> keeps host m.
Proof. intros Hm w Hw. eapply follows_WInv; [apply Hm | exact Hw]. Qed.

Lemma keeps_after_take {A} (fuel : nat) (k : M A) :
  backend_only k -> keeps host (bind (take host fuel) (fun _ => k)).
Proof. intros Hk. apply keeps_bind; [apply keeps_take | intros _; now apply keeps_backend]. Qed.

Lemma keeps_handler fuel sched call : keeps host (handler cfg host fuel sched call).
Proof.
  destruct call; simpl;
    unfold govee_list_devices, govee_get_state, govee_set_power, govee_set_brightness,
      govee_set_color, govee_set_color_temp, govee_set_scene, govee_batch;
    try (destruct (negb (isAllowed cfg _)); [apply keeps_throw|]);
    try (apply keeps_after_take; auto 10 with backend).
  - destruct (_ =? _)%nat; [apply keeps_throw|].
    apply keeps_after_take; auto 10 with backend.
  - apply keeps_throw.
Qed.

Lemma keeps_tools_call fuel sched call : keeps host (tools_call cfg host fuel sched call).
Proof.
  intros w Hw. unfold tools_call. pose proof (keeps_handler fuel sched call w Hw) as H.
  now destruct (handler cfg host fuel sched call w) as [w' [c|e|]].
Qed.

Lemma keeps_registered_call fuel sched call :
  keeps host (registered_call cfg host fuel sched call).
Proof.
  unfold registered_call.
  destruct call; try apply keeps_throw;
    (destruct (inputSchema _); [apply keeps_handler | apply keeps_throw]).
Qed.

Lemma boot_WInv responses :
  (0 < GOVEE_RATE_RPS cfg)%Q -> WInv host (boot cfg host responses).
Proof.
  intros Hrps. unfold WInv, boot. cbn [limiter ticks].
  split; [apply new_TokenBucketLimiter_inv|]. split; [simpl; lra|].
  intros n Hn. simpl. apply monotone_clock_le. lia.
Qed.

End Invariant.

(** C10: with a positive [rps] and a clock that never goes back, the token
    bucket satisfies [0 <= tokens <= capacity] and [1 <= capacity] in every
    state of the process: after construction, after any number of passes
    of the loop of [take], and after every tool call. *)
Theorem limiter_bounds (cfg : Config) (host : Host) (w : World) :
  (0 < GOVEE_RATE_RPS cfg)%Q -> monotone_clock host -> reachable cfg host w ->
  (0 <= tokens (limiter w))%Q /\ (tokens (limiter w) <= capacity (limiter w))%Q
  /\ (1 <= capacity (limiter w))%Q.
Proof.
  intros Hrps Hmono Hreach.
  enough (WInv host w) as [H _] by exact H.
  induction Hreach as [responses | fuel w _ IH | fuel sched call w _ IH | fuel sched call w _ IH].
  - now apply boot_WInv.
  - now apply keeps_take.
  - now apply keeps_tools_call.
  - now apply keeps_registered_call.
Qed.

(** ** The cloud transport *)

Section Transport.
Variable cfg : Config.
Variable host : Host.

Lemma fetch_head req w res rest :
  inbox w = res :: rest ->
  fetch req w
  = (mkWorld (limiter w) (ticks w) rest (trace w ++ [EvFetch req]), Done res).
Proof. intros Hin. unfold fetch, bind, emit. cbn [inbox]. now rewrite Hin. Qed.

Lemma fetch_trace req w : trace (fst (fetch req w)) = trace w ++ [EvFetch req].
Proof. unfold fetch, bind, emit. cbn [inbox]. now destruct (inbox w). Qed.

Lemma post_refused path payload w res rest :
  inbox w = res :: rest -> ok res = false ->
  snd (post cfg host path payload w) = Throw (api_error host res).
Proof.
  intros Hin Hok. unfold post.
  rewrite (bind_Done _ _ _ _ _ (fetch_head _ _ _ _ Hin)). now rewrite Hok.
Qed.

Lemma get_refused path w res rest :
  inbox w = res :: rest -> ok res = false ->
  snd (get cfg host path w) = Throw (api_error host res).
Proof.
  intros Hin Hok. unfold get.
  rewrite (bind_Done _ _ _ _ _ (fetch_head _ _ _ _ Hin)). now rewrite Hok.
Qed.

Lemma post_ok path payload (w : World) res rest j :
  inbox w = res :: rest -> ok res = true -> json res = inl j ->
  post cfg host path payload w
  = (mkWorld (limiter w) (ticks w) rest
       (trace w ++ [EvFetch (mkRequest (API_BASE cfg +:+ path) POST
                               [("Content-Type", "application/json");
                                ("Govee-API-Key", API_KEY cfg)] payload)]),
     Done j).
Proof.
  intros Hin Hok Hjson. unfold post.
  rewrite (bind_Done _ _ _ _ _ (fetch_head _ _ _ _ Hin)).
  rewrite Hok. cbn [negb]. unfold res_json. now rewrite Hjson.
Qed.

Lemma get_trace path w :
  trace (fst (get cfg host path w))
  = trace w ++ [EvFetch (mkRequest (API_BASE cfg +:+ path) GET
                           [("Govee-API-Key", API_KEY cfg)] NoPayload)].
Proof.
  unfold get. unfold bind at 1.
  pose proof (fetch_trace (mkRequest (API_BASE cfg +:+ path) GET
                             [("Govee-API-Key", API_KEY cfg)] NoPayload) w) as H.
  destruct (fetch _ w) as [w1 [res|e|]]; cbn [fst] in *; try exact H.
  destruct (negb (ok res)); [exact H|]. unfold res_json.
  destruct (json res); exact H.
Qed.

Lemma Cloud_listDevices_trace w :
  trace (fst (Cloud_listDevices cfg host w)) = trace w ++ [EvFetch (devices_request cfg)].
Proof.
  unfold Cloud_listDevices, bind. pose proof (get_trace "/user/devices" w) as H.
  destruct (get cfg host "/user/devices" w) as [w1 [out|e|]]; exact H.
Qed.

Lemma Cloud_control_sent (ref : DeviceRef) (c : ControlCmd) (w : World) res rest j :
  DRY_RUN cfg = false -> inbox w = res :: rest -> ok res = true -> json res = inl j ->
  Cloud_control cfg host ref c w
  = (mkWorld (limiter w) (S (ticks w)) rest
       (trace w ++ [EvFetch (control_request cfg
                               ("mcp-" +:+ pretty (Date_now host (ticks w)))
                               (deviceId ref) (model ref) (capability_of c))]),
     Done tt).
Proof.
  intros Hdry Hin Hok Hjson. unfold Cloud_control. rewrite Hdry.
  unfold bind at 1. unfold now. unfold bind.
  erewrite post_ok; [| exact Hin | exact Hok | exact Hjson].
  rewrite ToString_int. reflexivity.
Qed.

(** C5: with the dry-run flag set, [CloudAdapter.control] and
    [CloudAdapter.batch] only write a console line and resolve: for every
    device reference, command and item list they consume no response,
    read no clock and add no transport call to the trace. *)
Theorem dry_run_short_circuit (ref : DeviceRef) (c : ControlCmd)
    (items : list BatchItem) (w : World) :
  DRY_RUN cfg = true ->
  Cloud_control cfg host ref c w
  = (mkWorld (limiter w) (ticks w) (inbox w) (trace w ++ [EvLogControl ref c]), Done tt)
  /\ Cloud_batch cfg host items w
     = (mkWorld (limiter w) (ticks w) (inbox w) (trace w ++ [EvLogBatch items]), Done tt)
  /\ fetches (trace (fst (Cloud_control cfg host ref c w))) = fetches (trace w)
  /\ fetches (trace (fst (Cloud_batch cfg host items w))) = fetches (trace w).
Proof.
  intros Hdry. unfold Cloud_control, Cloud_batch. rewrite Hdry.
  unfold emit. cbn [fst trace]. rewrite !fetches_app. simpl.
  now rewrite app_nil_r.
Qed.

(** C6: when the vendor answers with a status outside 200-299, [post] and
    [get] throw an error whose message is built from the status alone; two
    refusals with the same status give the same error, whatever their
    bodies (and whatever else the two worlds hold). *)
Theorem upstream_error_hides_body (path : string) (payload : Payload)
    (w1 w2 : World) (r1 r2 : HttpResponse) (rest1 rest2 : list HttpResponse) :
  inbox w1 = r1 :: rest1 -> inbox w2 = r2 :: rest2 ->
  ok r1 = false -> ok r2 = false -> status r1 = status r2 ->
  snd (post cfg host path payload w1)
  = Throw (Error ("Govee API error " +:+ pretty (status r1) +:+ ": Request failed"))
  /\ snd (post cfg host path payload w2) = snd (post cfg host path payload w1)
  /\ snd (get cfg host path w1)
     = Throw (Error ("Govee API error " +:+ pretty (status r1) +:+ ": Request failed"))
  /\ snd (get cfg host path w2) = snd (get cfg host path w1).
Proof.
  intros Hin1 Hin2 Hok1 Hok2 Hst.
  rewrite (post_refused _ _ _ _ _ Hin1 Hok1), (post_refused _ _ _ _ _ Hin2 Hok2).
  rewrite (get_refused _ _ _ _ Hin1 Hok1), (get_refused _ _ _ _ Hin2 Hok2).
  unfold api_error. rewrite <- Hst, ToString_int. auto.
Qed.

End Transport.

(** ** The allowlist and the limiter in the tool handlers *)

Section Gateway_facts.
Variable cfg : Config.
Variable host : Host.

Lemma isAllowed_spec (id : string) :
  isAllowed cfg id = true <-> ALLOWLIST cfg = ∅ \/ id ∈ ALLOWLIST cfg.
Proof.
  unfold isAllowed. rewrite orb_true_iff, !bool_decide_eq_true.
  now rewrite size_empty_iff, leibniz_equiv_iff.
Qed.

Lemma filter_idem {A} (f : A -> bool) (l : list A) :
  List.filter f (List.filter f l) = List.filter f l.
Proof.
  induction l as [|a l IH]; simpl; [done|].
  destruct (f a) eqn:Hf; simpl; [now rewrite Hf, IH | exact IH].
Qed.

Lemma registered_call_accepts fuel sched call w :
  inputSchema call = true -> single_device call <> None ->
  registered_call cfg host fuel sched call w = handler cfg host fuel sched call w.
Proof.
  intros Hs Hc. unfold registered_call. rewrite Hs.
  destruct call; try reflexivity. now simpl in Hc.
Qed.

(** C3: [isAllowed] accepts every device when the allowlist is empty and
    otherwise exactly its members.  A single-device call for a device that
    is not allowed throws "Device not allowed" in a world left as it was
    (no [take], no transport call), through both front ends.
    [list_devices] returns the vendor's devices with the disallowed ones
    filtered out.  A batch behaves as the batch of its allowed items, and
    throws "No allowed items" in an unchanged world when none is allowed. *)
Theorem allowlist_enforced :
  (forall id, isAllowed cfg id = true <-> ALLOWLIST cfg = ∅ \/ id ∈ ALLOWLIST cfg)
  /\ (forall fuel sched call id w,
        single_device call = Some id -> isAllowed cfg id = false ->
        handler cfg host fuel sched call w = (w, Throw (Error "Device not allowed"))
        /\ tools_call cfg host fuel sched call w
           = (w, Done (mkToolResult (Text "Error: Device not allowed") true))
        /\ (inputSchema call = true ->
            registered_call cfg host fuel sched call w
            = (w, Throw (Error "Device not allowed"))))
  /\ (forall w res rest j,
        ready host w -> inbox w = res :: rest -> ok res = true -> json res = inl j ->
        exists fuel0, forall fuel, (fuel0 <= fuel)%nat ->
          snd (govee_list_devices cfg host fuel w)
          = Done (JsonDevices
                    (List.filter (fun d => isAllowed cfg (info_deviceId d))
                       (map (fun d => mkDeviceInfo (device d) (sku d) (deviceName d)
                                        (default [] (raw_capabilities d)))
                            (default [] (data_devices j))))))
  /\ (forall fuel sched items w,
        govee_batch cfg host fuel sched items w
        = govee_batch cfg host fuel sched
            (List.filter (fun i => isAllowed cfg (item_deviceId i)) items) w)
  /\ (forall fuel sched items w,
        List.filter (fun i => isAllowed cfg (item_deviceId i)) items = [] ->
        govee_batch cfg host fuel sched items w = (w, Throw (Error "No allowed items"))).
Proof.
  split; [exact isAllowed_spec|]. split; [|split; [|split]].
  - intros fuel sched call id w Hcall Hno.
    assert (Hh : handler cfg host fuel sched call w = (w, Throw (Error "Device not allowed"))).
    { destruct call; simpl in Hcall; try discriminate; injection Hcall as ->; simpl;
        unfold govee_get_state, govee_set_power, govee_set_brightness, govee_set_color,
          govee_set_color_temp, govee_set_scene; now rewrite Hno. }
    split; [exact Hh|]. split.
    + unfold tools_call. now rewrite Hh.
    + intros Hs. rewrite registered_call_accepts; [exact Hh | exact Hs | congruence].
  - intros w res rest j Hready Hin Hok Hjson.
    unfold govee_list_devices.
    destruct (after_take host
                (do list <- Cloud_listDevices cfg host;
                 ret (JsonDevices (List.filter (fun d => isAllowed cfg (info_deviceId d)) list)))
                w Hready) as (fuel0 & w1 & Hrun & Hin1 & _).
    exists fuel0. intros fuel Hf. rewrite (Hrun fuel Hf).
    rewrite Hin in Hin1. unfold Cloud_listDevices, get, bind.
    rewrite (fetch_head _ _ _ _ Hin1), Hok. simpl. unfold res_json. now rewrite Hjson.
  - intros fuel sched items w. unfold govee_batch. now rewrite filter_idem.
  - intros fuel sched items w Hnone. unfold govee_batch. now rewrite Hnone.
Qed.

(** C7, amended: a batch that keeps at least one item after allowlist
    filtering enters [take] exactly once, whatever the schedule of its
    device tasks and however many items, devices and transport calls it
    has; once the clock allows a token (enough polling budget), the call
    settles and has consumed exactly one token. *)
Theorem batch_one_admission (sched : list nat) (items : list BatchItem) (w : World) :
  List.filter (fun i => isAllowed cfg (item_deviceId i)) items <> [] ->
  ready host w ->
  (forall fuel,
     takes (trace (fst (govee_batch cfg host fuel sched items w))) = S (takes (trace w)))
  /\ exists fuel0, forall fuel, (fuel0 <= fuel)%nat ->
       snd (govee_batch cfg host fuel sched items w) <> Pending
       /\ takes (trace (fst (govee_batch cfg host fuel sched items w)))
          = S (takes (trace w))
       /\ tokens_consumed (trace (fst (govee_batch cfg host fuel sched items w)))
          = S (tokens_consumed (trace w)).
Proof.
  intros Hsome Hready. unfold govee_batch.
  destruct (length (List.filter _ items) =? 0)%nat eqn:Hlen.
  { apply Nat.eqb_eq, length_zero_iff_nil in Hlen. contradiction. }
  set (rest := bind (for_each _ _) _).
  assert (Hrest : backend_only rest).
  { unfold rest. auto 10 with backend. }
  assert (Hall : forall fuel,
    takes (trace (fst (bind (take host fuel) (fun _ => rest) w))) = S (takes (trace w))).
  { intros fuel. unfold bind.
    pose proof (take_effect host fuel w) as (_ & evs & Htr & _ & Hta & Hk).
    destruct (take host fuel w) as [w1 [[]|e|]]; cbn [fst snd] in *.
    - destruct (follows_counts _ _ (proj1 (Hrest w1))) as [-> _].
      rewrite Htr, takes_app. lia.
    - destruct Hk as [[? _]|[? _]]; discriminate.
    - cbn [fst]. rewrite Htr, takes_app. lia. }
  split; [exact Hall|].
  destruct (after_take host rest w Hready)
    as (fuel0 & w1 & Hrun & _ & evs & Htr & _ & Hta & Hk).
  exists fuel0. intros fuel Hf. split; [|split; [apply Hall|]].
  - rewrite (Hrun fuel Hf). apply Hrest.
  - rewrite (Hrun fuel Hf).
    destruct (follows_counts _ _ (proj1 (Hrest w1))) as [_ ->].
    rewrite Htr, tokens_consumed_app. lia.
Qed.

Lemma Math_round_nearest (x : Q) :
  (x - (1 # 2) < inject_Z (Math_round x))%Q /\ (inject_Z (Math_round x) <= x + (1 # 2))%Q.
Proof.
  unfold Math_round. split.
  - pose proof (Qlt_floor (x + (1 # 2))) as H. rewrite inject_Z_plus in H.
    change (inject_Z 1) with 1%Q in H. lra.
  - apply Qfloor_le.
Qed.

Lemma z_number_min_max_spec (lo hi x : Q) :
  z_number_min_max lo hi x = true <-> (lo <= x)%Q /\ (x <= hi)%Q.
Proof. unfold z_number_min_max. now rewrite andb_true_iff, !Qle_bool_iff. Qed.

(** C8: [set_brightness] and [set_color_temp] take any number [x], the
    registered tools any [x] in the declared range, integral or not.  With
    the cloud backend live and the vendor accepting, what is posted is the
    capability with value [Math.round x] (the integer within one half of
    [x], ties upward), and the message echoes that integer. *)
Theorem rounded_value_is_sent (id model_ : string) (x : Q) (w : World)
    (res : HttpResponse) (rest : list HttpResponse) (j : Json) :
  isAllowed cfg id = true -> lanEnabled cfg = false -> DRY_RUN cfg = false ->
  ready host w -> inbox w = res :: rest -> ok res = true -> json res = inl j ->
  ((x - (1 # 2) < inject_Z (Math_round x))%Q /\ (inject_Z (Math_round x) <= x + (1 # 2))%Q)
  /\ (forall fuel sched,
        ((0 <= x)%Q /\ (x <= 100)%Q ->
         registered_call cfg host fuel sched (set_brightness id model_ x) w
         = govee_set_brightness cfg host fuel id model_ x w)
        /\ ((1000 <= x)%Q /\ (x <= 10000)%Q ->
            registered_call cfg host fuel sched (set_color_temp id model_ x) w
            = govee_set_color_temp cfg host fuel id model_ x w))
  /\ exists fuel0, forall fuel, (fuel0 <= fuel)%nat -> exists rid1 rid2,
       snd (govee_set_brightness cfg host fuel id model_ x w)
       = Done (Text ("Brightness set to " +:+ pretty (Math_round x) +:+ "%."))
       /\ fetches (trace (fst (govee_set_brightness cfg host fuel id model_ x w)))
          = fetches (trace w)
            ++ [control_request cfg rid1 id model_
                  (mkCapability "devices.capabilities.range" "brightness"
                     (JNumber (inject_Z (Math_round x))))]
       /\ snd (govee_set_color_temp cfg host fuel id model_ x w)
          = Done (Text ("Color temp set to " +:+ pretty (Math_round x) +:+ "K."))
       /\ fetches (trace (fst (govee_set_color_temp cfg host fuel id model_ x w)))
          = fetches (trace w)
            ++ [control_request cfg rid2 id model_
                  (mkCapability "devices.capabilities.color_setting" "colorTemperatureK"
                     (JNumber (inject_Z (Math_round x))))].
Proof.
  intros Hallow Hlan Hdry Hready Hin Hok Hjson.
  split; [apply Math_round_nearest|]. split.
  { intros fuel sched. split; intros Hx; apply z_number_min_max_spec in Hx;
      unfold registered_call; cbn [inputSchema]; now rewrite Hx. }
  unfold govee_set_brightness, govee_set_color_temp, pickAdapter.
  rewrite Hallow, Hlan. cbn [negb control].
  match goal with |- context [bind (take host _) (fun _ => ?k)] =>
    destruct (after_take host k w Hready)
      as (f1 & w1 & Hrun1 & Hin1 & evs1 & Htr1 & Hfe1 & _) end.
  match goal with |- context [bind (take host _)
      (fun _ => bind (Cloud_control _ _ _ (colorTem ?v)) ?k)] =>
    destruct (after_take host (bind (Cloud_control cfg host (mkDeviceRef id model_) (colorTem v)) k)
                w Hready)
      as (f2 & w2 & Hrun2 & Hin2 & evs2 & Htr2 & Hfe2 & _) end.
  rewrite Hin in Hin1, Hin2.
  exists (Nat.max f1 f2). intros fuel Hf.
  rewrite (Hrun1 fuel) by lia. rewrite (Hrun2 fuel) by lia.
  rewrite !(bind_Done _ _ _ _ _ (Cloud_control_sent _ _ _ _ _ _ _ _ Hdry Hin1 Hok Hjson)).
  rewrite !(bind_Done _ _ _ _ _ (Cloud_control_sent _ _ _ _ _ _ _ _ Hdry Hin2 Hok Hjson)).
  unfold ret. cbn [fst snd trace].
  rewrite !ToString_int, !fetches_app, Htr1, Htr2, !fetches_app, Hfe1, Hfe2, !app_nil_r.
  do 2 eexists. repeat split.
Qed.

End Gateway_facts.

(** ** The LAN backend behind the router *)

Section Lan_facts.
Variable cfg : Config.
Variable host : Host.
Hypothesis Hlan : lanEnabled cfg = true.

Lemma Lan_control_throws ref c w : Lan_control cfg ref c w = (w, Throw LanError).
Proof. unfold Lan_control. now rewrite Hlan. Qed.

Lemma for_each_lan (items : list BatchItem) (w : World) :
  for_each (control_item cfg host lan) items w
  = (w, match items with [] => Done tt | _ => Throw LanError end).
Proof.
  destruct items as [|it rest]; [reflexivity|]. simpl. unfold bind, control_item.
  simpl. now rewrite Lan_control_throws.
Qed.

Lemma step_task_lan (t : Task) (w : World) :
  fst t = lan ->
  step_task cfg host t w
  = match snd t with
    | [] => (w, t, None)
    | _ => (w, (lan, []), Some LanError)
    end.
Proof.
  intros Ht. unfold step_task. destruct (snd t) as [|it rest]; [reflexivity|].
  rewrite Ht. unfold control_item. simpl. now rewrite Lan_control_throws.
Qed.

Lemma interleave_lan (sched : list nat) : forall (tasks : list Task) rejected w,
  Forall (fun t : Task => fst t = lan) tasks -> doomed tasks rejected ->
  exists tasks' rejected',
    interleave cfg host sched tasks rejected w = (w, tasks', rejected')
    /\ Forall (fun t : Task => fst t = lan) tasks' /\ doomed tasks' rejected'.
Proof.
  induction sched as [|i sched IH]; intros tasks rejected w Hall Hd; simpl.
  - eauto.
  - destruct (tasks !! i) as [t|] eqn:Hi; [|now apply IH].
    assert (Ht : fst t = lan).
    { eapply Forall_forall in Hall; [exact Hall|]. eapply list_elem_of_lookup_2, Hi. }
    rewrite (step_task_lan t w Ht).
    destruct (snd t) as [|it rest] eqn:Hsnd.
    + rewrite list_insert_id by exact Hi.
      replace (first_of rejected None) with rejected by now destruct rejected.
      now apply IH.
    + apply IH.
      * apply Forall_insert; [exact Hall | reflexivity].
      * left. destruct Hd as [->|[-> _]]; reflexivity.
Qed.

Lemma drain_lan_rejected (tasks : list Task) (w : World) :
  Forall (fun t : Task => fst t = lan) tasks ->
  drain cfg host tasks (Some LanError) w = (w, Some LanError).
Proof.
  induction 1 as [|t tasks Ht _ IH]; simpl; [reflexivity|].
  rewrite Ht, for_each_lan. destruct (snd t); exact IH.
Qed.

Lemma drain_lan (tasks : list Task) (rejected : option Exn) (w : World) :
  Forall (fun t : Task => fst t = lan) tasks -> doomed tasks rejected ->
  drain cfg host tasks rejected w = (w, Some LanError).
Proof.
  intros Hall [->|[-> Hex]]; [now apply drain_lan_rejected|].
  induction Hall as [|t tasks Ht Hall IH]; [now apply Exists_nil in Hex|].
  simpl. rewrite Ht, for_each_lan.
  destruct (snd t) as [|it rest] eqn:Hsnd.
  - apply IH. apply Exists_cons in Hex as [Hex|Hex]; [congruence | exact Hex].
  - simpl. now apply drain_lan_rejected.
Qed.

Lemma Promise_all_lan (sched : list nat) (tasks : list Task) (w : World) :
  Forall (fun t : Task => fst t = lan) tasks ->
  Exists (fun t : Task => snd t <> []) tasks ->
  Promise_all cfg host sched tasks w = (w, Throw LanError).
Proof.
  intros Hall Hex. unfold Promise_all.
  destruct (interleave_lan sched tasks None w Hall) as (tasks' & rejected' & -> & Hall' & Hd').
  { right. auto. }
  now rewrite (drain_lan tasks' rejected' w Hall' Hd').
Qed.

End Lan_facts.

Lemma Map_set_Forall {V} (P : string * V -> Prop) k v (m : list (string * V)) :
  P (k, v) -> Forall P m -> Forall P (Map_set k v m).
Proof.
  intros Hkv. induction 1 as [|[k' v'] m Hx Hm IH]; simpl; [now repeat constructor|].
  destruct (String.eqb k k'); constructor; auto.
Qed.

Lemma Map_set_nonempty {V} k (v : V) m : Map_set k v m <> [].
Proof. destruct m as [|[k' v'] m]; simpl; [done|]. now destruct (String.eqb k k'). Qed.

Lemma coalesce_nonempty (l : list BatchItem) : l <> [] -> coalesce l <> [].
Proof.
  destruct l as [|x l _] using rev_ind; [done|]. intros _.
  unfold coalesce. rewrite fold_left_app. simpl.
  pose proof (Map_set_nonempty (key x) x
                (fold_left (fun m it => Map_set (key it) it m) l [])) as H.
  destruct (Map_set _ _ _); [done | discriminate].
Qed.

Lemma group_by_device_groups (l : list BatchItem) :
  Forall (fun g => snd g <> []) (group_by_device l)
  /\ (l <> [] -> group_by_device l <> []).
Proof.
  unfold group_by_device. split.
  - induction l as [|x l IH] using rev_ind; [constructor|].
    rewrite fold_left_app. simpl. apply Map_set_Forall; [|exact IH].
    simpl. now destruct (default [] _).
  - destruct l as [|x l _] using rev_ind; [done|]. intros _.
    rewrite fold_left_app. simpl. apply Map_set_nonempty.
Qed.

Section Router.
Variable cfg : Config.
Variable host : Host.

(** C9: [list_devices] does not read the LAN flag: it runs the same with
    the flag set or cleared, and once [take] has returned it sends
    [GET /user/devices] to the cloud.  The router is what the other tools
    go through: with the flag set, [get_state], every single-device write
    and [batch] (for allowed devices) end in the LAN stub's error without
    a transport call. *)
Theorem list_devices_ignores_router (flag : bool) (w : World) :
  ready host w ->
  (forall fuel,
     govee_list_devices (with_lanEnabled flag cfg) host fuel w
     = govee_list_devices cfg host fuel w)
  /\ (exists fuel0, forall fuel, (fuel0 <= fuel)%nat ->
        fetches (trace (fst (govee_list_devices cfg host fuel w)))
        = fetches (trace w) ++ [devices_request cfg])
  /\ (lanEnabled cfg = true ->
      forall call id, single_device call = Some id -> isAllowed cfg id = true ->
      exists fuel0, forall fuel sched, (fuel0 <= fuel)%nat ->
        snd (handler cfg host fuel sched call w) = Throw (lan_failure call)
        /\ fetches (trace (fst (handler cfg host fuel sched call w))) = fetches (trace w))
  /\ (lanEnabled cfg = true ->
      forall sched items,
      List.filter (fun i => isAllowed cfg (item_deviceId i)) items <> [] ->
      exists fuel0, forall fuel, (fuel0 <= fuel)%nat ->
        snd (govee_batch cfg host fuel sched items w) = Throw LanError
        /\ fetches (trace (fst (govee_batch cfg host fuel sched items w)))
           = fetches (trace w)).
Proof.
  intros Hready. split; [reflexivity|]. split; [|split].
  - unfold govee_list_devices.
    match goal with |- context [bind (take host _) (fun _ => ?k)] =>
      destruct (after_take host k w Hready)
        as (fuel0 & w1 & Hrun & _ & evs & Htr & Hfe & _) end.
    exists fuel0. intros fuel Hf. rewrite (Hrun fuel Hf). unfold bind.
    pose proof (Cloud_listDevices_trace cfg host w1) as H.
    unfold ret.
    destruct (Cloud_listDevices cfg host w1) as [w2 [l|e|]]; cbn [fst] in *;
      now rewrite H, Htr, !fetches_app, Hfe, app_nil_r.
  - intros Hlan call id Hcall Hallow.
    destruct (after_take host (@throw Content (lan_failure call)) w Hready)
      as (fuel0 & w1 & Hrun & _ & evs & Htr & Hfe & _).
    exists fuel0. intros fuel sched Hf. specialize (Hrun fuel Hf).
    assert (Hh : handler cfg host fuel sched call w = (w1, Throw (lan_failure call))).
    { unfold throw in Hrun. rewrite <- Hrun. unfold bind.
      destruct call; simpl in Hcall; try discriminate; injection Hcall as ->;
        cbn [handler lan_failure];
        unfold govee_get_state, govee_set_power, govee_set_brightness, govee_set_color,
          govee_set_color_temp, govee_set_scene, pickAdapter, bind;
        rewrite Hallow, Hlan; cbn [negb control getState];
        destruct (take host fuel w) as [w2 [[]|e|]]; try reflexivity;
        unfold Lan_control, Lan_getState, throw; rewrite ?Hlan; reflexivity. }
    rewrite Hh. cbn [fst snd]. split; [reflexivity|].
    now rewrite Htr, fetches_app, Hfe, app_nil_r.
  - intros Hlan sched items Hsome. unfold govee_batch.
    destruct (length (List.filter _ items) =? 0)%nat eqn:Hlen.
    { apply Nat.eqb_eq, length_zero_iff_nil in Hlen. contradiction. }
    match goal with |- context [bind (take host _) (fun _ => ?k)] =>
      destruct (after_take host k w Hready)
        as (fuel0 & w1 & Hrun & _ & evs & Htr & Hfe & _) end.
    exists fuel0. intros fuel Hf. rewrite (Hrun fuel Hf).
    set (groups := group_by_device (coalesce (List.filter _ items))).
    destruct (group_by_device_groups
                (coalesce (List.filter (fun i => isAllowed cfg (item_deviceId i)) items)))
      as [Hne Hsome'].
    specialize (Hsome' (coalesce_nonempty _ Hsome)). fold groups in Hne, Hsome'.
    set (tasks := map (fun g => (pickAdapter cfg (fst g), snd g)) groups).
    assert (Hall : Forall (fun t : Task => fst t = lan) tasks).
    { apply Forall_forall. intros t Ht. apply list_elem_of_In, in_map_iff in Ht
        as (g & <- & _). unfold pickAdapter. now rewrite Hlan. }
    assert (Hex : Exists (fun t : Task => snd t <> []) tasks).
    { unfold tasks. destruct groups as [|g groups']; [done|].
      apply Exists_cons_hd. simpl. now apply Forall_cons in Hne as [? _]. }
    rewrite (bind_Done _ _ _ _ _ (for_each_sleep (BATCH_WINDOW_MS cfg) tasks w1)).
    unfold bind. rewrite (Promise_all_lan cfg host Hlan sched tasks _ Hall Hex).
    cbn [fst snd trace]. split; [reflexivity|].
    now rewrite Htr, !fetches_app, Hfe, fetches_timeouts, !app_nil_r.
Qed.

End Router.

(** ** Range validation in the two front ends *)

Lemma registered_call_rejects cfg host fuel sched call w :
  inputSchema call = false ->
  registered_call cfg host fuel sched call w = (w, Throw (McpError "Invalid arguments")).
Proof. intros H. destruct call; simpl in *; try discriminate; now rewrite H. Qed.

(** A tool registered with a zod schema refuses a number outside its range
    before the callback runs: nothing is checked, taken or sent. *)
Lemma registered_call_validates cfg host fuel sched id model_ (x y z : Q) w :
  (~ ((0 <= x)%Q /\ (x <= 100)%Q) ->
   registered_call cfg host fuel sched (set_brightness id model_ x) w
   = (w, Throw (McpError "Invalid arguments")))
  /\ (~ ((0 <= x)%Q /\ (x <= 255)%Q) ->
      registered_call cfg host fuel sched (set_color id model_ x y z) w
      = (w, Throw (McpError "Invalid arguments")))
  /\ (~ ((1000 <= x)%Q /\ (x <= 10000)%Q) ->
      registered_call cfg host fuel sched (set_color_temp id model_ x) w
      = (w, Throw (McpError "Invalid arguments"))).
Proof.
  repeat split; intros Hout; apply registered_call_rejects; cbn [inputSchema].
  - destruct (z_number_min_max 0 100 x) eqn:H; [|reflexivity].
    now apply z_number_min_max_spec in H.
  - destruct (z_number_min_max 0 255 x) eqn:H; [|reflexivity].
    now apply z_number_min_max_spec in H.
  - destruct (z_number_min_max 1000 10000 x) eqn:H; [|reflexivity].
    now apply z_number_min_max_spec in H.
Qed.




(** ** The statements at sample inputs *)

Lemma demo_ready (cfg : Config) (responses : list HttpResponse) :
  GOVEE_RATE_RPS cfg = 5%Q -> ready demo_host (boot cfg demo_host responses).
Proof.
  intros Hrps. unfold ready, boot. cbn [limiter ticks]. rewrite Hrps. split.
  - apply Qle_bool_iff. reflexivity.
  - exists 1%nat. split; [lia|]. apply Qle_bool_iff. reflexivity.
Defined.


Lemma limiter_bounds_witness :
  let w := fst (take demo_host 3 (fst (take demo_host 3 (boot demo_cfg demo_host [])))) in
  (0 <= tokens (limiter w))%Q /\ (tokens (limiter w) <= capacity (limiter w))%Q
  /\ (1 <= capacity (limiter w))%Q.
Proof.
  apply (limiter_bounds demo_cfg demo_host).
  - reflexivity.
  - intros n. simpl. lia.
  - do 2 apply reach_take. apply reach_boot.
Defined.

Lemma upstream_error_hides_body_witness :
  let w1 := boot demo_cfg demo_host [teapot "secret-a"] in
  let w2 := boot demo_cfg demo_host [teapot "secret-b"; ok_response] in
  snd (post demo_cfg demo_host "/device/state" NoPayload w1)
  = Throw (Error "Govee API error 418: Request failed")
  /\ snd (post demo_cfg demo_host "/device/state" NoPayload w2)
     = snd (post demo_cfg demo_host "/device/state" NoPayload w1)
  /\ snd (get demo_cfg demo_host "/device/state" w1)
     = Throw (Error "Govee API error 418: Request failed")
  /\ snd (get demo_cfg demo_host "/device/state" w2)
     = snd (get demo_cfg demo_host "/device/state" w1).
Proof.
  exact (upstream_error_hides_body demo_cfg demo_host "/device/state" NoPayload
           (boot demo_cfg demo_host [teapot "secret-a"])
           (boot demo_cfg demo_host [teapot "secret-b"; ok_response])
           (teapot "secret-a") (teapot "secret-b") [] [ok_response]
           eq_refl eq_refl eq_refl eq_refl eq_refl).
Defined.

Lemma dry_run_short_circuit_witness :
  let w := boot dry_cfg demo_host [] in
  let ref := mkDeviceRef "A" "H6104" in
  let items := [mkBatchItem "A" "H6104" (turn on)] in
  Cloud_control dry_cfg demo_host ref (brightness 40) w
  = (mkWorld (limiter w) (ticks w) (inbox w)
       (trace w ++ [EvLogControl ref (brightness 40)]), Done tt)
  /\ Cloud_batch dry_cfg demo_host items w
     = (mkWorld (limiter w) (ticks w) (inbox w) (trace w ++ [EvLogBatch items]), Done tt)
  /\ fetches (trace (fst (Cloud_control dry_cfg demo_host ref (brightness 40) w)))
     = fetches (trace w)
  /\ fetches (trace (fst (Cloud_batch dry_cfg demo_host items w))) = fetches (trace w).
Proof.
  exact (dry_run_short_circuit dry_cfg demo_host (mkDeviceRef "A" "H6104")
           (brightness 40) [mkBatchItem "A" "H6104" (turn on)]
           (boot dry_cfg demo_host []) eq_refl).
Defined.

(** C7 as stated fails: with allowlist {A}, the batch [(B, turn on)] is
    refused before the limiter; no [take], no token. *)
Lemma batch_all_dropped_consumes_nothing :
  let w := boot only_A demo_host [ok_response] in
  let r := govee_batch only_A demo_host 5 [] [mkBatchItem "B" "H6104" (turn on)] w in
  snd r = Throw (Error "No allowed items")
  /\ takes (trace (fst r)) = 0%nat /\ tokens_consumed (trace (fst r)) = 0%nat
  /\ takes (trace (fst r)) <> S (takes (trace w)).
Proof. cbv zeta. repeat split; vm_compute; try reflexivity. discriminate. Qed.

Lemma batch_one_admission_witness :
  let items := [mkBatchItem "A" "H6104" (brightness 10);
                mkBatchItem "B" "H6104" (turn on);
                mkBatchItem "A" "H6104" (brightness 90)] in
  let w := boot only_A demo_host [ok_response] in
  (forall fuel,
     takes (trace (fst (govee_batch only_A demo_host fuel [0%nat] items w)))
     = S (takes (trace w)))
  /\ exists fuel0, forall fuel, (fuel0 <= fuel)%nat ->
       snd (govee_batch only_A demo_host fuel [0%nat] items w) <> Pending
       /\ takes (trace (fst (govee_batch only_A demo_host fuel [0%nat] items w)))
          = S (takes (trace w))
       /\ tokens_consumed (trace (fst (govee_batch only_A demo_host fuel [0%nat] items w)))
          = S (tokens_consumed (trace w)).
Proof.
  apply (batch_one_admission only_A demo_host).
  - vm_compute. discriminate.
  - apply demo_ready. reflexivity.
Defined.

Lemma allowlist_enforced_witness :
  let w := boot only_A demo_host [devices_response] in
  (isAllowed only_A "B" = true <-> ALLOWLIST only_A = ∅ \/ "B" ∈ ALLOWLIST only_A)
  /\ handler only_A demo_host 3 [] (get_state "B" "H6104") w
     = (w, Throw (Error "Device not allowed"))
  /\ (exists fuel0, forall fuel, (fuel0 <= fuel)%nat ->
        snd (govee_list_devices only_A demo_host fuel w)
        = Done (JsonDevices [mkDeviceInfo "A" "H6104" (Some "Lamp")
                               ["devices.capabilities.on_off"]]))
  /\ govee_batch only_A demo_host 3 [] [mkBatchItem "B" "H6159" (turn on)] w
     = (w, Throw (Error "No allowed items")).
Proof.
  destruct (allowlist_enforced only_A demo_host) as (H1 & H2 & H3 & _ & H5).
  split; [apply H1|]. split; [|split].
  - apply (H2 3%nat [] (get_state "B" "H6104") "B"); reflexivity.
  - apply (H3 (boot only_A demo_host [devices_response]) devices_response []
             (mkJson (Some [mkRawDevice "A" "H6104" (Some "Lamp")
                              (Some ["devices.capabilities.on_off"]);
                            mkRawDevice "B" "H6159" None None]) None));
      [apply demo_ready | ..]; reflexivity.
  - apply H5. reflexivity.
Defined.

Lemma rounded_value_is_sent_witness :
  let w := boot demo_cfg demo_host [ok_response] in
  exists fuel0, forall fuel, (fuel0 <= fuel)%nat -> exists rid1 rid2,
    snd (govee_set_brightness demo_cfg demo_host fuel "A" "H6104" (85 # 2) w)
    = Done (Text "Brightness set to 43%.")
    /\ fetches (trace (fst (govee_set_brightness demo_cfg demo_host fuel "A" "H6104"
                              (85 # 2) w)))
       = fetches (trace w)
         ++ [control_request demo_cfg rid1 "A" "H6104"
               (mkCapability "devices.capabilities.range" "brightness" (JNumber 43))]
    /\ snd (govee_set_color_temp demo_cfg demo_host fuel "A" "H6104" (85 # 2) w)
       = Done (Text "Color temp set to 43K.")
    /\ fetches (trace (fst (govee_set_color_temp demo_cfg demo_host fuel "A" "H6104"
                              (85 # 2) w)))
       = fetches (trace w)
         ++ [control_request demo_cfg rid2 "A" "H6104"
               (mkCapability "devices.capabilities.color_setting" "colorTemperatureK"
                  (JNumber 43))].
Proof.
  exact (proj2 (proj2
    (rounded_value_is_sent demo_cfg demo_host "A" "H6104" (85 # 2)
       (boot demo_cfg demo_host [ok_response]) ok_response [] (mkJson None None)
       eq_refl eq_refl eq_refl (demo_ready demo_cfg [ok_response] eq_refl)
       eq_refl eq_refl eq_refl))).
Defined.

Lemma list_devices_ignores_router_witness :
  let w := boot lan_cfg demo_host [devices_response] in
  (forall fuel,
     govee_list_devices (with_lanEnabled false lan_cfg) demo_host fuel w
     = govee_list_devices lan_cfg demo_host fuel w)
  /\ (exists fuel0, forall fuel, (fuel0 <= fuel)%nat ->
        fetches (trace (fst (govee_list_devices lan_cfg demo_host fuel w)))
        = [devices_request lan_cfg])
  /\ (exists fuel0, forall fuel sched, (fuel0 <= fuel)%nat ->
        snd (handler lan_cfg demo_host fuel sched (get_state "A" "H6104") w)
        = Throw (Error "LAN getState not implemented")
        /\ fetches (trace (fst (handler lan_cfg demo_host fuel sched
                                  (get_state "A" "H6104") w))) = [])
  /\ (exists fuel0, forall fuel, (fuel0 <= fuel)%nat ->
        snd (govee_batch lan_cfg demo_host fuel [] [mkBatchItem "A" "H6104" (turn on)] w)
        = Throw (Error "LAN control not implemented")
        /\ fetches (trace (fst (govee_batch lan_cfg demo_host fuel []
                                  [mkBatchItem "A" "H6104" (turn on)] w))) = []).
Proof.
  destruct (list_devices_ignores_router lan_cfg demo_host false
              (boot lan_cfg demo_host [devices_response])
              (demo_ready lan_cfg [devices_response] eq_refl))
    as (H1 & H2 & H3 & H4).
  split; [exact H1|]. split; [exact H2|]. split.
  - exact (H3 eq_refl (get_state "A" "H6104") "A" eq_refl eq_refl).
  - apply (H4 eq_refl []). vm_compute. discriminate.
Defined.

(** * Further properties of the sources *)

(** ** [getState]: the decoding loop *)

Section Decoder.
Variable host : Host.

Lemma merge_State_empty_r (st : State) : merge_State st empty_State = st.
Proof. now destruct st. Qed.

Lemma merge_State_assoc (a b c : State) :
  merge_State (merge_State a b) c = merge_State a (merge_State b c).
Proof.
  unfold merge_State, or_later. cbn [power st_brightness st_color st_colorTem st_scene].
  destruct (power c), (st_brightness c), (st_color c), (st_colorTem c), (st_scene c);
    reflexivity.
Qed.

Lemma decode_capability_merge (st : State) (c : CapabilityState) :
  decode_capability host st c = merge_State st (decode_capability host empty_State c).
Proof.
  unfold decode_capability.
  destruct (String.eqb (cs_type c) "devices.capabilities.on_off"),
    (String.eqb (cs_type c) "devices.capabilities.range"),
    (String.eqb (cs_type c) "devices.capabilities.color_setting"),
    (String.eqb (cs_instance c) "brightness"),
    (String.eqb (cs_instance c) "colorRgb"),
    (String.eqb (cs_instance c) "colorTemperatureK");
    destruct st; reflexivity.
Qed.

Lemma decode_fold (caps : list CapabilityState) (st : State) :
  fold_left (decode_capability host) caps st = merge_State st (decode_state host caps).
Proof.
  unfold decode_state. revert st.
  induction caps as [|c caps IH] using rev_ind; intros st.
  - simpl. now rewrite merge_State_empty_r.
  - rewrite !fold_left_app. simpl. rewrite IH.
    rewrite (decode_capability_merge (fold_left _ caps empty_State)).
    rewrite decode_capability_merge. now rewrite merge_State_assoc.
Qed.

(** The decoder composes: decoding two arrays in a row is decoding each
    and letting the later one win field by field.  In particular the last
    entry of a kind decides its field. *)
Theorem decode_state_app (caps1 caps2 : list CapabilityState) :
  decode_state host (caps1 ++ caps2)
  = merge_State (decode_state host caps1) (decode_state host caps2).
Proof.
  unfold decode_state at 1. rewrite fold_left_app.
  rewrite decode_fold. reflexivity.
Qed.

Lemma decode_unrecognized (st : State) (c : CapabilityState) :
  recognized c = false -> decode_capability host st c = st.
Proof.
  unfold recognized, decode_capability.
  destruct (String.eqb (cs_type c) "devices.capabilities.on_off"),
    (String.eqb (cs_type c) "devices.capabilities.range"),
    (String.eqb (cs_type c) "devices.capabilities.color_setting"),
    (String.eqb (cs_instance c) "brightness"),
    (String.eqb (cs_instance c) "colorRgb"),
    (String.eqb (cs_instance c) "colorTemperatureK");
    cbn; intros H; try discriminate H; reflexivity.
Qed.

(** An entry that none of the four conditions matches (an unknown type,
    or a known type with another instance) is skipped wherever it stands
    in the array. *)
Theorem decode_skips_unrecognized (caps1 caps2 : list CapabilityState)
    (c : CapabilityState) :
  recognized c = false ->
  decode_state host (caps1 ++ c :: caps2) = decode_state host (caps1 ++ caps2).
Proof.
  intros Hc. unfold decode_state. rewrite !fold_left_app. simpl.
  now rewrite decode_unrecognized.
Qed.

Lemma js_and_255 (z : Z) : 0 <= js_and z 255 <= 255.
Proof.
  unfold js_and. change 255 with (Z.ones 8) at 1 2. rewrite Z.land_ones by lia.
  pose proof (Z.mod_pos_bound z (2 ^ 8) ltac:(lia)). lia.
Qed.

(** Whatever number the vendor reports for [colorRgb] (negative, huge,
    fractional, not a number), the decoded components are integers
    between 0 and 255. *)
Theorem decoded_color_is_bytes (caps : list CapabilityState) (v : Rgb) :
  st_color (decode_state host caps) = Some v -> byte_Rgb v.
Proof.
  unfold decode_state.
  assert (Hgen : forall st,
    (forall u, st_color st = Some u -> byte_Rgb u) ->
    st_color (fold_left (decode_capability host) caps st) = Some v -> byte_Rgb v).
  { induction caps as [|c caps IH]; intros st Hst; simpl; [apply Hst|].
    apply IH. intros u. unfold decode_capability.
    destruct (String.eqb (cs_type c) "devices.capabilities.on_off"),
      (String.eqb (cs_type c) "devices.capabilities.range"),
      (String.eqb (cs_type c) "devices.capabilities.color_setting"),
      (String.eqb (cs_instance c) "brightness"),
      (String.eqb (cs_instance c) "colorRgb"),
      (String.eqb (cs_instance c) "colorTemperatureK");
      cbn; try apply Hst;
      intros [= <-]; eexists _, _, _; (split; [reflexivity|]);
      repeat split; apply js_and_255. }
  apply Hgen. intros u. discriminate.
Qed.

(** [getState] has no branch for scenes: whatever the vendor reports, the
    decoded state has no [scene]. *)
Theorem decoded_scene_absent (caps : list CapabilityState) :
  st_scene (decode_state host caps) = None.
Proof.
  unfold decode_state.
  assert (Hgen : forall st, st_scene st = None ->
    st_scene (fold_left (decode_capability host) caps st) = None).
  { induction caps as [|c caps IH]; intros st Hst; simpl; [exact Hst|].
    apply IH. unfold decode_capability.
    destruct (String.eqb (cs_type c) "devices.capabilities.on_off"),
      (String.eqb (cs_type c) "devices.capabilities.range"),
      (String.eqb (cs_type c) "devices.capabilities.color_setting"),
      (String.eqb (cs_instance c) "brightness"),
      (String.eqb (cs_instance c) "colorRgb"),
      (String.eqb (cs_instance c) "colorTemperatureK"); cbn; exact Hst. }
  now apply Hgen.
Qed.

End Decoder.

Lemma decode_skips_unrecognized_witness :
  decode_state demo_host
    ([mkCapabilityState "devices.capabilities.on_off" "powerSwitch" (JNumber 1)]
     ++ mkCapabilityState "devices.capabilities.toggle" "gradientToggle" (JNumber 0)
        :: [mkCapabilityState "devices.capabilities.range" "brightness" (JNumber 40)])
  = decode_state demo_host
      ([mkCapabilityState "devices.capabilities.on_off" "powerSwitch" (JNumber 1)]
       ++ [mkCapabilityState "devices.capabilities.range" "brightness" (JNumber 40)]).
Proof.
  apply (decode_skips_unrecognized demo_host). reflexivity.
Defined.

Lemma decoded_color_is_bytes_witness : byte_Rgb (mkRgb 255 255 254).
Proof.
  apply (decoded_color_is_bytes demo_host
           [mkCapabilityState "devices.capabilities.color_setting" "colorRgb"
              (JNumber (-2))]).
  reflexivity.
Defined.

(** ** [control]: the encoding table *)

Lemma Qtrunc_byte (q : Q) : (0 <= q)%Q -> (q <= 255)%Q -> 0 <= Qtrunc q <= 255.
Proof.
  intros H0 H255. unfold Qtrunc.
  replace (Qle_bool 0 q) with true by (symmetry; now apply Qle_bool_iff).
  split.
  - change 0 with (Qfloor 0). now apply Qfloor_resp_le.
  - change 255 with (Qfloor 255). now apply Qfloor_resp_le.
Qed.

Lemma capability_of_color_trunc (v : Rgb) :
  capability_of (color v)
  = capability_of (color (mkRgb (inject_Z (Qtrunc (r v))) (inject_Z (Qtrunc (g v)))
                            (inject_Z (Qtrunc (b v))))).
Proof.
  unfold capability_of, js_shl, ToInt32. cbn [r g b].
  now rewrite !Qtrunc_inject_Z.
Qed.

(** The bit operators of the colour encoding drop the fraction of each
    component: for components between 0 and 255, integral or not, the
    packed value is built from the components rounded toward zero (the
    colour tools, unlike brightness, do not call [Math.round]). *)
Theorem color_packs_truncations (v : Rgb) :
  (0 <= r v)%Q /\ (r v <= 255)%Q -> (0 <= g v)%Q /\ (g v <= 255)%Q ->
  (0 <= b v)%Q /\ (b v <= 255)%Q ->
  capability_of (color v)
  = mkCapability "devices.capabilities.color_setting" "colorRgb"
      (JNumber (inject_Z (Qtrunc (r v) * 65536 + Qtrunc (g v) * 256 + Qtrunc (b v)))).
Proof.
  intros [Hr0 Hr] [Hg0 Hg] [Hb0 Hb]. rewrite capability_of_color_trunc.
  apply encode_color; now apply Qtrunc_byte.
Qed.

(** No two kinds of command share a capability address: the pair
    (type, instance) of the envelope determines the kind of the command. *)
Theorem envelope_address_determines_kind (c1 c2 : ControlCmd) :
  type (capability_of c1) = type (capability_of c2) ->
  instance (capability_of c1) = instance (capability_of c2) ->
  cmd_name c1 = cmd_name c2.
Proof. destruct c1, c2; cbn; intros Ht Hi; try reflexivity; discriminate. Qed.

(** ** [Math.round] in the write tools *)

Lemma Math_round_int (z : Z) : Math_round (inject_Z z) = z.
Proof.
  unfold Math_round.
  assert (Hlo : (inject_Z z <= inject_Z z + (1 # 2))%Q) by lra.
  assert (Hhi : (inject_Z z + (1 # 2) < inject_Z (z + 1))%Q).
  { rewrite inject_Z_plus. change (inject_Z 1) with 1%Q. lra. }
  apply Qfloor_resp_le in Hlo. rewrite Qfloor_Z in Hlo.
  pose proof (Qfloor_le (inject_Z z + (1 # 2))) as Hfl.
  assert (Hlt : (inject_Z (Qfloor (inject_Z z + (1 # 2))) < inject_Z (z + 1))%Q) by lra.
  rewrite <- Zlt_Qlt in Hlt. lia.
Qed.

(** Rounding keeps a value inside the integer bounds it was inside: a
    percent accepted between 0 and 100 is sent as an integer between 0
    and 100, a Kelvin value between 1000 and 10000 likewise; integers are
    sent unchanged. *)
Theorem Math_round_in_range (lo hi : Z) (x : Q) :
  (inject_Z lo <= x)%Q -> (x <= inject_Z hi)%Q ->
  lo <= Math_round x <= hi
  /\ (forall z, x = inject_Z z -> Math_round x = z).
Proof.
  intros Hlo Hhi. split; [|intros z ->; apply Math_round_int].
  unfold Math_round. split.
  - assert (H : (inject_Z lo <= x + (1 # 2))%Q) by lra.
    apply Qfloor_resp_le in H. now rewrite Qfloor_Z in H.
  - pose proof (Qfloor_le (x + (1 # 2))) as Hfl.
    assert (Hlt : (inject_Z (Qfloor (x + (1 # 2))) < inject_Z (hi + 1))%Q).
    { rewrite inject_Z_plus. change (inject_Z 1) with 1%Q. lra. }
    rewrite <- Zlt_Qlt in Hlt. lia.
Qed.

Lemma color_packs_truncations_witness :
  capability_of (color (mkRgb (21 # 2) (41 # 2) (61 # 2)))
  = mkCapability "devices.capabilities.color_setting" "colorRgb" (JNumber 660510).
Proof.
  apply (color_packs_truncations (mkRgb (21 # 2) (41 # 2) (61 # 2)));
    split; apply Qle_bool_iff; reflexivity.
Defined.

Lemma envelope_address_determines_kind_witness :
  cmd_name (colorTem 2700) = cmd_name (colorTem 6500).
Proof.
  apply (envelope_address_determines_kind (colorTem 2700) (colorTem 6500)); reflexivity.
Defined.

Lemma Math_round_in_range_witness :
  0 <= Math_round (199 # 2) <= 100
  /\ (forall z, (199 # 2)%Q = inject_Z z -> Math_round (199 # 2) = z).
Proof.
  apply (Math_round_in_range 0 100 (199 # 2)); apply Qle_bool_iff; reflexivity.
Defined.

(** ** [batch]: coalescing and grouping *)

Lemma Map_get_absent {V} (k : string) (m : list (string * V)) :
  k ∉ map fst m -> Map_get k m = None.
Proof.
  induction m as [|[k' v'] m IH]; simpl; intros Hout; [done|].
  rewrite not_elem_of_cons in Hout. destruct Hout as [Hne Hout].
  destruct (String.eqb_spec k k'); [congruence | now apply IH].
Qed.

Lemma Map_get_present {V} (k : string) (v : V) (m : list (string * V)) :
  NoDup (map fst m) -> (k, v) ∈ m -> Map_get k m = Some v.
Proof.
  induction m as [|[k' v'] m IH]; simpl; intros Hnd Hin.
  - now apply elem_of_nil in Hin.
  - apply NoDup_cons in Hnd as [Hk' Hnd].
    apply elem_of_cons in Hin as [[= <- <-]|Hin].
    + now rewrite String.eqb_refl.
    + destruct (String.eqb_spec k k') as [->|Hne]; [|now apply IH].
      exfalso. apply Hk'. change (map fst m) with (fst <$> m).
      apply list_elem_of_fmap. now exists (k', v).
Qed.

Lemma filter_none {A} (P : A -> Prop) `{!forall x, Decision (P x)} (l : list A) :
  (forall x, x ∈ l -> ~ P x) -> filter P l = [].
Proof.
  induction l as [|a l IH]; intros Hno; [reflexivity|].
  rewrite filter_cons_False by (apply Hno; now left).
  apply IH. intros x Hx. apply Hno. now right.
Qed.

Lemma coalesce_entries (l p : list BatchItem) (m : list (string * BatchItem)) :
  Forall (fun e => snd e ∈ l /\ fst e = key (snd e)) m ->
  (forall x, x ∈ p -> x ∈ l) ->
  Forall (fun e => snd e ∈ l /\ fst e = key (snd e))
    (fold_left (fun m it => Map_set (key it) it m) p m).
Proof.
  revert m. induction p as [|x p IH]; intros m Hm Hp; simpl; [exact Hm|].
  apply IH.
  - apply Map_set_Forall; [|exact Hm]. simpl. split; [|reflexivity].
    apply Hp. now left.
  - intros y Hy. apply Hp. now right.
Qed.

Lemma coalesce_identity (l : list BatchItem) :
  NoDup (map key l) -> coalesce l = l.
Proof.
  intros Hnd. unfold coalesce.
  enough (fold_left (fun m it => Map_set (key it) it m) l []
          = map (fun x => (key x, x)) l) as -> by (rewrite map_map; apply map_id).
  induction l as [|x l IH] using rev_ind; [reflexivity|].
  rewrite map_app in Hnd. apply NoDup_app in Hnd as (Hl & Hx & _).
  rewrite fold_left_app. simpl. rewrite IH by exact Hl.
  rewrite Map_set_absent; [now rewrite map_app|].
  rewrite map_map. simpl. intros Hin. apply (Hx (key x)); [exact Hin|]. now left.
Qed.

(** Coalescing only selects: every survivor is an item of the batch, no
    two survivors have the same key string, and coalescing again changes
    nothing (a batch with no repeated key is left as it is). *)
Theorem coalesce_selects (l : list BatchItem) :
  (forall x, x ∈ coalesce l -> x ∈ l)
  /\ NoDup (map key (coalesce l))
  /\ coalesce (coalesce l) = coalesce l
  /\ (length (coalesce l) <= length l)%nat.
Proof.
  pose proof (coalesce_entries l l [] (Forall_nil_2 _) (fun x H => H)) as Hent.
  assert (Hkeys : map key (coalesce l) = map key (first_of_key key l)).
  { unfold coalesce. rewrite map_map.
    transitivity (map fst (fold_left (fun m it => Map_set (key it) it m) l [])).
    - apply map_ext_in. intros e He. apply list_elem_of_In in He.
      eapply Forall_forall in Hent; [|exact He]. symmetry. apply Hent.
    - rewrite coalesce_fold, map_map. reflexivity. }
  assert (Hnd : NoDup (map key (coalesce l))).
  { rewrite Hkeys. apply first_of_key_NoDup. }
  split; [|split; [exact Hnd|split]].
  - intros x Hx. unfold coalesce in Hx.
    change (map snd ?m) with (snd <$> m) in Hx.
    apply list_elem_of_fmap in Hx as (e & -> & He).
    eapply Forall_forall in Hent; [|exact He]. apply Hent.
  - now apply coalesce_identity.
  - assert (Hlen : length (coalesce l) = length (map key (first_of_key key l)))
      by (now rewrite <- Hkeys, length_map).
    rewrite Hlen, length_map.
    clear. induction l as [|x l IH]; simpl; [lia|].
    pose proof (length_filter (fun y => key y <> key x) (first_of_key key l)). lia.
Qed.

Lemma group_fold (p : list BatchItem) :
  group_by_device p
  = map (fun z => (item_deviceId z,
                   filter (fun it => item_deviceId it = item_deviceId z) p))
        (first_of_key item_deviceId p).
Proof.
  unfold group_by_device.
  induction p as [|x p IH] using rev_ind; [reflexivity|].
  rewrite fold_left_app. simpl. rewrite IH. clear IH.
  rewrite first_of_key_snoc.
  pose (G := fun (q : list BatchItem) z =>
               (item_deviceId z,
                filter (fun it => item_deviceId it = item_deviceId z) q)).
  change (map (fun z => (item_deviceId z, filter _ p)) ?zs) with (map (G p) zs).
  change (map (fun z => (item_deviceId z, filter _ (p ++ [x]))) ?zs)
    with (map (G (p ++ [x])) zs).
  assert (Hkeys : map fst (map (G p) (first_of_key item_deviceId p))
                  = map item_deviceId (first_of_key item_deviceId p))
    by (now rewrite map_map).
  destruct (decide (item_deviceId x ∈ map item_deviceId p)) as [Hin|Hout].
  - assert (Hz : exists z, z ∈ first_of_key item_deviceId p
                   /\ item_deviceId z = item_deviceId x).
    { apply first_of_key_keys in Hin. change (map ?f ?l) with (f <$> l) in Hin.
      apply list_elem_of_fmap in Hin as (z & Hz & Hzin). eauto. }
    destruct Hz as (z & Hzin & Hzx).
    rewrite (Map_get_present (item_deviceId x)
               (filter (fun it => item_deviceId it = item_deviceId x) p)).
    + rewrite Map_set_present.
      * rewrite app_nil_r, map_map. apply map_ext. intros y. unfold G. simpl.
        rewrite filter_app.
        destruct (decide (item_deviceId y = item_deviceId x)) as [Heq|Hne].
        -- rewrite Heq. f_equal. f_equal.
           rewrite filter_cons_True by reflexivity. reflexivity.
        -- f_equal. rewrite filter_cons_False by congruence.
           now rewrite filter_nil, app_nil_r.
      * rewrite Hkeys. apply first_of_key_NoDup.
      * rewrite Hkeys. now apply first_of_key_keys.
    + rewrite Hkeys. apply first_of_key_NoDup.
    + change (map ?f ?l) with (f <$> l). apply list_elem_of_fmap.
      exists z. split; [|exact Hzin]. unfold G. now rewrite Hzx.
  - rewrite Map_get_absent by (rewrite Hkeys; now rewrite first_of_key_keys).
    rewrite Map_set_absent by (rewrite Hkeys; now rewrite first_of_key_keys).
    rewrite map_app. simpl. f_equal.
    + apply map_ext_in. intros y Hy. unfold G. f_equal.
      rewrite filter_app, filter_cons_False, filter_nil, app_nil_r; [reflexivity|].
      intros Heq. apply Hout. rewrite Heq.
      apply list_elem_of_In, first_of_key_elem in Hy.
      change (map ?f ?l) with (f <$> l). apply list_elem_of_fmap. eauto.
    + unfold G. f_equal. f_equal. rewrite filter_app, filter_cons_True by reflexivity.
      rewrite filter_nil. simpl.
      replace (filter (fun it => item_deviceId it = item_deviceId x) p) with (@nil BatchItem);
        [reflexivity|].
      symmetry. apply filter_none.
      intros y Hy Heq. apply Hout. rewrite <- Heq.
      change (map ?f ?l) with (f <$> l). apply list_elem_of_fmap. eauto.
Qed.

Lemma group_concat_step (it : BatchItem) (m : list (string * list BatchItem)) :
  concat (map snd (Map_set (item_deviceId it)
                     (default [] (Map_get (item_deviceId it) m) ++ [it]) m))
  ≡ₚ it :: concat (map snd m).
Proof.
  induction m as [|[k v] m IH]; simpl; [reflexivity|].
  destruct (String.eqb (item_deviceId it) k); simpl.
  - rewrite <- app_assoc. simpl.
    rewrite <- Permutation_middle. reflexivity.
  - destruct (Map_get (item_deviceId it) m) eqn:Hget; simpl in *.
    + rewrite IH. symmetry. apply Permutation_middle.
    + rewrite IH. symmetry. apply Permutation_middle.
Qed.

Lemma group_by_device_concat (l : list BatchItem) :
  concat (map snd (group_by_device l)) ≡ₚ l.
Proof.
  unfold group_by_device. induction l as [|x l IH] using rev_ind; [reflexivity|].
  rewrite fold_left_app. simpl. rewrite group_concat_step, IH.
  apply Permutation_cons_append.
Qed.

(** Grouping by device: the groups stand in the order in which the
    devices first appear, each group holds exactly the commands of its
    device in their batch order, no group is empty, and together the
    groups hold every command exactly once. *)
Theorem group_by_device_partitions (l : list BatchItem) :
  group_by_device l
  = map (fun z => (item_deviceId z,
                   filter (fun it => item_deviceId it = item_deviceId z) l))
        (first_of_key item_deviceId l)
  /\ NoDup (map fst (group_by_device l))
  /\ Forall (fun gr => snd gr <> []) (group_by_device l)
  /\ concat (map snd (group_by_device l)) ≡ₚ l.
Proof.
  split; [apply group_fold|]. split; [|split].
  - rewrite group_fold, map_map. apply first_of_key_NoDup.
  - apply group_by_device_groups.
  - apply group_by_device_concat.
Qed.

(** ** [take]: the passes that refuse *)

Section Take_more.
Variable host : Host.

Lemma take_iter_refuses (t : Z) (l : TokenBucketLimiter) :
  (tokens l + inject_Z (t - last l) / 1000 * refillRatePerSec l < 1)%Q ->
  snd (take_iter t l) = false.
Proof.
  intros Hlt. unfold take_iter.
  destruct (Qle_bool 1 _) eqn:Hb; [|reflexivity].
  apply Qle_bool_iff in Hb.
  pose proof (Q.le_min_r (capacity l)
                (tokens l + inject_Z (t - last l) / 1000 * refillRatePerSec l)) as Hmin.
  lra.
Qed.

Lemma take_iter_grants_tokens (t : Z) (l : TokenBucketLimiter) :
  snd (take_iter t l) = true ->
  (tokens (fst (take_iter t l))
   == Qmin (capacity l) (tokens l + inject_Z (t - last l) / 1000 * refillRatePerSec l)
      - 1)%Q.
Proof.
  unfold take_iter. destruct (Qle_bool 1 _); [|discriminate]. intros _. reflexivity.
Qed.

Lemma refill_at_shift (w : World) (n : nat) (tr : list Event) :
  (1 <= capacity (limiter w))%Q ->
  snd (take_iter (Date_now host (ticks w)) (limiter w)) = false ->
  (refill_at host
     (mkWorld (fst (take_iter (Date_now host (ticks w)) (limiter w)))
        (S (ticks w)) (inbox w) tr) n
   == refill_at host w n)%Q.
Proof.
  intros Hcap Hg. unfold refill_at. cbn [limiter].
  rewrite take_iter_rate, take_iter_last.
  rewrite (take_iter_refused _ _ Hcap Hg).
  rewrite !inject_Z_sub. field.
Qed.

Lemma take_loop_waits (n : nat) : forall w,
  (1 <= capacity (limiter w))%Q ->
  (forall k, (k < n)%nat -> (refill_at host w (ticks w + k) < 1)%Q) ->
  exists w',
    take_loop host n w = (w', Pending)
    /\ trace w' = trace w ++ repeat (EvTimeout 50) n
    /\ ticks w' = (ticks w + n)%nat /\ inbox w' = inbox w
    /\ capacity (limiter w') = capacity (limiter w)
    /\ forall m, (refill_at host w' m == refill_at host w m)%Q.
Proof.
  induction n as [|n IH]; intros w Hcap Hlow.
  - exists w. simpl. rewrite app_nil_r, Nat.add_0_r. repeat split; auto; try reflexivity.
  - assert (Hg : snd (take_iter (Date_now host (ticks w)) (limiter w)) = false).
    { apply take_iter_refuses. specialize (Hlow 0%nat ltac:(lia)).
      now rewrite Nat.add_0_r in Hlow. }
    set (w1 := mkWorld (fst (take_iter (Date_now host (ticks w)) (limiter w)))
                 (S (ticks w)) (inbox w) (trace w ++ [EvTimeout 50])).
    destruct (IH w1) as (w' & Hrun & Htr & Hti & Hin & Hcap' & Href).
    + unfold w1. cbn [limiter]. now rewrite take_iter_capacity.
    + intros k Hk. unfold w1 at 2. cbn [ticks].
      unfold w1. rewrite (refill_at_shift w _ _ Hcap Hg).
      replace (S (ticks w) + k)%nat with (ticks w + S k)%nat by lia.
      apply Hlow. lia.
    + exists w'. rewrite take_loop_S. cbv zeta. rewrite Hg. fold w1.
      split; [exact Hrun|]. split.
      { rewrite Htr. unfold w1. cbn [trace]. now rewrite <- app_assoc. }
      split; [rewrite Hti; unfold w1; cbn [ticks]; lia|].
      split; [rewrite Hin; reflexivity|].
      split; [rewrite Hcap'; unfold w1; cbn [limiter]; apply take_iter_capacity|].
      intros m. rewrite Href. unfold w1. apply (refill_at_shift w _ _ Hcap Hg).
Qed.

End Take_more.

(** ** A burst on a clock that stands still *)

Section Burst.
Variable cfg : Config.
Variable host : Host.
Hypothesis Hfrozen : forall n, Date_now host n = Date_now host 0%nat.

Lemma take_first_pass (fuel : nat) (w : World) :
  snd (take_iter (Date_now host (ticks w)) (limiter w)) = true ->
  take host (S fuel) w
  = (mkWorld (fst (take_iter (Date_now host (ticks w)) (limiter w)))
       (S (ticks w)) (inbox w) (trace w ++ [EvTake; EvToken]), Done tt).
Proof.
  intros Hg. unfold take, bind at 1. unfold emit at 1.
  rewrite take_loop_S. cbv zeta. cbn [limiter ticks inbox trace].
  rewrite Hg. now rewrite <- app_assoc.
Qed.

Lemma burst_state (fuel k : nat) (responses : list HttpResponse) :
  Z.of_nat k <= Qfloor (Qmax 1 (GOVEE_RATE_RPS cfg)) ->
  let wk := take_times host (S fuel) k (boot cfg host responses) in
  trace wk = concat (repeat [EvTake; EvToken] k)
  /\ capacity (limiter wk) = Qmax 1 (GOVEE_RATE_RPS cfg)
  /\ refillRatePerSec (limiter wk) = GOVEE_RATE_RPS cfg
  /\ last (limiter wk) = Date_now host 0%nat
  /\ (tokens (limiter wk) == Qmax 1 (GOVEE_RATE_RPS cfg) - inject_Z (Z.of_nat k))%Q.
Proof.
  induction k as [|k IH]; intros Hk wk.
  - subst wk. simpl. repeat split. change (inject_Z 0) with 0%Q. ring.
  - destruct IH as (Htr & Hcap & Hrate & Hlast & Htok); [lia|].
    subst wk. cbn [take_times].
    set (w := take_times host (S fuel) k (boot cfg host responses)) in *.
    assert (Hle : (inject_Z (Z.of_nat (S k)) <= Qmax 1 (GOVEE_RATE_RPS cfg))%Q).
    { eapply Qle_trans; [|apply Qfloor_le]. rewrite <- Zle_Qle. exact Hk. }
    rewrite Nat2Z.inj_succ in Hle. unfold Z.succ in Hle. rewrite inject_Z_plus in Hle.
    change (inject_Z 1) with 1%Q in Hle.
    assert (Hel : (inject_Z (Date_now host (ticks w) - last (limiter w)) / 1000 == 0)%Q).
    { rewrite Hlast, Hfrozen, Z.sub_diag. reflexivity. }
    assert (Hsum : (tokens (limiter w)
                    + inject_Z (Date_now host (ticks w) - last (limiter w)) / 1000
                      * refillRatePerSec (limiter w)
                    == Qmax 1 (GOVEE_RATE_RPS cfg) - inject_Z (Z.of_nat k))%Q).
    { rewrite Hel, Htok. ring. }
    assert (Hg : snd (take_iter (Date_now host (ticks w)) (limiter w)) = true).
    { apply take_iter_granted; [rewrite Hcap; apply Q.le_max_l|]. rewrite Hsum. lra. }
    rewrite (take_first_pass fuel w Hg). cbn [fst limiter trace].
    rewrite take_iter_capacity, take_iter_rate, take_iter_last.
    split; [|split; [exact Hcap|split; [exact Hrate|split; [apply Hfrozen|]]]].
    + rewrite Htr. replace (S k) with (k + 1)%nat by lia.
      rewrite repeat_app, concat_app. simpl. reflexivity.
    + rewrite (take_iter_grants_tokens _ _ Hg), Hsum, Hcap.
      rewrite Q.min_r.
      * rewrite Nat2Z.inj_succ. unfold Z.succ. rewrite inject_Z_plus.
        change (inject_Z 1) with 1%Q. ring.
      * assert (H0 : (0 <= inject_Z (Z.of_nat k))%Q)
          by (change 0%Q with (inject_Z 0); rewrite <- Zle_Qle; lia).
        lra.
Qed.

(** With no time passing, the bucket hands out its capacity and no more:
    from start-up, the first [floor (max 1 rps)] calls of [take] each
    return in their first pass, without sleeping, and the next call does
    not return however long it polls. *)
Theorem burst_then_block (fuel k : nat) (responses : list HttpResponse) :
  Z.of_nat k <= Qfloor (Qmax 1 (GOVEE_RATE_RPS cfg)) ->
  let wk := take_times host (S fuel) k (boot cfg host responses) in
  trace wk = concat (repeat [EvTake; EvToken] k)
  /\ (Z.of_nat k = Qfloor (Qmax 1 (GOVEE_RATE_RPS cfg)) ->
      forall fuel', snd (take host fuel' wk) = Pending
                    /\ tokens_consumed (trace (fst (take host fuel' wk))) = k).
Proof.
  intros Hk wk. destruct (burst_state fuel k responses Hk)
    as (Htr & Hcap & Hrate & Hlast & Htok). fold wk in Htr, Hcap, Hrate, Hlast, Htok.
  split; [exact Htr|]. intros Hfull fuel'.
  set (w0 := mkWorld (limiter wk) (ticks wk) (inbox wk) (trace wk ++ [EvTake])).
  destruct (take_loop_waits host fuel' w0) as (w' & Hrun & Htr' & _).
  - unfold w0. cbn [limiter]. rewrite Hcap. apply Q.le_max_l.
  - intros j Hj. unfold refill_at, w0. cbn [limiter ticks].
    rewrite Hlast, Hfrozen, Z.sub_diag, Htok, Hfull.
    pose proof (Qlt_floor (Qmax 1 (GOVEE_RATE_RPS cfg))) as Hfl.
    rewrite inject_Z_plus in Hfl. change (inject_Z 1) with 1%Q in Hfl.
    assert (H0 : (inject_Z 0 / 1000 == 0)%Q) by reflexivity.
    rewrite H0. lra.
  - change (take host fuel' wk) with (take_loop host fuel' w0).
    rewrite Hrun. cbn [fst snd]. split; [reflexivity|].
    rewrite Htr'. unfold w0. cbn [trace]. rewrite Htr, !tokens_consumed_app.
    assert (Hq : tokens_consumed (repeat (EvTimeout 50) fuel') = 0%nat).
    { clear. induction fuel' as [|n IH]; [reflexivity | exact IH]. }
    rewrite Hq. clear. unfold tokens_consumed at 2. simpl.
    induction k as [|k IH]; [reflexivity|].
    simpl. unfold tokens_consumed in *. simpl. lia.
Qed.

End Burst.

(** ** The single-device tools end to end *)

Section Single_device.
Variable cfg : Config.
Variable host : Host.

Lemma Cloud_control_refused (ref : DeviceRef) (c : ControlCmd) (w : World) res rest :
  DRY_RUN cfg = false -> inbox w = res :: rest -> ok res = false ->
  exists w', Cloud_control cfg host ref c w = (w', Throw (api_error host res))
    /\ inbox w' = rest
    /\ exists req, trace w' = trace w ++ [EvFetch req].
Proof.
  intros Hdry Hin Hok. unfold Cloud_control. rewrite Hdry.
  unfold bind at 1. unfold now. unfold bind at 1. unfold post.
  assert (Hin' : inbox (mkWorld (limiter w) (S (ticks w)) (inbox w) (trace w))
                 = res :: rest) by exact Hin.
  rewrite (bind_Done _ _ _ _ _ (fetch_head _ _ _ _ Hin')).
  rewrite Hok. cbn [negb]. unfold throw. eexists. split; [reflexivity|].
  cbn [inbox trace]. eauto.
Qed.

Lemma Cloud_getState_ok (ref : DeviceRef) (w : World) res rest j :
  inbox w = res :: rest -> ok res = true -> json res = inl j ->
  Cloud_getState cfg host ref w
  = (mkWorld (limiter w) (ticks w) rest
       (trace w ++ [EvFetch (state_request cfg (deviceId ref) (model ref))]),
     Done (decode_state host (default [] (data_capabilities j)))).
Proof.
  intros Hin Hok Hjson. unfold Cloud_getState.
  rewrite (bind_Done _ _ _ _ _ (post_ok cfg host _ _ _ _ _ _ Hin Hok Hjson)).
  reflexivity.
Qed.

Lemma Cloud_getState_refused (ref : DeviceRef) (w : World) res rest :
  inbox w = res :: rest -> ok res = false ->
  exists w', Cloud_getState cfg host ref w = (w', Throw (api_error host res))
    /\ inbox w' = rest
    /\ exists req, trace w' = trace w ++ [EvFetch req].
Proof.
  intros Hin Hok. unfold Cloud_getState, post.
  unfold bind at 1. rewrite (bind_Done _ _ _ _ _ (fetch_head _ _ _ _ Hin)).
  rewrite Hok. cbn [negb]. unfold throw. eexists. split; [reflexivity|].
  cbn [inbox trace]. eauto.
Qed.

(** One [take] and then [k], when the limiter is ready: the outcome of
    [k] in the world that [take] leaves, with one token gone. *)
Lemma after_take_run {A} (k : M A) (w : World) :
  ready host w ->
  exists fuel0 w1,
    (forall fuel, (fuel0 <= fuel)%nat -> bind (take host fuel) (fun _ => k) w = k w1)
    /\ inbox w1 = inbox w
    /\ fetches (trace w1) = fetches (trace w)
    /\ tokens_consumed (trace w1) = S (tokens_consumed (trace w)).
Proof.
  intros Hready.
  destruct (after_take host k w Hready)
    as (fuel0 & w1 & Hrun & Hin & evs & Htr & Hfe & _ & Hk).
  exists fuel0, w1. repeat split; auto.
  - now rewrite Htr, fetches_app, Hfe, app_nil_r.
  - rewrite Htr, tokens_consumed_app. lia.
Qed.

Lemma write_run_ok (ref : DeviceRef) (c : ControlCmd) (X : Content) (w : World)
    res rest j :
  DRY_RUN cfg = false -> ready host w ->
  inbox w = res :: rest -> ok res = true -> json res = inl j ->
  exists fuel0, forall fuel, (fuel0 <= fuel)%nat -> exists rid,
    let rn := bind (take host fuel)
                 (fun _ => bind (Cloud_control cfg host ref c) (fun _ => ret X)) w in
    snd rn = Done X
    /\ fetches (trace (fst rn))
       = fetches (trace w)
         ++ [control_request cfg rid (deviceId ref) (model ref) (capability_of c)]
    /\ inbox (fst rn) = rest
    /\ tokens_consumed (trace (fst rn)) = S (tokens_consumed (trace w)).
Proof.
  intros Hdry Hready Hin Hok Hjson.
  destruct (after_take_run (bind (Cloud_control cfg host ref c) (fun _ => ret X)) w Hready)
    as (fuel0 & w1 & Hrun & Hin1 & Hfe & Hk).
  rewrite Hin in Hin1.
  exists fuel0. intros fuel Hf. eexists. cbv zeta. rewrite (Hrun fuel Hf).
  rewrite (bind_Done _ _ _ _ _ (Cloud_control_sent cfg host _ _ _ _ _ _ Hdry Hin1 Hok Hjson)).
  unfold ret. cbn [fst snd trace inbox].
  rewrite fetches_app, tokens_consumed_app, Hfe, Hk. repeat split.
  unfold tokens_consumed at 2. simpl. lia.
Qed.

(** A write through the cloud: for an allowed device, with the LAN flag
    and dry-run off and the vendor accepting, each of [set_power],
    [set_brightness], [set_color], [set_color_temp] and [set_scene] posts
    exactly one control request, for the device and model it was given,
    carrying the encoding of its command; it consumes that one response
    and one token and reports success. *)
Theorem write_posts_command (call : ToolCall) (id : string) (c : ControlCmd)
    (w : World) (res : HttpResponse) (rest : list HttpResponse) (j : Json) :
  single_device call = Some id -> command_of call = Some c ->
  isAllowed cfg id = true -> lanEnabled cfg = false -> DRY_RUN cfg = false ->
  ready host w -> inbox w = res :: rest -> ok res = true -> json res = inl j ->
  exists fuel0, forall fuel sched, (fuel0 <= fuel)%nat -> exists rid msg,
    snd (handler cfg host fuel sched call w) = Done (Text msg)
    /\ fetches (trace (fst (handler cfg host fuel sched call w)))
       = fetches (trace w)
         ++ [control_request cfg rid id (model_of call) (capability_of c)]
    /\ inbox (fst (handler cfg host fuel sched call w)) = rest
    /\ tokens_consumed (trace (fst (handler cfg host fuel sched call w)))
       = S (tokens_consumed (trace w)).
Proof.
  intros Hcall Hcmd Hallow Hlan Hdry Hready Hin Hok Hjson.
  destruct call; simpl in Hcall, Hcmd; try discriminate;
    injection Hcall as ->; injection Hcmd as <-;
    cbn [handler model_of];
    unfold govee_set_power, govee_set_brightness, govee_set_color,
      govee_set_color_temp, govee_set_scene, pickAdapter;
    rewrite Hallow, Hlan; cbn [negb control];
    match goal with
    | |- context [bind (Cloud_control cfg host ?ref ?c) (fun _ => ret (Text ?m))] =>
        destruct (write_run_ok ref c (Text m) w res rest j Hdry Hready Hin Hok Hjson)
          as (fuel0 & Hrun);
        exists fuel0; intros fuel sched Hf;
        destruct (Hrun fuel Hf) as (rid & Hres);
        exists rid, m; exact Hres
    end.
Qed.

(** Reading a state is not a write: with dry-run set or not, [get_state]
    for an allowed device posts exactly one state query with the given
    [sku] and [device], and returns what the decoder makes of
    [data.capabilities] (nothing, when the field is missing). *)
Theorem get_state_queries_vendor (id model_ : string) (w : World)
    (res : HttpResponse) (rest : list HttpResponse) (j : Json) :
  isAllowed cfg id = true -> lanEnabled cfg = false ->
  ready host w -> inbox w = res :: rest -> ok res = true -> json res = inl j ->
  exists fuel0, forall fuel, (fuel0 <= fuel)%nat ->
    snd (govee_get_state cfg host fuel id model_ w)
    = Done (JsonState (decode_state host (default [] (data_capabilities j))))
    /\ fetches (trace (fst (govee_get_state cfg host fuel id model_ w)))
       = fetches (trace w) ++ [state_request cfg id model_]
    /\ inbox (fst (govee_get_state cfg host fuel id model_ w)) = rest.
Proof.
  intros Hallow Hlan Hready Hin Hok Hjson.
  unfold govee_get_state, pickAdapter. rewrite Hallow, Hlan. cbn [negb getState].
  match goal with |- context [bind (take host _) (fun _ => ?k)] =>
    destruct (after_take_run k w Hready) as (fuel0 & w1 & Hrun & Hin1 & Hfe & _) end.
  rewrite Hin in Hin1. exists fuel0. intros fuel Hf. rewrite (Hrun fuel Hf).
  rewrite (bind_Done _ _ _ _ _ (Cloud_getState_ok _ _ _ _ _ Hin1 Hok Hjson)).
  unfold ret. cbn [fst snd trace inbox deviceId model].
  now rewrite fetches_app, Hfe.
Qed.

(** A refusal of the vendor ends the tool call with the status error:
    for every single-device tool (the read included) on an allowed
    device, with the LAN flag and dry-run off, a response outside 200-299
    makes the tool body, which is the callback of the registered tool
    whenever the arguments pass its schema, throw the error built from the
    status alone; the request was sent once and the token is spent all
    the same. *)
Theorem refusal_ends_tool_call (call : ToolCall) (id : string) (w : World)
    (res : HttpResponse) (rest : list HttpResponse) :
  single_device call = Some id ->
  isAllowed cfg id = true -> lanEnabled cfg = false -> DRY_RUN cfg = false ->
  ready host w -> inbox w = res :: rest -> ok res = false ->
  exists fuel0, forall fuel sched, (fuel0 <= fuel)%nat ->
    snd (handler cfg host fuel sched call w)
    = Throw (Error ("Govee API error " +:+ pretty (status res) +:+ ": Request failed"))
    /\ (inputSchema call = true ->
        registered_call cfg host fuel sched call w = handler cfg host fuel sched call w)
    /\ length (fetches (trace (fst (handler cfg host fuel sched call w))))
       = S (length (fetches (trace w)))
    /\ tokens_consumed (trace (fst (handler cfg host fuel sched call w)))
       = S (tokens_consumed (trace w)).
Proof.
  intros Hcall Hallow Hlan Hdry Hready Hin Hok.
  assert (Hgen : forall (k : M Content),
    (forall w1, inbox w1 = res :: rest ->
       exists w', k w1 = (w', Throw (api_error host res))
         /\ exists req, trace w' = trace w1 ++ [EvFetch req]) ->
    exists fuel0, forall fuel, (fuel0 <= fuel)%nat ->
      exists w', bind (take host fuel) (fun _ => k) w = (w', Throw (api_error host res))
        /\ length (fetches (trace w')) = S (length (fetches (trace w)))
        /\ tokens_consumed (trace w') = S (tokens_consumed (trace w))).
  { intros k Hk.
    destruct (after_take_run k w Hready) as (fuel0 & w1 & Hrun & Hin1 & Hfe & Htk).
    rewrite Hin in Hin1. destruct (Hk w1 Hin1) as (w' & Hkw & req & Htr).
    exists fuel0. intros fuel Hf. exists w'. rewrite (Hrun fuel Hf). split; [exact Hkw|].
    rewrite Htr, fetches_app, tokens_consumed_app, length_app, Hfe, Htk.
    unfold tokens_consumed at 2. simpl. lia. }
  assert (Hwrite : forall ref c (X : Content) w1, inbox w1 = res :: rest ->
    exists w', bind (Cloud_control cfg host ref c) (fun _ => ret X) w1
               = (w', Throw (api_error host res))
      /\ exists req, trace w' = trace w1 ++ [EvFetch req]).
  { intros ref c X w1 Hin1.
    destruct (Cloud_control_refused ref c w1 res rest Hdry Hin1 Hok)
      as (w' & Hrun & _ & Hreq).
    exists w'. unfold bind. now rewrite Hrun. }
  assert (Hread : forall ref w1, inbox w1 = res :: rest ->
    exists w', bind (Cloud_getState cfg host ref) (fun st => ret (JsonState st)) w1
               = (w', Throw (api_error host res))
      /\ exists req, trace w' = trace w1 ++ [EvFetch req]).
  { intros ref w1 Hin1.
    destruct (Cloud_getState_refused ref w1 res rest Hin1 Hok) as (w' & Hrun & _ & Hreq).
    exists w'. unfold bind. now rewrite Hrun. }
  assert (Hh : exists fuel0, forall fuel sched, (fuel0 <= fuel)%nat ->
    exists w', handler cfg host fuel sched call w = (w', Throw (api_error host res))
      /\ length (fetches (trace w')) = S (length (fetches (trace w)))
      /\ tokens_consumed (trace w') = S (tokens_consumed (trace w))).
  { destruct call; simpl in Hcall; try discriminate; injection Hcall as ->;
      cbn [handler];
      unfold govee_get_state, govee_set_power, govee_set_brightness, govee_set_color,
        govee_set_color_temp, govee_set_scene, pickAdapter;
      rewrite Hallow, Hlan; cbn [negb control getState];
      match goal with |- context [bind (take host _) (fun _ => ?k)] =>
        destruct (Hgen k) as (fuel0 & Hrun);
          [first [apply Hwrite | apply Hread] | exists fuel0; intros fuel _ Hf; apply Hrun, Hf]
      end. }
  destruct Hh as (fuel0 & Hh). exists fuel0. intros fuel sched Hf.
  destruct (Hh fuel sched Hf) as (w' & Hrun & Hfe & Htk).
  rewrite Hrun. cbn [fst snd]. split; [|split; [|split; assumption]].
  - unfold api_error. now rewrite ToString_int.
  - intros Hschema. rewrite <- Hrun. apply registered_call_accepts; [exact Hschema|].
    now rewrite Hcall.
Qed.

End Single_device.

(** ** What the gateway sends and throws, over every run *)

Section Confined.
Variable R : Event -> Prop.
Variable E : Exn -> Prop.

Lemma confined_ret {A} (a : A) : confined R E (ret a).
Proof.
  intros w. split; [|discriminate]. exists []. now rewrite app_nil_r.
Qed.

Lemma confined_throw {A} (e : Exn) : E e -> confined R E (@throw A e).
Proof.
  intros He w. split.
  - exists []. now rewrite app_nil_r.
  - simpl. now intros e' [= <-].
Qed.

Lemma confined_bind {A B} (m : M A) (k : A -> M B) :
  confined R E m -> (forall a, confined R E (k a)) -> confined R E (bind m k).
Proof.
  intros Hm Hk w. unfold bind. destruct (Hm w) as [(evs & Htr & Hevs) Hex].
  destruct (m w) as [w1 [a|e|]]; simpl in *.
  - destruct (Hk a w1) as [(evs' & Htr' & Hevs') Hex']. split; [|exact Hex'].
    exists (evs ++ evs'). rewrite Htr', Htr, app_assoc. split; [done|].
    now apply Forall_app.
  - split; [eauto|]. intros e' [= <-]. now apply Hex.
  - split; [eauto | discriminate].
Qed.

Lemma confined_emit (e : Event) : R e -> confined R E (emit e).
Proof.
  intros He w. split; [|discriminate]. exists [e]. split; [done|].
  now apply Forall_singleton.
Qed.

Lemma confined_for_each {A} (f : A -> M unit) (l : list A) :
  (forall a, a ∈ l -> confined R E (f a)) -> confined R E (for_each f l).
Proof.
  induction l as [|a l IH]; intros Hf; simpl; [apply confined_ret|].
  apply confined_bind; [apply Hf; now left|].
  intros _. apply IH. intros x Hx. apply Hf. now right.
Qed.

End Confined.

Section Lawful.
Variable cfg : Config.
Variable host : Host.

Lemma lawful_now : lawful cfg host (now host).
Proof.
  intros w. split; [|discriminate]. exists []. simpl. now rewrite app_nil_r.
Qed.

Lemma lawful_take_loop (fuel : nat) : lawful cfg host (take_loop host fuel).
Proof.
  induction fuel as [|fuel IH]; intros w.
  - split; [|discriminate]. exists []. simpl. now rewrite app_nil_r.
  - rewrite take_loop_S. cbv zeta.
    destruct (snd (take_iter (Date_now host (ticks w)) (limiter w))).
    + split; [|discriminate]. exists [EvToken]. split; [done|].
      now apply Forall_singleton.
    + match goal with |- context [take_loop host fuel ?w1] =>
        destruct (IH w1) as [(evs & Htr & Hevs) Hex] end.
      split; [|exact Hex]. exists (EvTimeout 50 :: evs).
      rewrite Htr. cbn [trace]. rewrite <- app_assoc. split; [done|].
      now constructor.
Qed.

Lemma lawful_take (fuel : nat) : lawful cfg host (take host fuel).
Proof.
  unfold take. apply confined_bind; [now apply confined_emit|].
  intros _. apply lawful_take_loop.
Qed.

Lemma lawful_transport (req : HttpRequest) :
  lawful_request cfg req ->
  lawful cfg host
    (bind (fetch req)
       (fun res => if negb (ok res) then throw (api_error host res)
                   else res_json res)).
Proof.
  intros Hreq. apply confined_bind.
  - unfold fetch. apply confined_bind; [now apply confined_emit|].
    intros _ w. destruct (inbox w); simpl.
    + split; [exists []; now rewrite app_nil_r|].
      intros e [= <-]. unfold known_error. tauto.
    + split; [exists []; now rewrite app_nil_r | discriminate].
  - intros res. destruct (ok res) eqn:Hok; cbn [negb].
    + unfold res_json. destruct (json res) as [j|m]; [apply confined_ret|].
      apply confined_throw. unfold known_error. eauto 10.
    + apply confined_throw. unfold known_error. eauto 10.
Qed.

Lemma lawful_Cloud_control (ref : DeviceRef) (c : ControlCmd) :
  isAllowed cfg (deviceId ref) = true -> lawful cfg host (Cloud_control cfg host ref c).
Proof.
  intros Hallow. unfold Cloud_control. destruct (DRY_RUN cfg) eqn:Hdry.
  - now apply confined_emit.
  - apply confined_bind; [apply lawful_now|]. intros t.
    apply confined_bind; [|intros _; apply confined_ret].
    apply lawful_transport. right. right.
    exists ("mcp-" +:+ ToString host (inject_Z t)), (deviceId ref), (model ref), c.
    auto.
Qed.

Lemma lawful_control (ref : DeviceRef) (c : ControlCmd) :
  isAllowed cfg (deviceId ref) = true ->
  lawful cfg host (control cfg host (pickAdapter cfg "") ref c).
Proof.
  intros Hallow. unfold pickAdapter. destruct (lanEnabled cfg) eqn:Hlan; simpl.
  - unfold Lan_control. rewrite Hlan. apply confined_throw.
    unfold known_error. tauto.
  - now apply lawful_Cloud_control.
Qed.

Lemma lawful_getState (ref : DeviceRef) :
  isAllowed cfg (deviceId ref) = true ->
  lawful cfg host (getState cfg host (pickAdapter cfg "") ref).
Proof.
  intros Hallow. unfold pickAdapter. destruct (lanEnabled cfg) eqn:Hlan; simpl.
  - apply confined_throw. unfold known_error. tauto.
  - unfold Cloud_getState. apply confined_bind; [|intros out; apply confined_ret].
    apply lawful_transport. right. left. eauto.
Qed.

Lemma lawful_Cloud_listDevices : lawful cfg host (Cloud_listDevices cfg host).
Proof.
  unfold Cloud_listDevices. apply confined_bind; [|intros out; apply confined_ret].
  apply lawful_transport. now left.
Qed.

Lemma lawful_control_item (t : Task) (it : BatchItem) :
  fst t = pickAdapter cfg "" -> isAllowed cfg (item_deviceId it) = true ->
  lawful cfg host (control_item cfg host (fst t) it).
Proof. intros -> Hit. unfold control_item. now apply lawful_control. Qed.

Lemma step_task_lawful (t : Task) (w : World) :
  task_ok cfg t ->
  (exists evs, trace (fst (fst (step_task cfg host t w))) = trace w ++ evs
     /\ Forall (lawful_event cfg) evs)
  /\ task_ok cfg (snd (fst (step_task cfg host t w)))
  /\ (forall e, snd (step_task cfg host t w) = Some e -> known_error cfg host e).
Proof.
  intros [Had Hitems]. unfold step_task.
  destruct (snd t) as [|it rest] eqn:Hsnd.
  - split; [exists []; now rewrite app_nil_r|]. split; [|discriminate].
    split; [exact Had|]. simpl. rewrite Hsnd. constructor.
  - apply Forall_cons in Hitems as [Hit Hrest].
    destruct (lawful_control_item t it Had Hit w) as [Htr Hex].
    destruct (control_item cfg host (fst t) it w) as [w' [u|e|]]; simpl in *.
    + split; [exact Htr|]. split; [|discriminate]. now split.
    + split; [exact Htr|]. split; [now split|]. intros e' [= <-]. now apply Hex.
    + split; [exact Htr|]. split; [now split | discriminate].
Qed.

Lemma interleave_lawful (sched : list nat) :
  forall (tasks : list Task) (rejected : option Exn) (w : World),
  Forall (task_ok cfg) tasks ->
  (forall e, rejected = Some e -> known_error cfg host e) ->
  (exists evs, trace (fst (fst (interleave cfg host sched tasks rejected w)))
               = trace w ++ evs
     /\ Forall (lawful_event cfg) evs)
  /\ Forall (task_ok cfg) (snd (fst (interleave cfg host sched tasks rejected w)))
  /\ (forall e, snd (interleave cfg host sched tasks rejected w) = Some e ->
        known_error cfg host e).
Proof.
  induction sched as [|i sched IH]; intros tasks rejected w Htasks Hrej; simpl.
  - split; [exists []; now rewrite app_nil_r|]. now split.
  - destruct ((tasks : list Task) !! i) as [t|] eqn:Hi; [|now apply IH].
    assert (Ht : task_ok cfg t).
    { eapply (proj1 (Forall_lookup (task_ok cfg) tasks)); eauto. }
    destruct (step_task_lawful t w Ht) as ((evs & Htr & Hevs) & Ht' & He).
    destruct (step_task cfg host t w) as [[w' t'] e]. simpl in *.
    destruct (IH (<[i := t']> tasks) (first_of rejected e) w')
      as ((evs' & Htr' & Hevs') & Htasks' & Hrej').
    + now apply Forall_insert.
    + intros e0. destruct rejected as [e1|]; simpl; [apply Hrej | apply He].
    + split; [|now split]. exists (evs ++ evs').
      rewrite Htr', Htr, app_assoc. split; [done|]. now apply Forall_app.
Qed.

Lemma drain_lawful (tasks : list Task) :
  forall (rejected : option Exn) (w : World),
  Forall (task_ok cfg) tasks ->
  (forall e, rejected = Some e -> known_error cfg host e) ->
  (exists evs, trace (fst (drain cfg host tasks rejected w)) = trace w ++ evs
     /\ Forall (lawful_event cfg) evs)
  /\ (forall e, snd (drain cfg host tasks rejected w) = Some e -> known_error cfg host e).
Proof.
  induction tasks as [|t tasks IH]; intros rejected w Htasks Hrej; simpl.
  - split; [exists []; now rewrite app_nil_r | exact Hrej].
  - apply Forall_cons in Htasks as [[Had Hitems] Htasks].
    assert (Hrun : lawful cfg host (for_each (control_item cfg host (fst t)) (snd t))).
    { apply confined_for_each. intros it Hit. apply lawful_control_item; [exact Had|].
      exact (proj1 (Forall_forall _ _) Hitems it Hit). }
    destruct (Hrun w) as [(evs & Htr & Hevs) Hex].
    destruct (for_each (control_item cfg host (fst t)) (snd t) w) as [w' [u|e|]];
      simpl in *.
    all: match goal with |- context [drain cfg host _ ?rej ?w1] =>
           destruct (IH rej w1 Htasks) as ((evs' & Htr' & Hevs') & Hrej') end.
    all: try exact Hrej.
    all: try (intros e0; destruct rejected as [e1|]; simpl;
              [apply Hrej | intros [= <-]; now apply Hex]).
    all: split; [|exact Hrej']; exists (evs ++ evs');
         rewrite Htr', Htr, app_assoc; split; [done | now apply Forall_app].
Qed.

Lemma lawful_Promise_all (sched : list nat) (tasks : list Task) :
  Forall (task_ok cfg) tasks -> lawful cfg host (Promise_all cfg host sched tasks).
Proof.
  intros Htasks w. unfold Promise_all.
  destruct (interleave_lawful sched tasks None w Htasks ltac:(discriminate))
    as ((evs & Htr & Hevs) & Htasks1 & Hrej1).
  destruct (interleave cfg host sched tasks None w) as [[w1 tasks1] rejected1].
  simpl in *.
  destruct (drain_lawful tasks1 rejected1 w1 Htasks1 Hrej1)
    as ((evs' & Htr' & Hevs') & Hrej2).
  destruct (drain cfg host tasks1 rejected1 w1) as [w2 rejected2]. simpl in *.
  split.
  - exists (evs ++ evs'). rewrite Htr', Htr, app_assoc. split; [done|].
    now apply Forall_app.
  - destruct rejected2 as [e|]; [|discriminate]. intros e' [= <-]. now apply Hrej2.
Qed.

Lemma batch_tasks_ok (items : list BatchItem) :
  Forall (task_ok cfg)
    (map (fun gr : string * list BatchItem => (pickAdapter cfg (fst gr), snd gr))
       (group_by_device
          (coalesce (List.filter (fun i => isAllowed cfg (item_deviceId i)) items)))).
Proof.
  set (allowed := List.filter (fun i => isAllowed cfg (item_deviceId i)) items).
  assert (Hall : forall it, it ∈ coalesce allowed -> isAllowed cfg (item_deviceId it) = true).
  { intros it Hit.
    pose proof (coalesce_entries allowed allowed [] (Forall_nil_2 _) (fun x H => H)) as Hent.
    unfold coalesce in Hit. apply list_elem_of_fmap in Hit as (e & -> & He).
    eapply (proj1 (Forall_forall _ _)) in Hent; [|exact He].
    destruct Hent as [Hin _]. apply list_elem_of_In, List.filter_In in Hin. tauto. }
  rewrite group_fold. rewrite map_map. apply Forall_forall.
  intros t Ht. apply list_elem_of_fmap in Ht as (z & -> & Hz).
  split; [reflexivity|]. simpl. apply Forall_forall. intros it Hit.
  apply list_elem_of_filter in Hit as [_ Hit]. now apply Hall.
Qed.

Lemma lawful_handler fuel sched call : lawful cfg host (handler cfg host fuel sched call).
Proof.
  assert (Hdeny : forall A, lawful cfg host (@throw A (Error "Device not allowed"))).
  { intros A. apply confined_throw. unfold known_error. tauto. }
  destruct call; cbn [handler].
  - unfold govee_list_devices. apply confined_bind; [apply lawful_take|]. intros _.
    apply confined_bind; [apply lawful_Cloud_listDevices|]. intros l. apply confined_ret.
  - unfold govee_get_state. destruct (isAllowed cfg _) eqn:Hal; cbn [negb]; [|apply Hdeny].
    apply confined_bind; [apply lawful_take|]. intros _.
    apply confined_bind; [now apply lawful_getState|]. intros st. apply confined_ret.
  - unfold govee_set_power. destruct (isAllowed cfg _) eqn:Hal; cbn [negb]; [|apply Hdeny].
    apply confined_bind; [apply lawful_take|]. intros _.
    apply confined_bind; [now apply lawful_control|]. intros _. apply confined_ret.
  - unfold govee_set_brightness. destruct (isAllowed cfg _) eqn:Hal; cbn [negb]; [|apply Hdeny].
    apply confined_bind; [apply lawful_take|]. intros _.
    apply confined_bind; [now apply lawful_control|]. intros _. apply confined_ret.
  - unfold govee_set_color. destruct (isAllowed cfg _) eqn:Hal; cbn [negb]; [|apply Hdeny].
    apply confined_bind; [apply lawful_take|]. intros _.
    apply confined_bind; [now apply lawful_control|]. intros _. apply confined_ret.
  - unfold govee_set_color_temp. destruct (isAllowed cfg _) eqn:Hal; cbn [negb]; [|apply Hdeny].
    apply confined_bind; [apply lawful_take|]. intros _.
    apply confined_bind; [now apply lawful_control|]. intros _. apply confined_ret.
  - unfold govee_set_scene. destruct (isAllowed cfg _) eqn:Hal; cbn [negb]; [|apply Hdeny].
    apply confined_bind; [apply lawful_take|]. intros _.
    apply confined_bind; [now apply lawful_control|]. intros _. apply confined_ret.
  - unfold govee_batch. cbv zeta.
    destruct (length _ =? 0)%nat.
    + apply confined_throw. unfold known_error. tauto.
    + apply confined_bind; [apply lawful_take|]. intros _.
      apply confined_bind.
      { apply confined_for_each. intros a _. now apply confined_emit. }
      intros _. apply confined_bind; [|intros _; apply confined_ret].
      apply lawful_Promise_all, batch_tasks_ok.
  - apply confined_throw. unfold known_error. eauto 10.
Qed.

Lemma reachable_lawful (w : World) :
  reachable cfg host w -> Forall (lawful_event cfg) (trace w).
Proof.
  induction 1 as [responses | fuel w _ IH | fuel sched call w _ IH | fuel sched call w _ IH].
  - constructor.
  - destruct (lawful_take fuel w) as [(evs & -> & Hevs) _]. now apply Forall_app.
  - unfold tools_call.
    destruct (lawful_handler fuel sched call w) as [(evs & Htr & Hevs) _].
    destruct (handler cfg host fuel sched call w) as [w' [c|e|]]; simpl in *;
      rewrite Htr; now apply Forall_app.
  - assert (Hh : Forall (lawful_event cfg)
                   (trace (fst (handler cfg host fuel sched call w)))).
    { destruct (lawful_handler fuel sched call w) as [(evs & -> & Hevs) _].
      now apply Forall_app. }
    unfold registered_call.
    destruct call; try exact IH; try exact Hh;
      (destruct (inputSchema _); [exact Hh | exact IH]).
Qed.

Lemma elem_of_fetches (req : HttpRequest) (tr : list Event) :
  req ∈ fetches tr <-> EvFetch req ∈ tr.
Proof.
  unfold fetches. rewrite list_elem_of_omap. split.
  - intros (e & He & Hreq). destruct e; try discriminate. now injection Hreq as ->.
  - intros He. now exists (EvFetch req).
Qed.

Lemma reachable_requests (w : World) (req : HttpRequest) :
  reachable cfg host w -> req ∈ fetches (trace w) -> lawful_request cfg req.
Proof.
  intros Hw Hreq. apply elem_of_fetches in Hreq.
  pose proof (reachable_lawful w Hw) as Hall.
  eapply (proj1 (Forall_forall _ _)) in Hall; [|exact Hreq]. exact Hall.
Qed.

(** Over the whole life of the process, whatever calls arrive through
    either server and however a batch is scheduled: every request sent to
    the vendor that names a device names one that passes the allowlist,
    goes to a path under [API_BASE] and carries the configured key. *)
Theorem only_allowed_devices_contacted (w : World) (req : HttpRequest) :
  reachable cfg host w -> req ∈ fetches (trace w) ->
  (forall d, named_device req = Some d -> isAllowed cfg d = true)
  /\ (exists path, url req = API_BASE cfg +:+ path)
  /\ ("Govee-API-Key", API_KEY cfg) ∈ headers req.
Proof.
  intros Hw Hreq.
  destruct (reachable_requests w req Hw Hreq)
    as [-> | [(id & m & Hal & ->) | (rid & id & m & c & Hal & _ & ->)]];
    (split; [|split]); simpl; eauto;
    try (intros d [= <-]; exact Hal); try discriminate;
    rewrite ?elem_of_cons; auto.
Qed.

(** With [GOVEE_DRY_RUN] set, no control request ever leaves the process:
    every request in the trace of a reachable state is a device listing or
    a state query. *)
Theorem dry_run_never_writes (w : World) (req : HttpRequest) :
  DRY_RUN cfg = true -> reachable cfg host w -> req ∈ fetches (trace w) ->
  is_write req = false.
Proof.
  intros Hdry Hw Hreq.
  destruct (reachable_requests w req Hw Hreq)
    as [-> | [(id & m & Hal & ->) | (rid & id & m & c & Hal & Hno & ->)]];
    [reflexivity | reflexivity | congruence].
Qed.

(** The LAN placeholder is out of reach unless its flag is set, and its
    guard is out of reach always: no tool body ends with [LAN disabled],
    and with the flag off none ends with either of the two
    [not implemented] errors of the LAN adapter. *)
Theorem lan_errors_unreachable fuel sched call (w : World) (e : Exn) :
  snd (handler cfg host fuel sched call w) = Throw e ->
  e <> Error "LAN disabled"
  /\ (lanEnabled cfg = false ->
      e <> Error "LAN control not implemented"
      /\ e <> Error "LAN getState not implemented").
Proof.
  intros Hthrow.
  destruct (lawful_handler fuel sched call w) as [_ Hex].
  specialize (Hex e Hthrow).
  destruct Hex as [-> | [-> | [(name & ->) | [(res & _ & ->) | [(m & ->) | [-> | (Hlan & He)]]]]]].
  1-6: unfold api_error; rewrite ?append_cons; repeat split; discriminate.
  split; [destruct He as [-> | ->]; discriminate|].
  intros Hoff. congruence.
Qed.

End Lawful.

(** ** Dry run, seen from the client *)

Section Dry_run.
Variable host : Host.

Lemma write_run_dry (cfg : Config) (ref : DeviceRef) (c : ControlCmd) (X : Content) (w : World) :
  DRY_RUN cfg = true -> ready host w ->
  exists fuel0, forall fuel, (fuel0 <= fuel)%nat ->
    let rn := bind (take host fuel)
                (fun _ => bind (Cloud_control cfg host ref c) (fun _ => ret X)) w in
    snd rn = Done X
    /\ fetches (trace (fst rn)) = fetches (trace w)
    /\ inbox (fst rn) = inbox w
    /\ tokens_consumed (trace (fst rn)) = S (tokens_consumed (trace w))
    /\ list.last (trace (fst rn)) = Some (EvLogControl ref c).
Proof.
  intros Hdry Hready.
  destruct (after_take_run host (bind (Cloud_control cfg host ref c) (fun _ => ret X))
              w Hready) as (fuel0 & w1 & Hrun & Hin1 & Hfe & Hk).
  exists fuel0. intros fuel Hf. cbv zeta. rewrite (Hrun fuel Hf).
  unfold Cloud_control. rewrite Hdry. unfold bind, emit, ret. cbn [fst snd trace inbox].
  rewrite fetches_app, tokens_consumed_app, Hfe, Hk, last_snoc, app_nil_r.
  repeat split; auto; try (unfold tokens_consumed at 2; simpl; lia).
Qed.

(** With the LAN flag off, a dry run cannot be told from a write by the
    client: for each write tool on an allowed device, the result under
    [GOVEE_DRY_RUN] is the success text a real, accepted write gives.  Yet the dry run has sent
    nothing and read no response; it has logged the command, and it has
    spent a token of the limiter like a real call. *)
Theorem dry_run_reports_success (cfg : Config) (call : ToolCall) (id : string) (c : ControlCmd)
    (w : World) (res : HttpResponse) (rest : list HttpResponse) (j : Json) :
  single_device call = Some id -> command_of call = Some c ->
  isAllowed cfg id = true -> lanEnabled cfg = false ->
  ready host w -> inbox w = res :: rest -> ok res = true -> json res = inl j ->
  exists fuel0, forall fuel sched, (fuel0 <= fuel)%nat ->
    let dry := handler (with_DRY_RUN true cfg) host fuel sched call w in
    let wet := handler (with_DRY_RUN false cfg) host fuel sched call w in
    snd dry = snd wet
    /\ (exists msg, snd dry = Done (Text msg))
    /\ fetches (trace (fst dry)) = fetches (trace w)
    /\ inbox (fst dry) = inbox w
    /\ tokens_consumed (trace (fst dry)) = S (tokens_consumed (trace w))
    /\ list.last (trace (fst dry))
       = Some (EvLogControl (mkDeviceRef id (model_of call)) c).
Proof.
  intros Hcall Hcmd Hallow Hlan Hready Hin Hok Hjson.
  assert (Hd : DRY_RUN (with_DRY_RUN true cfg) = true) by reflexivity.
  assert (Hw : DRY_RUN (with_DRY_RUN false cfg) = false) by reflexivity.
  assert (Ha : forall fl, isAllowed (with_DRY_RUN fl cfg) id = true) by (intros; exact Hallow).
  assert (Hl : forall fl, lanEnabled (with_DRY_RUN fl cfg) = false) by (intros; exact Hlan).
  destruct call; simpl in Hcall, Hcmd; try discriminate;
    injection Hcall as ->; injection Hcmd as <-;
    cbn [handler model_of];
    unfold govee_set_power, govee_set_brightness, govee_set_color,
      govee_set_color_temp, govee_set_scene, pickAdapter;
    rewrite !Ha, !Hl; cbn [negb control];
    match goal with
    | |- context [bind (Cloud_control (with_DRY_RUN true cfg) host ?ref ?c)
                    (fun _ => ret (Text ?m))] =>
        destruct (write_run_ok (with_DRY_RUN false cfg) host ref c (Text m) w res rest j
                    Hw Hready Hin Hok Hjson) as (fuel1 & Hwet);
        destruct (write_run_dry (with_DRY_RUN true cfg) ref c (Text m) w Hd Hready) as (fuel2 & Hdry);
        exists (Nat.max fuel1 fuel2); intros fuel sched Hf;
        destruct (Hwet fuel ltac:(lia)) as (rid & Hw1 & _);
        destruct (Hdry fuel ltac:(lia)) as (Hd1 & Hd2 & Hd3 & Hd4 & Hd5);
        cbv zeta in *; rewrite Hw1;
        repeat split; eauto
    end.
Qed.

End Dry_run.

(** ** A batch that the vendor accepts *)

Section Batch_run.
Variable cfg : Config.
Variable host : Host.
Hypothesis Hdry : DRY_RUN cfg = false.

Lemma control_item_ok (it : BatchItem) (w : World) res rs :
  inbox w = res :: rs -> accepted res ->
  exists w' req,
    control_item cfg host cloud it w = (w', Done tt)
    /\ inbox w' = rs /\ trace w' = trace w ++ [EvFetch req]
    /\ written req = write_of it.
Proof.
  intros Hin [Hok [j Hj]]. unfold control_item. cbn [control].
  rewrite (Cloud_control_sent cfg host _ _ _ _ _ _ Hdry Hin Hok Hj).
  eexists. eexists. repeat split.
Qed.

Lemma for_each_control_ok (items : list BatchItem) :
  forall (w : World) oks more,
  inbox w = oks ++ more -> length oks = length items -> Forall accepted oks ->
  exists w' sent,
    for_each (control_item cfg host cloud) items w = (w', Done tt)
    /\ inbox w' = more /\ trace w' = trace w ++ map EvFetch sent
    /\ map written sent = map write_of items.
Proof.
  induction items as [|it items IH]; intros w oks more Hin Hlen Hoks.
  - destruct oks; [|discriminate]. exists w, []. simpl. now rewrite app_nil_r.
  - destruct oks as [|res oks]; [discriminate|].
    apply Forall_cons in Hoks as [Hres Hoks].
    destruct (control_item_ok it w res (oks ++ more) Hin Hres)
      as (w1 & req & Hrun & Hin1 & Htr1 & Hreq).
    destruct (IH w1 oks more Hin1 ltac:(simpl in Hlen; lia) Hoks)
      as (w' & sent & Hrun' & Hin' & Htr' & Hsent).
    exists w', (req :: sent). cbn [for_each].
    rewrite (bind_Done _ _ _ _ _ Hrun). split; [exact Hrun'|]. split; [exact Hin'|].
    split.
    + rewrite Htr', Htr1, <- app_assoc. reflexivity.
    + simpl. now rewrite Hreq, Hsent.
Qed.

Lemma pending_insert (tasks : list Task) : forall (i : nat) a it rest,
  tasks !! i = Some (a, it :: rest) ->
  pending tasks ≡ₚ it :: pending (<[i := (a, rest)]> tasks).
Proof.
  unfold pending.
  induction tasks as [|t tasks IH]; intros i a it rest Hi; [discriminate|].
  destruct i as [|i]; simpl in *.
  - injection Hi as ->. reflexivity.
  - rewrite (IH i a it rest Hi). symmetry. apply Permutation_middle.
Qed.

Lemma pending_idle (tasks : list Task) (i : nat) (t : Task) :
  tasks !! i = Some t -> <[i := t]> tasks = tasks.
Proof. apply list_insert_id. Qed.

Lemma interleave_ok (sched : list nat) (more : list HttpResponse) :
  forall (tasks : list Task) (w : World) oks,
  Forall (fun t : Task => fst t = cloud) tasks ->
  inbox w = oks ++ more -> length oks = length (pending tasks) -> Forall accepted oks ->
  exists w' tasks' oks' sent,
    interleave cfg host sched tasks None w = (w', tasks', None)
    /\ Forall (fun t : Task => fst t = cloud) tasks'
    /\ inbox w' = oks' ++ more /\ length oks' = length (pending tasks')
    /\ Forall accepted oks'
    /\ trace w' = trace w ++ map EvFetch sent
    /\ map written sent ++ map write_of (pending tasks') ≡ₚ map write_of (pending tasks).
Proof.
  induction sched as [|i sched IH]; intros tasks w oks Hcloud Hin Hlen Hoks.
  - exists w, tasks, oks, []. simpl. rewrite app_nil_r. repeat split; auto.
  - cbn [interleave]. destruct ((tasks : list Task) !! i) as [[a items]|] eqn:Hi;
      [|now apply (IH tasks w oks)].
    assert (Ha : a = cloud).
    { exact (proj1 (Forall_lookup (fun t : Task => fst t = cloud) tasks) Hcloud i _ Hi). }
    subst a. unfold step_task. cbn [fst snd]. destruct items as [|it rest].
    + cbn [first_of]. rewrite (list_insert_id _ _ _ Hi). now apply (IH tasks w oks).
    + pose proof (pending_insert tasks i cloud it rest Hi) as Hperm.
      destruct oks as [|res oks].
      { apply Permutation_length in Hperm. simpl in *. lia. }
      apply Forall_cons in Hoks as [Hres Hoks].
      destruct (control_item_ok it w res (oks ++ more) Hin Hres)
        as (w1 & req & Hrun & Hin1 & Htr1 & Hreq).
      rewrite Hrun. cbn [first_of].
      destruct (IH (<[i := (cloud, rest)]> tasks) w1 oks)
        as (w' & tasks' & oks' & sent & Hrun' & Hcloud' & Hin' & Hlen' & Hoks'
            & Htr' & Hperm'); auto.
      * now apply Forall_insert.
      * apply Permutation_length in Hperm. simpl in *. lia.
      * exists w', tasks', oks', (req :: sent). repeat split; auto.
        -- rewrite Htr', Htr1, <- app_assoc. reflexivity.
        -- cbn [map app]. rewrite Hreq, Hperm'.
           change (write_of it :: map write_of (pending (<[i:=(cloud, rest)]> tasks)))
             with (map write_of (it :: pending (<[i:=(cloud, rest)]> tasks))).
           now rewrite <- Hperm.
Qed.

Lemma drain_ok (tasks : list Task) :
  forall (w : World) oks more,
  Forall (fun t : Task => fst t = cloud) tasks ->
  inbox w = oks ++ more -> length oks = length (pending tasks) -> Forall accepted oks ->
  exists w' sent,
    drain cfg host tasks None w = (w', None)
    /\ inbox w' = more /\ trace w' = trace w ++ map EvFetch sent
    /\ map written sent = map write_of (pending tasks).
Proof.
  induction tasks as [|[a items] tasks IH]; intros w oks more Hcloud Hin Hlen Hoks.
  - destruct oks; [|discriminate]. exists w, []. simpl. now rewrite app_nil_r.
  - apply Forall_cons in Hcloud as [Ha Hcloud]. simpl in Ha. subst a.
    unfold pending in Hlen. cbn [map concat snd] in Hlen. rewrite length_app in Hlen.
    rewrite <- (take_drop (length items) oks) in Hin, Hoks.
    apply Forall_app in Hoks as [Hoks1 Hoks2]. rewrite <- app_assoc in Hin.
    destruct (for_each_control_ok items w _ _ Hin
                ltac:(rewrite length_take; lia) Hoks1)
      as (w1 & sent1 & Hrun1 & Hin1 & Htr1 & Hsent1).
    destruct (IH w1 _ more Hcloud Hin1
                ltac:(rewrite length_drop; unfold pending; lia) Hoks2)
      as (w' & sent & Hrun' & Hin' & Htr' & Hsent).
    exists w', (sent1 ++ sent). cbn [drain fst snd]. rewrite Hrun1.
    split; [exact Hrun'|]. split; [exact Hin'|]. split.
    + rewrite Htr', Htr1, map_app, app_assoc. reflexivity.
    + unfold pending. cbn [map concat snd]. rewrite !map_app. now rewrite Hsent1, Hsent.
Qed.

Lemma Promise_all_ok (sched : list nat) (tasks : list Task) (w : World) oks more :
  Forall (fun t : Task => fst t = cloud) tasks ->
  inbox w = oks ++ more -> length oks = length (pending tasks) -> Forall accepted oks ->
  exists w' sent,
    Promise_all cfg host sched tasks w = (w', Done tt)
    /\ inbox w' = more /\ trace w' = trace w ++ map EvFetch sent
    /\ map written sent ≡ₚ map write_of (pending tasks).
Proof.
  intros Hcloud Hin Hlen Hoks.
  destruct (interleave_ok sched more tasks w oks Hcloud Hin Hlen Hoks)
    as (w1 & tasks1 & oks1 & sent1 & Hrun1 & Hcloud1 & Hin1 & Hlen1 & Hoks1
        & Htr1 & Hperm1).
  destruct (drain_ok tasks1 w1 oks1 more Hcloud1 Hin1 Hlen1 Hoks1)
    as (w2 & sent2 & Hrun2 & Hin2 & Htr2 & Hsent2).
  exists w2, (sent1 ++ sent2). unfold Promise_all. rewrite Hrun1, Hrun2.
  split; [reflexivity|]. split; [exact Hin2|]. split.
  - rewrite Htr2, Htr1, map_app, app_assoc. reflexivity.
  - rewrite map_app, Hsent2. exact Hperm1.
Qed.

Lemma fetches_map_EvFetch (sent : list HttpRequest) : fetches (map EvFetch sent) = sent.
Proof. induction sent as [|req sent IH]; [reflexivity|]. simpl. unfold fetches in *. simpl. now rewrite IH. Qed.

(** A batch that the vendor accepts: with dry-run and the LAN flag off,
    and an accepting response waiting for each command that survives the
    allowlist and the coalescing, the batch, under every schedule of its
    device groups, sends each surviving command exactly once and nothing
    else, uses up exactly those responses, and reports the number of
    commands and of devices. *)
Theorem batch_sends_each_command_once (sched : list nat) (items : list BatchItem)
    (w : World) (oks rest : list HttpResponse) :
  let deduped := coalesce (List.filter (fun i => isAllowed cfg (item_deviceId i)) items) in
  List.filter (fun i => isAllowed cfg (item_deviceId i)) items <> [] ->
  lanEnabled cfg = false -> ready host w ->
  inbox w = oks ++ rest -> length oks = length deduped -> Forall accepted oks ->
  exists fuel0, forall fuel, (fuel0 <= fuel)%nat -> exists sent,
    snd (govee_batch cfg host fuel sched items w)
    = Done (Text ("Applied " +:+ pretty (Z.of_nat (length deduped))
                  +:+ " command(s) across "
                  +:+ pretty (Z.of_nat (length (group_by_device deduped)))
                  +:+ " device(s)."))
    /\ fetches (trace (fst (govee_batch cfg host fuel sched items w)))
       = fetches (trace w) ++ sent
    /\ map written sent ≡ₚ map write_of deduped
    /\ inbox (fst (govee_batch cfg host fuel sched items w)) = rest.
Proof.
  intros deduped Hne Hlan Hready Hin Hlen Hoks.
  unfold govee_batch. cbv zeta. fold deduped.
  destruct (List.filter _ items) as [|a allowed] eqn:Hallowed; [done|].
  cbn [length Nat.eqb].
  match goal with |- context [bind (take host _) (fun _ => ?k)] =>
    destruct (after_take_run host k w Hready) as (fuel0 & w1 & Hrun & Hin1 & Hfe & _) end.
  exists fuel0. intros fuel Hf. rewrite (Hrun fuel Hf).
  set (tasks := map (fun gr : string * list BatchItem => (pickAdapter cfg (fst gr), snd gr))
                  (group_by_device deduped)).
  rewrite (bind_Done _ _ _ _ _ (for_each_sleep (BATCH_WINDOW_MS cfg) tasks w1)).
  assert (Hpend : pending tasks ≡ₚ deduped).
  { unfold pending, tasks. rewrite map_map. cbn [snd]. apply group_by_device_concat. }
  destruct (Promise_all_ok sched tasks
              (mkWorld (limiter w1) (ticks w1) (inbox w1)
                 (trace w1 ++ repeat (EvTimeout (BATCH_WINDOW_MS cfg)) (length tasks)))
              oks rest)
    as (w2 & sent & Hrun2 & Hin2 & Htr2 & Hsent).
  - unfold tasks, pickAdapter. rewrite Hlan. apply Forall_forall.
    intros t Ht. apply list_elem_of_fmap in Ht as (gr & -> & _). reflexivity.
  - cbn [inbox]. now rewrite Hin1.
  - rewrite Hlen. symmetry. now apply Permutation_length.
  - exact Hoks.
  - exists sent. rewrite (bind_Done _ _ _ _ _ Hrun2). unfold ret. cbn [fst snd].
    split; [|split; [|split]].
    + unfold nat_ToString. now rewrite !ToString_int.
    + rewrite Htr2. cbn [trace]. rewrite !fetches_app, fetches_timeouts, app_nil_r.
      now rewrite Hfe, fetches_map_EvFetch.
    + now rewrite Hsent, Hpend.
    + exact Hin2.
Qed.

End Batch_run.

(** ** [CloudAdapter.batch]: one command after the other *)

Lemma bind_Throw {A B} (m : M A) (k : A -> M B) w w1 e :
  m w = (w1, Throw e) -> bind m k w = (w1, Throw e).
Proof. intros H. unfold bind. now rewrite H. Qed.

Section Cloud_batch_run.
Variable cfg : Config.
Variable host : Host.
Hypothesis Hdry : DRY_RUN cfg = false.

Lemma Cloud_batch_step_ok (it : BatchItem) (w : World) res rs :
  inbox w = res :: rs -> accepted res ->
  exists w' req,
    bind (Cloud_control cfg host (mkDeviceRef (item_deviceId it) (item_model it)) (cmd it))
         (fun _ => sleep 60) w = (w', Done tt)
    /\ inbox w' = rs /\ trace w' = trace w ++ [EvFetch req; EvTimeout 60]
    /\ written req = write_of it.
Proof.
  intros Hin [Hok [j Hj]].
  rewrite (bind_Done _ _ _ _ _ (Cloud_control_sent cfg host _ _ _ _ _ _ Hdry Hin Hok Hj)).
  unfold sleep, emit. cbn [limiter ticks inbox trace].
  eexists. eexists. split; [reflexivity|]. rewrite <- app_assoc. repeat split.
Qed.

Lemma Cloud_batch_step_refused (it : BatchItem) (w : World) bad rs :
  inbox w = bad :: rs -> ok bad = false ->
  exists w' req,
    bind (Cloud_control cfg host (mkDeviceRef (item_deviceId it) (item_model it)) (cmd it))
         (fun _ => sleep 60) w = (w', Throw (api_error host bad))
    /\ inbox w' = rs /\ trace w' = trace w ++ [EvFetch req]
    /\ written req = write_of it.
Proof.
  intros Hin Hok. unfold Cloud_control. rewrite Hdry.
  unfold bind at 1. unfold bind at 1. unfold now. unfold bind at 1. unfold post.
  assert (Hin' : inbox (mkWorld (limiter w) (S (ticks w)) (inbox w) (trace w))
                 = bad :: rs) by exact Hin.
  rewrite (bind_Done _ _ _ _ _ (fetch_head _ _ _ _ Hin')).
  rewrite Hok. cbn [negb]. unfold throw.
  eexists. eexists. split; [reflexivity|]. repeat split.
Qed.

(** The adapter's own [batch] is strictly sequential.  With dry-run off:
    when an accepting response waits for every item, the items are sent
    in their order, each followed by the pause of 60 ms; and when the
    vendor refuses one, the items before it have been sent, that one has
    been sent, the error is its status error, and no later item is sent
    nor its response read. *)
Theorem Cloud_batch_sequential (items : list BatchItem) (w : World)
    (oks : list HttpResponse) :
  Forall accepted oks ->
  (forall rest, inbox w = oks ++ rest -> length oks = length items ->
     exists sent,
       snd (Cloud_batch cfg host items w) = Done tt
       /\ trace (fst (Cloud_batch cfg host items w))
          = trace w ++ flat_map (fun req => [EvFetch req; EvTimeout 60]) sent
       /\ map written sent = map write_of items
       /\ inbox (fst (Cloud_batch cfg host items w)) = rest)
  /\ (forall bad rest, inbox w = oks ++ bad :: rest -> ok bad = false ->
        (length oks < length items)%nat ->
        exists sent req,
          snd (Cloud_batch cfg host items w) = Throw (api_error host bad)
          /\ trace (fst (Cloud_batch cfg host items w))
             = trace w ++ flat_map (fun req => [EvFetch req; EvTimeout 60]) sent
                 ++ [EvFetch req]
          /\ map written (sent ++ [req]) = map write_of (firstn (S (length oks)) items)
          /\ inbox (fst (Cloud_batch cfg host items w)) = rest).
Proof.
  intros Hoks. unfold Cloud_batch. rewrite Hdry.
  revert w oks Hoks. induction items as [|it items IH]; intros w oks Hoks.
  - split.
    + intros rest Hin Hlen. destruct oks; [|discriminate]. exists []. simpl.
      now rewrite app_nil_r.
    + intros bad rest _ _ Hlen. simpl in Hlen. lia.
  - destruct oks as [|res oks].
    + split; [intros rest _ Hlen; discriminate|].
      intros bad rest Hin Hbad _.
      destruct (Cloud_batch_step_refused it w bad rest Hin Hbad)
        as (w' & req & Hrun & Hin' & Htr & Hreq).
      exists [], req. cbn [for_each]. rewrite (bind_Throw _ _ _ _ _ Hrun). cbn [fst snd].
      split; [reflexivity|]. split; [exact Htr|]. split; [|exact Hin'].
      simpl. now rewrite Hreq.
    + apply Forall_cons in Hoks as [Hres Hoks]. split.
      * intros rest Hin Hlen.
        destruct (Cloud_batch_step_ok it w res (oks ++ rest) Hin Hres)
          as (w1 & req & Hrun & Hin1 & Htr1 & Hreq).
        destruct (IH w1 oks Hoks) as [Hgood _].
        destruct (Hgood rest Hin1 ltac:(simpl in Hlen; lia))
          as (sent & Hsnd & Htr & Hsent & Hin').
        exists (req :: sent). cbn [for_each]. rewrite (bind_Done _ _ _ _ _ Hrun).
        split; [exact Hsnd|]. split; [|split; [|exact Hin']].
        -- rewrite Htr, Htr1. cbn [flat_map]. now rewrite <- app_assoc.
        -- simpl. now rewrite Hreq, Hsent.
      * intros bad rest Hin Hbad Hlen.
        destruct (Cloud_batch_step_ok it w res (oks ++ bad :: rest) Hin Hres)
          as (w1 & req & Hrun & Hin1 & Htr1 & Hreq).
        destruct (IH w1 oks Hoks) as [_ Hfail].
        destruct (Hfail bad rest Hin1 Hbad ltac:(simpl in Hlen; lia))
          as (sent & req' & Hsnd & Htr & Hsent & Hin').
        exists (req :: sent), req'. cbn [for_each]. rewrite (bind_Done _ _ _ _ _ Hrun).
        split; [exact Hsnd|]. split; [|split; [|exact Hin']].
        -- rewrite Htr, Htr1. cbn [flat_map]. now rewrite <- !app_assoc.
        -- cbn [length firstn app map]. now rewrite Hreq, Hsent.
Qed.

End Cloud_batch_run.

(** ** adapters/lan.ts *)

(** [LanAdapter.batch] succeeds on the empty list only: on any other list
    it fails at its first item with the error of [control] (the guard's
    message when the flag is off, the placeholder's when it is on), and
    in both cases the limiter, the clock, the pending responses and the
    trace are as before. *)
Theorem Lan_batch_outcome (cfg : Config) (items : list BatchItem) (w : World) :
  Lan_batch cfg items w
  = (w, match items with
        | [] => Done tt
        | _ => Throw (Error (if lanEnabled cfg then "LAN control not implemented"
                             else "LAN disabled"))
        end).
Proof.
  destruct items as [|it rest]; [reflexivity|].
  unfold Lan_batch. cbn [for_each]. unfold bind, Lan_control.
  now destruct (lanEnabled cfg).
Qed.

(** ** Encoding and decoding together *)

(** What [control] encodes, [getState] decodes back, for every command
    but a scene: a power, brightness or colour-temperature command, and a
    colour command whose components are integers of a byte, reported back
    by the vendor under the same address, gives the state that holds the
    command's value and nothing else. *)
Theorem control_state_roundtrip (host : Host) (c : ControlCmd) :
  (forall s, c <> scene s) -> (forall v, c = color v -> byte_Rgb v) ->
  decode_state host [reported (capability_of c)] = State_of_cmd c.
Proof.
  intros Hscene Hbyte. destruct c as [v|v|v|v|s].
  - apply roundtrip_turn.
  - apply roundtrip_brightness.
  - destruct (Hbyte v eq_refl) as (zr & zg & zb & -> & Hr & Hg & Hb).
    now apply (roundtrip_color host).
  - apply roundtrip_colorTem.
  - now destruct (Hscene s).
Qed.

Lemma control_state_roundtrip_witness :
  decode_state demo_host [reported (capability_of (color (mkRgb 10 20 30)))]
  = State_of_cmd (color (mkRgb 10 20 30)).
Proof.
  apply (control_state_roundtrip demo_host (color (mkRgb 10 20 30))).
  - intros s. discriminate.
  - intros v Hv. injection Hv as <-. exists 10, 20, 30.
    split; [reflexivity|]. lia.
Defined.

Lemma Cloud_batch_sequential_witness :
  let items := [mkBatchItem "A" "H6104" (turn on); mkBatchItem "B" "H6159" (brightness 40)] in
  let w := boot demo_cfg demo_host [ok_response; teapot "no"] in
  exists sent req,
    snd (Cloud_batch demo_cfg demo_host items w)
    = Throw (api_error demo_host (teapot "no"))
    /\ trace (fst (Cloud_batch demo_cfg demo_host items w))
       = trace w ++ flat_map (fun req => [EvFetch req; EvTimeout 60]) sent ++ [EvFetch req]
    /\ map written (sent ++ [req]) = map write_of (firstn 2 items)
    /\ inbox (fst (Cloud_batch demo_cfg demo_host items w)) = [].
Proof.
  intros items w.
  destruct (Cloud_batch_sequential demo_cfg demo_host eq_refl items w [ok_response])
    as [_ H].
  - repeat constructor. now exists (mkJson None None).
  - apply (H (teapot "no") []); [reflexivity | reflexivity | simpl; lia].
Defined.

(** ** The allowlist read from the environment *)

Section Allowlist_env_facts.
Variable is_space : ascii -> bool.

Lemma split_sep_nonempty (s : string) : split_sep is_space s <> [].
Proof.
  induction s as [|c s IH]; simpl; [discriminate|].
  destruct (is_sep is_space c).
  - destruct s as [|c' s']; [discriminate|]. now destruct (is_sep is_space c').
  - now destruct (split_sep is_space s).
Qed.

Lemma split_sep_sep_free (s : string) :
  Forall (fun t => sep_free is_space t = true) (split_sep is_space s).
Proof.
  induction s as [|c s IH]; cbn [split_sep]; [now repeat constructor|].
  destruct (is_sep is_space c) eqn:Hc.
  - destruct s as [|c' s']; [now repeat constructor|].
    destruct (is_sep is_space c'); [exact IH | now constructor].
  - destruct (split_sep is_space s) as [|t ts]; [repeat constructor|].
    + unfold sep_free. simpl. now rewrite Hc.
    + apply Forall_cons in IH as [Ht Hts]. constructor; [|exact Hts].
      unfold sep_free in *. simpl. now rewrite Hc.
Qed.

Lemma is_sep_space (c : ascii) : is_sep is_space c = false -> is_space c = false.
Proof. unfold is_sep. now intros [_ H]%orb_false_elim. Qed.

Lemma trim_sep_free (t : string) : sep_free is_space t = true -> trim is_space t = t.
Proof.
  intros Ht. unfold trim.
  assert (Hstart : trim_start is_space t = t).
  { destruct t as [|c t]; [reflexivity|]. unfold sep_free in Ht. simpl in Ht.
    apply andb_prop in Ht as [Hc _]. apply negb_true_iff, is_sep_space in Hc.
    simpl. now rewrite Hc. }
  rewrite Hstart. clear Hstart. induction t as [|c t IH]; [reflexivity|].
  unfold sep_free in Ht. simpl in Ht. apply andb_prop in Ht as [Hc Ht].
  apply negb_true_iff, is_sep_space in Hc.
  simpl. rewrite (IH Ht). rewrite Hc. now destruct t.
Qed.

Lemma allowlistEnv_no_trim (env : option string) :
  allowlistEnv is_space env = List.filter Boolean (split_sep is_space (default "" env)).
Proof.
  unfold allowlistEnv. f_equal.
  rewrite <- (map_id (split_sep is_space (default "" env))) at 2.
  apply map_ext_in. intros t Ht. apply trim_sep_free.
  apply list_elem_of_In in Ht.
  exact (proj1 (Forall_forall _ _) (split_sep_sep_free _) t Ht).
Qed.

Lemma allowlistEnv_empty (env : option string) :
  allowlistEnv is_space env = [] <-> all_chars (is_sep is_space) (default "" env) = true.
Proof.
  rewrite allowlistEnv_no_trim. generalize (default "" env) as s. clear env.
  induction s as [|c s IH]; cbn [split_sep all_chars]; [done|].
  destruct (is_sep is_space c) eqn:Hc; cbn [andb].
  - destruct s as [|c' s']; [done|].
    destruct (is_sep is_space c') eqn:Hc'; [exact IH|].
    cbn [List.filter Boolean String.eqb negb]. exact IH.
  - pose proof (split_sep_nonempty s) as Hne.
    destruct (split_sep is_space s) as [|t ts]; [done|]. simpl. done.
Qed.

(** The pieces that reach the allowlist are never empty and hold no comma
    and no white space, so the [trim] between [split] and [filter] changes
    nothing; and the list is empty exactly when the variable is unset,
    empty, or made of commas and white space only. *)
Theorem allowlistEnv_tokens (env : option string) :
  allowlistEnv is_space env = List.filter Boolean (split_sep is_space (default "" env))
  /\ (forall t, t ∈ allowlistEnv is_space env -> t <> "" /\ sep_free is_space t = true)
  /\ (allowlistEnv is_space env = []
      <-> all_chars (is_sep is_space) (default "" env) = true).
Proof.
  split; [apply allowlistEnv_no_trim|]. split; [|apply allowlistEnv_empty].
  intros t. rewrite allowlistEnv_no_trim.
  intros Ht. apply list_elem_of_In, List.filter_In in Ht as [Hin Hbool]. split.
  - intros ->. discriminate.
  - apply list_elem_of_In in Hin.
    exact (proj1 (Forall_forall _ _) (split_sep_sep_free _) t Hin).
Qed.

(** A process whose allowlist is read from [GOVEE_ALLOWLIST]: when the
    variable holds nothing but commas and white space (or is unset), every
    device is allowed; otherwise exactly the pieces are allowed, and a
    device id that holds a comma or white space can never be. *)
Theorem allowlist_from_env (cfg : Config) (env : option string) :
  ALLOWLIST cfg = ALLOWLIST_of_env is_space env ->
  (all_chars (is_sep is_space) (default "" env) = true ->
   forall id, isAllowed cfg id = true)
  /\ (all_chars (is_sep is_space) (default "" env) = false ->
      forall id,
        (isAllowed cfg id = true <-> id ∈ allowlistEnv is_space env)
        /\ (sep_free is_space id = false -> isAllowed cfg id = false)).
Proof.
  intros Hcfg.
  assert (Hspec : forall id, isAllowed cfg id = true
            <-> allowlistEnv is_space env = [] \/ id ∈ allowlistEnv is_space env).
  { intros id. rewrite isAllowed_spec, Hcfg. unfold ALLOWLIST_of_env.
    rewrite elem_of_list_to_set.
    destruct (allowlistEnv is_space env) as [|t l] eqn:Hl.
    - rewrite list_to_set_nil. tauto.
    - split; (intros [Hempty | Hin]; [|now right]).
      + exfalso. assert (Ht : t ∈ (list_to_set (t :: l) : gset string))
          by (apply elem_of_list_to_set; now left).
        rewrite Hempty in Ht. now apply not_elem_of_empty in Ht.
      + discriminate. }
  split.
  - intros Hblank id. apply Hspec. left. now apply allowlistEnv_empty.
  - intros Hsome id.
    assert (Hne : allowlistEnv is_space env <> []).
    { intros He. apply allowlistEnv_empty in He. congruence. }
    assert (Hiff : isAllowed cfg id = true <-> id ∈ allowlistEnv is_space env).
    { rewrite Hspec. tauto. }
    split; [exact Hiff|]. intros Hid.
    destruct (isAllowed cfg id) eqn:Hal; [|reflexivity].
    apply proj1 in Hiff. specialize (Hiff eq_refl).
    rewrite allowlistEnv_no_trim in Hiff.
    apply list_elem_of_In, List.filter_In in Hiff as [Hin _].
    apply list_elem_of_In in Hin.
    pose proof (proj1 (Forall_forall _ _) (split_sep_sep_free _) id Hin). congruence.
Qed.

Lemma append_empty_r (s : string) : s +:+ "" = s.
Proof. induction s as [|c s IH]; [reflexivity|]. now rewrite append_cons, IH. Qed.

Lemma split_sep_token (t s : string) :
  sep_free is_space t = true ->
  split_sep is_space (t +:+ s)
  = match split_sep is_space s with
    | h :: rest => (t +:+ h) :: rest
    | [] => [t]
    end.
Proof.
  intros Ht. pose proof (split_sep_nonempty s) as Hne.
  induction t as [|c t IH].
  - rewrite append_nil. destruct (split_sep is_space s); [done|]. now rewrite append_nil.
  - unfold sep_free in Ht. simpl in Ht. apply andb_prop in Ht as [Hc Ht].
    apply negb_true_iff in Hc. rewrite append_cons. cbn [split_sep]. rewrite Hc.
    rewrite (IH Ht). destruct (split_sep is_space s); [done|]. now rewrite append_cons.
Qed.

Lemma concat_head (x : string) (l : list string) :
  exists tail, String.concat "," (x :: l) = x +:+ tail.
Proof.
  destruct l as [|y l].
  - exists "". simpl. now rewrite append_empty_r.
  - eexists. reflexivity.
Qed.

Lemma split_sep_comma_list (ids : list string) :
  Forall (fun t => t <> "" /\ sep_free is_space t = true) ids ->
  List.filter Boolean (split_sep is_space (String.concat "," ids)) = ids.
Proof.
  intros Hids.
  induction ids as [|x ids IH]; [reflexivity|].
  apply Forall_cons in Hids as [[Hx Hfree] Hids]. specialize (IH Hids).
  assert (Hbool : Boolean x = true) by (destruct x; [done | reflexivity]).
  destruct ids as [|y ids].
  - change (String.concat "," [x]) with x.
    replace (split_sep is_space x) with (split_sep is_space (x +:+ ""))
      by (now rewrite append_empty_r).
    rewrite split_sep_token by exact Hfree. cbn [split_sep].
    rewrite append_empty_r. cbn [List.filter]. now rewrite Hbool.
  - change (String.concat "," (x :: y :: ids))
      with (x +:+ "," +:+ String.concat "," (y :: ids)).
    rewrite split_sep_token by exact Hfree.
    apply Forall_cons in Hids as [[Hy Hyfree] _].
    destruct (concat_head y ids) as [tail Htail].
    destruct y as [|c y]; [done|].
    unfold sep_free in Hyfree. simpl in Hyfree. apply andb_prop in Hyfree as [Hc _].
    apply negb_true_iff in Hc.
    rewrite Htail in *. rewrite !append_cons, !append_nil. rewrite append_cons in IH.
    cbn [split_sep] in *.
    assert (Hcomma : is_sep is_space "," = true) by reflexivity.
    rewrite Hcomma, Hc. cbv beta iota.
    rewrite append_empty_r. cbn [List.filter]. rewrite Hbool.
    change (Boolean "") with false. cbv beta iota. f_equal.
    rewrite Hc in IH. exact IH.
Qed.

(** The documented format round-trips: a variable written as device ids
    joined by commas, each id non-empty and free of commas and white
    space, is read back as exactly those ids, in order. *)
Theorem allowlistEnv_comma_list (ids : list string) :
  Forall (fun t => t <> "" /\ sep_free is_space t = true) ids ->
  allowlistEnv is_space (Some (String.concat "," ids)) = ids.
Proof.
  intros Hids. rewrite allowlistEnv_no_trim. now apply split_sep_comma_list.
Qed.

End Allowlist_env_facts.

Lemma allowlist_from_env_witness :
  (isAllowed only_A "A" = true <-> "A" ∈ allowlistEnv ascii_space (Some " A, "))
  /\ isAllowed only_A "A " = false.
Proof.
  destruct (allowlist_from_env ascii_space only_A (Some " A, ")) as [_ H].
  - vm_compute. reflexivity.
  - split; [apply (H eq_refl "A") | apply (H eq_refl "A "); reflexivity].
Defined.

Lemma allowlistEnv_comma_list_witness :
  allowlistEnv ascii_space (Some (String.concat "," ["AA:BB"; "CC:DD"])) = ["AA:BB"; "CC:DD"].
Proof.
  apply (allowlistEnv_comma_list ascii_space ["AA:BB"; "CC:DD"]).
  repeat constructor; discriminate.
Defined.

(** ** The further properties at sample inputs *)

Lemma burst_then_block_witness :
  let wk := take_times frozen_host 1 5 (boot demo_cfg frozen_host []) in
  trace wk = concat (repeat [EvTake; EvToken] 5)
  /\ (forall fuel', snd (take frozen_host fuel' wk) = Pending
                    /\ tokens_consumed (trace (fst (take frozen_host fuel' wk))) = 5%nat).
Proof.
  destruct (burst_then_block demo_cfg frozen_host (fun n => eq_refl) 0 5 []) as [H1 H2].
  - vm_compute. discriminate.
  - split; [exact H1 | exact (H2 eq_refl)].
Defined.

Lemma write_posts_command_witness :
  let w := boot only_A demo_host [ok_response] in
  exists fuel0, forall fuel sched, (fuel0 <= fuel)%nat -> exists rid msg,
    snd (handler only_A demo_host fuel sched (set_scene "A" "H6104" "Sunset") w)
    = Done (Text msg)
    /\ fetches (trace (fst (handler only_A demo_host fuel sched
                              (set_scene "A" "H6104" "Sunset") w)))
       = fetches (trace w)
         ++ [control_request only_A rid "A" "H6104" (capability_of (scene "Sunset"))]
    /\ inbox (fst (handler only_A demo_host fuel sched
                     (set_scene "A" "H6104" "Sunset") w)) = []
    /\ tokens_consumed (trace (fst (handler only_A demo_host fuel sched
                                      (set_scene "A" "H6104" "Sunset") w)))
       = S (tokens_consumed (trace w)).
Proof.
  exact (write_posts_command only_A demo_host (set_scene "A" "H6104" "Sunset") "A"
           (scene "Sunset") (boot only_A demo_host [ok_response]) ok_response []
           (mkJson None None) eq_refl eq_refl eq_refl eq_refl eq_refl
           (demo_ready only_A [ok_response] eq_refl) eq_refl eq_refl eq_refl).
Defined.

Lemma get_state_queries_vendor_witness :
  let w := boot dry_cfg demo_host [ok_response] in
  exists fuel0, forall fuel, (fuel0 <= fuel)%nat ->
    snd (govee_get_state dry_cfg demo_host fuel "A" "H6104" w)
    = Done (JsonState (decode_state demo_host
                         (default [] (data_capabilities (mkJson None None)))))
    /\ fetches (trace (fst (govee_get_state dry_cfg demo_host fuel "A" "H6104" w)))
       = fetches (trace w) ++ [state_request dry_cfg "A" "H6104"]
    /\ inbox (fst (govee_get_state dry_cfg demo_host fuel "A" "H6104" w)) = [].
Proof.
  exact (get_state_queries_vendor dry_cfg demo_host "A" "H6104"
           (boot dry_cfg demo_host [ok_response]) ok_response [] (mkJson None None)
           eq_refl eq_refl (demo_ready dry_cfg [ok_response] eq_refl)
           eq_refl eq_refl eq_refl).
Defined.

Lemma only_allowed_devices_contacted_witness :
  let req := control_request only_A "mcp-2000" "A" "H6104" (capability_of (turn on)) in
  (forall d, named_device req = Some d -> isAllowed only_A d = true)
  /\ (exists path, url req = API_BASE only_A +:+ path)
  /\ ("Govee-API-Key", API_KEY only_A) ∈ headers req.
Proof.
  apply (only_allowed_devices_contacted only_A demo_host
           (fst (tools_call only_A demo_host 5 [] (set_power "A" "H6104" true)
                   (boot only_A demo_host [ok_response])))).
  - apply reach_tools_call, reach_boot.
  - vm_compute. apply list_elem_of_here.
Defined.

Lemma dry_run_never_writes_witness :
  is_write (state_request dry_cfg "A" "H6104") = false.
Proof.
  apply (dry_run_never_writes dry_cfg demo_host
           (fst (tools_call dry_cfg demo_host 5 [] (get_state "A" "H6104")
                   (boot dry_cfg demo_host [ok_response])))).
  - reflexivity.
  - apply reach_tools_call, reach_boot.
  - vm_compute. apply list_elem_of_here.
Defined.

Lemma dry_run_reports_success_witness :
  let w := boot demo_cfg demo_host [ok_response] in
  exists fuel0, forall fuel sched, (fuel0 <= fuel)%nat ->
    let dry := handler (with_DRY_RUN true demo_cfg) demo_host fuel sched
                 (set_power "A" "H6104" true) w in
    let wet := handler (with_DRY_RUN false demo_cfg) demo_host fuel sched
                 (set_power "A" "H6104" true) w in
    snd dry = snd wet
    /\ (exists msg, snd dry = Done (Text msg))
    /\ fetches (trace (fst dry)) = fetches (trace w)
    /\ inbox (fst dry) = inbox w
    /\ tokens_consumed (trace (fst dry)) = S (tokens_consumed (trace w))
    /\ list.last (trace (fst dry))
       = Some (EvLogControl (mkDeviceRef "A" "H6104") (turn on)).
Proof.
  exact (dry_run_reports_success demo_host demo_cfg (set_power "A" "H6104" true) "A"
           (turn on) (boot demo_cfg demo_host [ok_response]) ok_response []
           (mkJson None None) eq_refl eq_refl eq_refl eq_refl
           (demo_ready demo_cfg [ok_response] eq_refl) eq_refl eq_refl eq_refl).
Defined.

Lemma batch_sends_each_command_once_witness :
  let items := [mkBatchItem "A" "H6104" (turn on); mkBatchItem "B" "H6159" (turn on);
                mkBatchItem "A" "H6104" (turn off); mkBatchItem "A" "H6104" (brightness 40)] in
  let w := boot demo_cfg demo_host [ok_response; ok_response; ok_response] in
  exists fuel0, forall fuel, (fuel0 <= fuel)%nat -> exists sent,
    snd (govee_batch demo_cfg demo_host fuel [1%nat; 0%nat] items w)
    = Done (Text "Applied 3 command(s) across 2 device(s).")
    /\ fetches (trace (fst (govee_batch demo_cfg demo_host fuel [1%nat; 0%nat] items w)))
       = fetches (trace w) ++ sent
    /\ map written sent
       ≡ₚ map write_of [mkBatchItem "A" "H6104" (turn off); mkBatchItem "B" "H6159" (turn on);
                        mkBatchItem "A" "H6104" (brightness 40)]
    /\ inbox (fst (govee_batch demo_cfg demo_host fuel [1%nat; 0%nat] items w)) = [].
Proof.
  intros items w.
  apply (batch_sends_each_command_once demo_cfg demo_host eq_refl [1%nat; 0%nat] items w
           [ok_response; ok_response; ok_response] []).
  - vm_compute. discriminate.
  - reflexivity.
  - apply demo_ready. reflexivity.
  - reflexivity.
  - reflexivity.
  - repeat constructor; now exists (mkJson None None).
Defined.

Lemma allowlistEnv_tokens_witness :
  allowlistEnv ascii_space (Some " A, B ,,C ") = ["A"; "B"; "C"]
  /\ "B" <> "" /\ sep_free ascii_space "B" = true.
Proof.
  split; [reflexivity|].
  apply (proj1 (proj2 (allowlistEnv_tokens ascii_space (Some " A, B ,,C ")))).
  vm_compute. apply list_elem_of_further, list_elem_of_here.
Defined.

Lemma refusal_ends_tool_call_witness :
  let w := boot demo_cfg demo_host [teapot "secret"] in
  exists fuel0, forall fuel sched, (fuel0 <= fuel)%nat ->
    snd (handler demo_cfg demo_host fuel sched (get_state "A" "H6104") w)
    = Throw (Error ("Govee API error " +:+ pretty (status (teapot "secret"))
                    +:+ ": Request failed"))
    /\ (inputSchema (get_state "A" "H6104") = true ->
        registered_call demo_cfg demo_host fuel sched (get_state "A" "H6104") w
        = handler demo_cfg demo_host fuel sched (get_state "A" "H6104") w)
    /\ length (fetches (trace (fst (handler demo_cfg demo_host fuel sched
                                      (get_state "A" "H6104") w))))
       = S (length (fetches (trace w)))
    /\ tokens_consumed (trace (fst (handler demo_cfg demo_host fuel sched
                                      (get_state "A" "H6104") w)))
       = S (tokens_consumed (trace w)).
Proof.
  exact (refusal_ends_tool_call demo_cfg demo_host (get_state "A" "H6104") "A"
           (boot demo_cfg demo_host [teapot "secret"]) (teapot "secret") []
           eq_refl eq_refl eq_refl eq_refl
           (demo_ready demo_cfg [teapot "secret"] eq_refl) eq_refl eq_refl).
Defined.

Lemma lan_errors_unreachable_witness :
  Error "Govee API error 418: Request failed" <> Error "LAN disabled"
  /\ (lanEnabled demo_cfg = false ->
      Error "Govee API error 418: Request failed" <> Error "LAN control not implemented"
      /\ Error "Govee API error 418: Request failed"
         <> Error "LAN getState not implemented").
Proof.
  apply (lan_errors_unreachable demo_cfg demo_host 5 [] (set_power "A" "H6104" true)
           (boot demo_cfg demo_host [teapot "no"])).
  vm_compute. reflexivity.
Defined.
